(** * Entropy, Shannon-Fano and Huffman workbooks: a shallow embedding

    The three Python workbooks (Workbook1.py, Workbook2.py, Workbook3.py) are
    embedded function by function, each in a module of its name; the module
    [Py] holds the fragment of Python they share.

    Data model.
    - A Python [str] is a [string]; iterating over it yields its characters,
      each a [str] of length 1.  A symbol (a character or a bigram) is a
      [string] as well.
    - A Python [dict] (and a [Counter]) is an insertion-ordered association
      list with pairwise distinct keys: the order is observable through the
      stability of [sorted] and through the inverse table built by [decode].
    - A Python [set] is a [gset].
    - A Python [int] is a [Z].
    - A finite Python [float] is the rational it stands for.  Where a
      float decides what a function does, the operation is rounded to
      binary64 as the machine does it: the quotient [total / 2] that
      [split] compares the accumulated weight with, and the product
      [frac * symbols_count] that [remove_by_frequency] rounds to an
      integer; a result beyond the largest float raises [OverflowError]
      where the interpreter does.  Infinities and NaN as inputs are left
      out.  The values that are only printed are idealised: the average
      code lengths are summed in exact rationals ([Q]), and the entropy,
      which needs [log2], in the reals ([R]); what is proved of them holds
      of the floats up to their rounding only.
    - A raised exception is a value of [exn]; a function that can raise
      returns a [result].
    - The recursion of [split] is not structural: it carries the number of
      nested calls still allowed and raises [RecursionError] at 0.  The
      [while] loop of [build_huffman_codes] shortens its list in every
      round; it is run for as many rounds as the list is long.

    - Reading the input file, printing and writing the output file are not
      modelled: [main] is embedded as a function of the text it has read,
      returning the values it prints.

    The definitions come first, then the vocabulary of the specification,
    then lemmas per component, the claims C1 to C10, and further
    properties of the code, up to the [main] of each workbook. *)

From Stdlib Require Import ZArith QArith Qround Qabs Reals Qreals Lra Lia.
From Stdlib Require Lqa.
From Stdlib Require Import Ascii String.
From stdpp Require Import base decidable option list sorting strings gmap.

(* ================================================================== *)
(** * The Python fragment the workbooks rely on *)
(* ================================================================== *)

Module Py.

(** Exceptions the workbooks can raise. [ValueError_missing] is the
    [ValueError] of [encode], carrying the set it reports. *)
Inductive exn : Type :=
| ValueError_missing (missing : gset string)
| ValueError_math_domain
| IndexError
| KeyError (key : string)
| AttributeError
| ZeroDivisionError
| OverflowError
| RecursionError.

Inductive result (A : Type) : Type :=
| Ok (a : A)
| Raise (e : exn).
Arguments Ok {A} a.
Arguments Raise {A} e.

Definition bind {A B} (r : result A) (k : A -> result B) : result B :=
  match r with
  | Ok a => k a
  | Raise e => Raise e
  end.

Definition raises {A} (r : result A) : Prop :=
  match r with Ok _ => False | Raise _ => True end.

Section Dict.
Context {K V : Type} `{EqDecision K}.

(** [d.get(k)]: the value stored under [k], if any. *)
Fixpoint dict_get (d : list (K * V)) (k : K) : option V :=
  match d with
  | [] => None
  | (k', v) :: d' => if decide (k' = k) then Some v else dict_get d' k
  end.

(** [d[k] = v]: overwrite in place when the key is present, append a new
    entry at the end otherwise. *)
Fixpoint dict_set (d : list (K * V)) (k : K) (v : V) : list (K * V) :=
  match d with
  | [] => [(k, v)]
  | (k', v') :: d' =>
      if decide (k' = k) then (k', v) :: d' else (k', v') :: dict_set d' k v
  end.

Definition dict_keys (d : list (K * V)) : list K := d.*1.

Definition dict_values (d : list (K * V)) : list V := d.*2.

End Dict.

(** [''.join(parts)]. *)
Definition join (parts : list string) : string := String.concat "" parts.

(** [l[:n]] and [l[n:]] for an integer [n] of either sign. *)
Definition slice_to {A} (l : list A) (n : Z) : list A :=
  if (0 <=? n)%Z then take (Z.to_nat n) l
  else take (Z.to_nat (Z.of_nat (length l) + n)) l.

Definition slice_from {A} (l : list A) (n : Z) : list A :=
  if (0 <=? n)%Z then drop (Z.to_nat n) l
  else drop (Z.to_nat (Z.of_nat (length l) + n)) l.

(** [sorted(items, key=count, reverse=True)] and [list.sort(key=...)]:
    Python's sort is stable, also with [reverse=True].  Insertion from the
    right keeps an element in front of the equal ones that followed it. *)
Section Sort.
Context {A : Type} (key : A -> Z).

Fixpoint insert_desc (x : A) (l : list A) : list A :=
  match l with
  | [] => [x]
  | y :: l' =>
      if (key x <? key y)%Z then y :: insert_desc x l' else x :: y :: l'
  end.

Definition sorted_desc (l : list A) : list A := foldr insert_desc [] l.

Fixpoint insert_asc (x : A) (l : list A) : list A :=
  match l with
  | [] => [x]
  | y :: l' =>
      if (key y <? key x)%Z then y :: insert_asc x l' else x :: y :: l'
  end.

Definition sorted_asc (l : list A) : list A := foldr insert_asc [] l.

End Sort.

(** [round(x)] to an integer: to nearest, a tie going to the even one. *)
Definition round (x : Q) : Z :=
  let f := Qfloor x in
  let r := (x - inject_Z f)%Q in
  match (r ?= 1 # 2)%Q with
  | Lt => f
  | Gt => (f + 1)%Z
  | Eq => if Z.even f then f else (f + 1)%Z
  end.

(** ** binary64

    A finite [float] is the rational it stands for.  [b64_round x] is the
    float nearest to [x], a tie going to the one with the even
    significand: 53 bits of significand, the spacing of the floats near
    [x] being [2 ^ b64_exponent x], not below [2 ^ -1074]; [None] when the
    result exceeds the largest float (where the machine gives an infinity
    or the interpreter raises). *)

Definition pow2 (e : Z) : Q :=
  if (0 <=? e)%Z then inject_Z (2 ^ e) else (/ inject_Z (2 ^ (- e)))%Q.

Definition b64_exponent (x : Q) : Z :=
  let e0 := (Z.log2 (Z.abs (Qnum x)) - Z.log2 (Zpos (Qden x)) - 52)%Z in
  let e := if Qle_bool (pow2 (e0 + 52)) (Qabs x) then e0 else (e0 - 1)%Z in
  Z.max e (-1074).

Definition b64_max : Q := inject_Z (2 ^ 1024 - 2 ^ 971).

Definition b64_round (x : Q) : option Q :=
  let e := b64_exponent x in
  let y := (inject_Z (round (x / pow2 e)) * pow2 e)%Q in
  if Qle_bool (Qabs y) b64_max then Some y else None.

(** The float a decimal literal such as [0.2] denotes. *)
Definition float_of_decimal (q : Q) : Q := default 0%Q (b64_round q).

(** The conversion of an int operand of a float operation. *)
Definition float_of_int (n : Z) : result Q :=
  match b64_round (inject_Z n) with
  | Some x => Ok x
  | None => Raise OverflowError
  end.

(** [a / b] on two ints: the quotient, rounded once. *)
Definition truediv_b64 (a b : Z) : result Q :=
  if (b =? 0)%Z then Raise ZeroDivisionError
  else match b64_round (inject_Z a / inject_Z b) with
       | Some x => Ok x
       | None => Raise OverflowError
       end.

(** [round(x * n)] for a float [x] and an int [n]: a product beyond the
    largest float is an infinity, which [round] refuses. *)
Definition round_product (x : Q) (n : Z) : result Z :=
  bind (float_of_int n) (fun y =>
    match b64_round (x * y) with
    | Some product => Ok (round product)
    | None => Raise OverflowError
    end).

(** ** Float operations (idealised, see the header) *)

(** [a / b] on two ints. *)
Definition truediv_Q (a b : Z) : result Q :=
  if (b =? 0)%Z then Raise ZeroDivisionError else Ok (inject_Z a / inject_Z b)%Q.

Definition truediv_R (a b : Z) : result R :=
  if (b =? 0)%Z then Raise ZeroDivisionError else Ok (IZR a / IZR b)%R.

(** [x / y] on floats. *)
Definition fdiv_R (x y : R) : result R :=
  if Req_dec_T y 0%R then Raise ZeroDivisionError else Ok (x / y)%R.

(** [math.log2(x)]. *)
Definition log2 (x : R) : result R :=
  if Rle_dec x 0%R then Raise ValueError_math_domain else Ok (ln x / ln 2)%R.

(** [sum(values)] on ints. *)
Definition sum_Z (values : list Z) : Z := fold_left Z.add values 0%Z.

(** [''.join(d[c] for c in chars)]: the first absent key raises. *)
Fixpoint lookup_join (d : list (string * string)) (chars : list string)
  : result string :=
  match chars with
  | [] => Ok ""
  | char :: chars' =>
      match dict_get d char with
      | None => Raise (KeyError char)
      | Some code => bind (lookup_join d chars') (fun s => Ok (code +:+ s))
      end
  end.

(** Iterating over a [str] yields its characters, each a [str] of length 1. *)
Fixpoint chars_of (text : string) : list string :=
  match text with
  | EmptyString => []
  | String c rest => String c "" :: chars_of rest
  end.

(** [Counter(items)]: first-seen order, one more per occurrence. *)
Definition Counter (items : list string) : list (string * Z) :=
  fold_left
    (fun counter elem => dict_set counter elem (default 0%Z (dict_get counter elem) + 1)%Z)
    items [].

(** [counter[key]] on a [Counter]: 0 for an absent key. *)
Definition counter_get (counter : list (string * Z)) (key : string) : Z :=
  default 0%Z (dict_get counter key).

(** [string.punctuation]: the ASCII punctuation characters, codes 33 to
    47, 58 to 64, 91 to 96 and 123 to 126. *)
Definition punctuation : string :=
  string_of_list_ascii
    (ascii_of_nat <$> (seq 33 15 ++ seq 58 7 ++ seq 91 6 ++ seq 123 4)).

(** [text.replace(old, new)] for a pattern [old] of one character. *)
Fixpoint str_replace_char (old : ascii) (new : string) (text : string) : string :=
  match text with
  | EmptyString => EmptyString
  | String c rest =>
      if Ascii.eqb c old then new +:+ str_replace_char old new rest
      else String c (str_replace_char old new rest)
  end.

(** [s[-1]]: the last character; on the empty [str] the index is out of
    range. *)
Fixpoint last_char (s : string) : result string :=
  match s with
  | EmptyString => Raise IndexError
  | String c EmptyString => Ok (String c "")
  | String _ rest => last_char rest
  end.

(** [[text[i:i + 2] for i in range(len(text) - 1)]], the bigrams every
    [main] takes of its text. *)
Definition bigrams (text : string) : list string :=
  (fun i => String.substring i 2 text) <$> seq 0 (String.length text - 1).

Notation "x <- r ;; k" := (bind r (fun x => k))
  (at level 100, r at next level, right associativity).

End Py.

Import Py.

(* ================================================================== *)
(** * Workbook1.py *)
(* ================================================================== *)

Module Workbook1.

(** One summand of the entropy: [(c / n) * log2(1 / (c / n))]. *)
Definition entropy_term (n c : Z) : result R :=
  p <- truediv_R c n ;;
  q <- fdiv_R 1%R p ;;
  l <- log2 q ;;
  Ok (p * l)%R.

(** [sum(f(c) for c in values)], the generator raising as soon as a summand does. *)
Fixpoint sum_terms (f : Z -> result R) (values : list Z) (acc : R) : result R :=
  match values with
  | [] => Ok acc
  | c :: values' => t <- f c ;; sum_terms f values' (acc + t)%R
  end.

(** [calculate_entropy(counter)]. *)
Definition calculate_entropy (counter : list (string * Z)) : result R :=
  let n := sum_Z (dict_values counter) in
  if (n =? 0)%Z then Ok 0%R
  else sum_terms (entropy_term n) (dict_values counter) 0%R.

(** [counter.most_common()]. *)
Definition most_common (counter : list (string * Z)) : list (string * Z) :=
  sorted_desc snd counter.

(** [remove_by_frequency(text, mode, frac)], [frac] a finite float. *)
Definition remove_by_frequency (text : string) (mode : string) (frac : Q)
  : result (string * gset string) :=
  let counter := Counter (chars_of text) in
  match counter with
  | [] => Ok (text, ∅)
  | _ =>
      let symbols_count := Z.of_nat (length counter) in
      rounded <- round_product frac symbols_count ;;
      let remove_n := Z.max 1 rounded in
      let to_remove : gset string :=
        if String.eqb mode "top"
        then list_to_set (slice_to (most_common counter) remove_n).*1
        else list_to_set (slice_from (most_common counter) (- remove_n)).*1 in
      let filtered :=
        join (filter (fun char => char ∉ to_remove) (chars_of text)) in
      Ok (filtered, to_remove)
  end.

(** [clear_text(text)]. *)
Definition clear_text (text : string) : string :=
  let text := str_replace_char " " "" text in
  fold_left (fun text char => str_replace_char char "" text)
    (list_ascii_of_string punctuation) text.

(** [calculate_code_length_and_redundancy(counter, entropy)]. *)
Definition calculate_code_length_and_redundancy (counter : list (string * Z))
  (entropy : R) : result (R * R) :=
  let symbols_count := Z.of_nat (length counter) in
  if (symbols_count <=? 1)%Z then Ok (0%R, 0%R)
  else
    code_length <- log2 (IZR symbols_count) ;;
    q <- fdiv_R entropy code_length ;;
    Ok (code_length, (1 - q)%R).

(** [print_removal_diff(text, symbols, base_entropy)]: the entropy and the
    change of entropy it prints. *)
Definition print_removal_diff (text : string) (symbols : gset string)
  (base_entropy : R) : result (R * R) :=
  new_entropy <- calculate_entropy (Counter (chars_of text)) ;;
  Ok (new_entropy, (new_entropy - base_entropy)%R).

(** The values [main] prints under 2) and 4) to 7). *)
Record main_values : Type := mk_main_values {
  main_text : string;
  main_entropy_unigrams : R;
  main_entropy_bigrams : R;
  main_code_length : R;
  main_redundancy : R;
  main_top_removed : string * gset string;
  main_top_diff : R * R;
  main_bottom_removed : string * gset string;
  main_bottom_diff : R * R
}.

(** [main()] from the [text] it has read on: the calls in the order of the
    source, without the printing and the writing of the cleaned text. *)
Definition main (text : string) : result main_values :=
  let text := clear_text text in
  let unigrams := Counter (chars_of text) in
  let bigrams := Counter (bigrams text) in
  entropy_unigrams <- calculate_entropy unigrams ;;
  entropy_bigrams <- calculate_entropy bigrams ;;
  sized <- calculate_code_length_and_redundancy unigrams entropy_unigrams ;;
  let '(code_length, redundancy) := sized in
  top_removed <- remove_by_frequency text "top" (float_of_decimal (2 # 10)) ;;
  let '(text_top_removed, removed_symbols_top) := top_removed in
  top_diff <-
    print_removal_diff text_top_removed removed_symbols_top entropy_unigrams ;;
  bottom_removed <-
    remove_by_frequency text "bottom" (float_of_decimal (2 # 10)) ;;
  let '(text_bottom_removed, removed_symbols_bottom) := bottom_removed in
  bottom_diff <-
    print_removal_diff text_bottom_removed removed_symbols_bottom
      entropy_unigrams ;;
  Ok (mk_main_values text entropy_unigrams entropy_bigrams code_length
        redundancy (text_top_removed, removed_symbols_top) top_diff
        (text_bottom_removed, removed_symbols_bottom) bottom_diff).

End Workbook1.

(* ================================================================== *)
(** * Workbook2.py *)
(* ================================================================== *)

Module Workbook2.

(** [calculate_entropy(counter)], the same function as in Workbook1.py. *)
Definition calculate_entropy (counter : list (string * Z)) : result R :=
  let n := sum_Z (dict_values counter) in
  if (n =? 0)%Z then Ok 0%R
  else Workbook1.sum_terms (Workbook1.entropy_term n) (dict_values counter) 0%R.

(** [codes[char] += bit] for every [char] of a group, left to right. *)
Fixpoint append_bit (group : list (string * Z)) (bit : string)
  (codes : list (string * string)) : result (list (string * string)) :=
  match group with
  | [] => Ok codes
  | (char, _) :: group' =>
      match dict_get codes char with
      | None => Raise (KeyError char)
      | Some code => append_bit group' bit (dict_set codes char (code +:+ bit))
      end
  end.

(** The scan of [split] for the cut: [acc] is the weight seen so far, [i]
    the index of the head of [group]; 0 when the loop never breaks.  The
    quotient [total / 2] is a float, and the int [acc] is compared with
    the value of that float. *)
Fixpoint find_cut (group : list (string * Z)) (total acc i : Z) : result Z :=
  match group with
  | [] => Ok 0%Z
  | (_, frequency) :: group' =>
      let acc := (acc + frequency)%Z in
      half <- truediv_b64 total 2 ;;
      if Qle_bool half (inject_Z acc) then Ok (i + 1)%Z
      else find_cut group' total acc (i + 1)%Z
  end.

(** The inner [split(group)] of [calculate_shannon_fano], threading the
    [codes] it updates.  [depth] is the number of nested calls the
    interpreter still allows. *)
Fixpoint split (depth : nat) (group : list (string * Z))
  (codes : list (string * string)) : result (list (string * string)) :=
  match depth with
  | O => Raise RecursionError
  | S depth' =>
      if (length group <=? 1)%nat then Ok codes
      else
        let total := sum_Z group.*2 in
        cut_idx <- find_cut group total 0 0 ;;
        let left := slice_to group cut_idx in
        let right := slice_from group cut_idx in
        codes <- append_bit left "0" codes ;;
        codes <- append_bit right "1" codes ;;
        codes <- split depth' right codes ;;
        split depth' left codes
  end.

(** [calculate_shannon_fano(counter)] under a recursion limit. *)
Definition calculate_shannon_fano (limit : nat) (counter : list (string * Z))
  : result (list (string * string)) :=
  let codes := (fun '(char, _) => (char, "")) <$> counter in
  split limit (sorted_desc snd counter) codes.

(** [encode(text, codec)]. *)
Definition encode (text : list string) (codec : list (string * string))
  : result string :=
  let missing : gset string :=
    filter (fun char => dict_get codec char = None) (list_to_set text) in
  if decide (missing = ∅) then lookup_join codec text
  else Raise (ValueError_missing missing).

(** [reversed_codec = {code: char for char, code in codec.items()}]. *)
Definition reversed_codec (codec : list (string * string))
  : list (string * string) :=
  fold_left (fun d '(char, code) => dict_set d code char) codec [].

(** The loop of [decode], from a given [result] and [buffer]; it returns
    both as they stand when the bitstring is exhausted. *)
Fixpoint decode_loop (reversed : list (string * string)) (bitstring : string)
  (result : list string) (buffer : string) : list string * string :=
  match bitstring with
  | EmptyString => (result, buffer)
  | String char rest =>
      let buffer := buffer +:+ String char "" in
      match dict_get reversed buffer with
      | Some sym => decode_loop reversed rest (result ++ [sym]) ""
      | None => decode_loop reversed rest result buffer
      end
  end.

(** The list [result] of [decode] when its loop ends. *)
Definition decode_symbols (bitstring : string) (codec : list (string * string))
  : list string :=
  (decode_loop (reversed_codec codec) bitstring [] "").1.

(** [decode(bitstring, codec)]: none of its statements raises. *)
Definition decode (bitstring : string) (codec : list (string * string))
  : result string :=
  Ok (join (decode_symbols bitstring codec)).

(** [sum(... for char, code in codec.items())] of [avg_code_length]. *)
Fixpoint avg_sum (counter : list (string * Z)) (char_counts : Z)
  (codec : list (string * string)) (acc : Q) : result Q :=
  match codec with
  | [] => Ok acc
  | (char, code) :: codec' =>
      p <- truediv_Q (counter_get counter char) char_counts ;;
      avg_sum counter char_counts codec'
        (acc + p * inject_Z (Z.of_nat (String.length code)))%Q
  end.

(** [avg_code_length(codec, counter)]. *)
Definition avg_code_length (codec : list (string * string))
  (counter : list (string * Z)) : result Q :=
  let char_counts := sum_Z (dict_values counter) in
  if (char_counts =? 0)%Z then Ok 0%Q
  else avg_sum counter char_counts codec 0%Q.

(** [calculate_code_length_and_redundancy], the same function as in
    Workbook1.py. *)
Definition calculate_code_length_and_redundancy
  : list (string * Z) -> R -> result (R * R) :=
  Workbook1.calculate_code_length_and_redundancy.

(** The values [main] prints under 4) and 5). *)
Record main_values : Type := mk_main_values {
  main_encoded : string;
  main_decoded : string;
  main_avg_length : Q;
  main_efficiency : R;
  main_bigrams_avg_length : Q;
  main_bigrams_efficiency : R;
  main_bigrams_encoded : string;
  main_bigrams_decoded : string
}.

(** [main()] from the [text] it has read on, under a recursion limit: the
    calls in the order of the source, without the printing. *)
Definition main (limit : nat) (text : string) : result main_values :=
  let unigrams := Counter (chars_of text) in
  let bigrams := Counter (bigrams text) in
  entropy <- calculate_entropy unigrams ;;
  _ <- calculate_code_length_and_redundancy unigrams entropy ;;
  shannon_fano <- calculate_shannon_fano limit unigrams ;;
  encoded <- encode (chars_of text) shannon_fano ;;
  decoded <- decode encoded shannon_fano ;;
  avg_length <- avg_code_length shannon_fano unigrams ;;
  efficiency <- fdiv_R entropy (Q2R avg_length) ;;
  _ <- calculate_entropy bigrams ;;
  bigrams_codec <- calculate_shannon_fano limit bigrams ;;
  bigrams_avg_length <- avg_code_length bigrams_codec bigrams ;;
  bigrams_efficiency <- fdiv_R entropy (Q2R bigrams_avg_length) ;;
  bigrams_encoded <- encode (Py.bigrams text) bigrams_codec ;;
  bigrams_decoded <- decode bigrams_encoded bigrams_codec ;;
  Ok (mk_main_values encoded decoded avg_length efficiency
        bigrams_avg_length bigrams_efficiency bigrams_encoded bigrams_decoded).

End Workbook2.

(* ================================================================== *)
(** * Workbook3.py *)
(* ================================================================== *)

Module Workbook3.

(** [class Node]: the attributes [char], [freq], [left], [right]. *)
#[warnings="-register-all"]
Inductive Node : Type :=
| mkNode (char : option string) (freq : Z) (left right : option Node).

Definition char (n : Node) : option string := let '(mkNode c _ _ _) := n in c.
Definition freq (n : Node) : Z := let '(mkNode _ f _ _) := n in f.
Definition left (n : Node) : option Node := let '(mkNode _ _ l _) := n in l.
Definition right (n : Node) : option Node := let '(mkNode _ _ _ r) := n in r.

(** [Node(char, freq)]. *)
Definition new_node (char : option string) (freq : Z) : Node :=
  mkNode char freq None None.

(** The loop of [Node.decode_text]; [current_node] may have become [None]. *)
Fixpoint decode_text_loop (tree : Node) (encoded_text : string)
  (decoded_text : list string) (current_node : option Node)
  : result (list string) :=
  match encoded_text with
  | EmptyString => Ok decoded_text
  | String bit rest =>
      match current_node with
      | None => Raise AttributeError
      | Some node =>
          let current_node :=
            if Ascii.eqb bit "1" then left node else right node in
          match current_node with
          | Some (mkNode (Some (String c s)) _ _ _) =>
              decode_text_loop tree rest
                (decoded_text ++ [String c s]) (Some tree)
          | _ => decode_text_loop tree rest decoded_text current_node
          end
      end
  end.

(** [Node.decode_text(encoded_text, tree)]. *)
Definition decode_text (encoded_text : string) (tree : Node)
  : result (list string) :=
  decode_text_loop tree encoded_text [] (Some tree).

(** The [while len(nodes) > 1] loop of [build_huffman_codes].  Every round
    shortens [nodes] by one, so [rounds = len(nodes)] rounds are enough. *)
Fixpoint merge_loop (rounds : nat) (nodes : list Node) : list Node :=
  match rounds with
  | O => nodes
  | S rounds' =>
      if (1 <? length nodes)%nat then
        match sorted_asc freq nodes with
        | left :: right :: nodes' =>
            let merged :=
              mkNode None (freq left + freq right) (Some left) (Some right) in
            merge_loop rounds' (nodes' ++ [merged])
        | nodes' => nodes' (* not reached: the list holds two nodes or more *)
        end
      else nodes
  end.

(** The inner [generate_codes(node, code)], threading [huffman_codes]. *)
Fixpoint generate_codes (node : Node) (code : string)
  (huffman_codes : list (string * string)) : list (string * string) :=
  match node with
  | mkNode char _ left right =>
      let huffman_codes :=
        match char with
        | Some c =>
            dict_set huffman_codes c
              (if decide (code = "") then "0" else code)
        | None => huffman_codes
        end in
      let huffman_codes :=
        match right with
        | Some r => generate_codes r (code +:+ "0") huffman_codes
        | None => huffman_codes
        end in
      match left with
      | Some l => generate_codes l (code +:+ "1") huffman_codes
      | None => huffman_codes
      end
  end.

(** [Node.build_huffman_codes(chars, counter)]. *)
Definition build_huffman_codes (chars : list string)
  (counter : list (string * Z))
  : result (list (string * string) * string * Node) :=
  let nodes := (fun '(char, freq) => new_node (Some char) freq) <$> counter in
  let nodes := merge_loop (length nodes) nodes in
  match nodes with
  | [] => Raise IndexError
  | root :: _ =>
      let huffman_codes := generate_codes root "" [] in
      encoded <- lookup_join huffman_codes chars ;;
      Ok (huffman_codes, encoded, root)
  end.

(** The loop of [calculate_avg_length]. *)
Fixpoint avg_loop (counter : list (string * Z)) (total_length : Z)
  (codec : list (string * string)) (avg_length : Q) : result Q :=
  match codec with
  | [] => Ok avg_length
  | (char, code) :: codec' =>
      probability <- truediv_Q (counter_get counter char) total_length ;;
      avg_loop counter total_length codec'
        (avg_length + probability * inject_Z (Z.of_nat (String.length code)))%Q
  end.

(** [calculate_avg_length(text, codec, counter)]. *)
Definition calculate_avg_length (text : string)
  (codec : list (string * string)) (counter : list (string * Z)) : result Q :=
  avg_loop counter (Z.of_nat (String.length text)) codec 0%Q.

(** [join_bigrams(bigrams)]. *)
Fixpoint join_bigrams_tail (bigrams : list string) : result (list string) :=
  match bigrams with
  | [] => Ok []
  | bigram :: bigrams' =>
      c <- last_char bigram ;;
      rest <- join_bigrams_tail bigrams' ;;
      Ok (c :: rest)
  end.

Definition join_bigrams (bigrams : list string) : result string :=
  match bigrams with
  | [] => Ok ""
  | first :: bigrams' =>
      rest <- join_bigrams_tail bigrams' ;;
      Ok (join (first :: rest))
  end.

(** [calculate_entropy] and [calculate_code_length_and_redundancy], the
    same functions as in Workbook1.py. *)
Definition calculate_entropy : list (string * Z) -> result R :=
  Workbook1.calculate_entropy.

Definition calculate_code_length_and_redundancy
  : list (string * Z) -> R -> result (R * R) :=
  Workbook1.calculate_code_length_and_redundancy.

(** [sum(freq * len(bigrams_codes[bg]) for bg, freq in
    bigrams_counter.items())] of [main]. *)
Fixpoint code_bits (codes : list (string * string)) (items : list (string * Z))
  (acc : Z) : result Z :=
  match items with
  | [] => Ok acc
  | (bg, freq) :: items' =>
      match dict_get codes bg with
      | None => Raise (KeyError bg)
      | Some code =>
          code_bits codes items' (acc + freq * Z.of_nat (String.length code))%Z
      end
  end.

(** The values [main] prints under 3) and 4). *)
Record main_values : Type := mk_main_values {
  main_encoded : string;
  main_decoded : string;
  main_avg_length : Q;
  main_efficiency : R;
  main_bigrams_encoded : string;
  main_bigrams_decoded : string;
  main_bigrams_avg_length : Q;
  main_bigrams_efficiency : R
}.

(** [main()] from the [text] it has read on: the calls in the order of the
    source, without the printing. *)
Definition main (text : string) : result main_values :=
  let counter := Counter (chars_of text) in
  entropy <- calculate_entropy counter ;;
  _ <- calculate_code_length_and_redundancy counter entropy ;;
  built <- build_huffman_codes (chars_of text) counter ;;
  let '(codes, encoded, tree) := built in
  symbols <- decode_text encoded tree ;;
  let decoded := join symbols in
  avg_length <- calculate_avg_length text codes counter ;;
  efficiency <- fdiv_R entropy (Q2R avg_length) ;;
  let bigrams := bigrams text in
  let bigrams_counter := Counter bigrams in
  bigrams_built <- build_huffman_codes bigrams bigrams_counter ;;
  let '(bigrams_codes, bigrams_encoded, bigrams_tree) := bigrams_built in
  bigrams_symbols <- decode_text bigrams_encoded bigrams_tree ;;
  bigrams_decoded <- join_bigrams bigrams_symbols ;;
  bigrams_avg_length <- calculate_avg_length text bigrams_codes bigrams_counter ;;
  bigrams_entropy <- calculate_entropy bigrams_counter ;;
  bits <- code_bits bigrams_codes bigrams_counter 0 ;;
  per_bigram <- truediv_Q bits (sum_Z (dict_values bigrams_counter)) ;;
  bigrams_efficiency <- fdiv_R bigrams_entropy (Q2R per_bigram) ;;
  Ok (mk_main_values encoded decoded avg_length efficiency
        bigrams_encoded bigrams_decoded bigrams_avg_length bigrams_efficiency).

End Workbook3.

(* ================================================================== *)
(** * Vocabulary of the specification *)
(* ================================================================== *)

(** [p] is a prefix of [s] (possibly [s] itself). *)
Definition is_prefix (p s : string) : Prop := exists k, s = p +:+ k.

(** The invariants of a Codec: a dictionary (distinct keys) that is
    injective, has no empty codeword, and in which no codeword is a proper
    prefix of another. *)
Record Codec (codec : list (string * string)) : Prop := {
  codec_keys : NoDup (dict_keys codec);
  codec_injective : forall s1 s2 c,
    dict_get codec s1 = Some c -> dict_get codec s2 = Some c -> s1 = s2;
  codec_nonempty : forall s c, dict_get codec s = Some c -> c <> "";
  codec_prefix_free : forall s1 s2 c1 c2,
    dict_get codec s1 = Some c1 -> dict_get codec s2 = Some c2 ->
    is_prefix c1 c2 -> c1 = c2
}.

(** Every symbol of a sequence has a codeword. *)
Definition covered (text : list string) (codec : list (string * string)) : Prop :=
  Forall (fun char => is_Some (dict_get codec char)) text.

(** The codeword of a symbol, for a symbol that has one. *)
Definition codeword (codec : list (string * string)) (char : string) : string :=
  default "" (dict_get codec char).


(** The trees [build_huffman_codes] builds: a leaf carries a symbol and no
    child, a merged node carries no symbol and both children. *)
Inductive huff_tree : Workbook3.Node -> Prop :=
| huff_leaf c f : huff_tree (Workbook3.mkNode (Some c) f None None)
| huff_merged f l r :
    huff_tree l -> huff_tree r ->
    huff_tree (Workbook3.mkNode None f (Some l) (Some r)).

(** The symbols of a tree, in the order [generate_codes] meets them. *)
Fixpoint leaves (node : Workbook3.Node) : list string :=
  match node with
  | Workbook3.mkNode char _ l r =>
      option_list char
      ++ match r with Some r => leaves r | None => [] end
      ++ match l with Some l => leaves l | None => [] end
  end.

(** The entries [generate_codes(node, code)] writes, in that order. *)
Fixpoint codes_of (node : Workbook3.Node) (code : string)
  : list (string * string) :=
  match node with
  | Workbook3.mkNode char _ l r =>
      match char with
      | Some c => [(c, if decide (code = "") then "0" else code)]
      | None => []
      end
      ++ match r with Some r => codes_of r (code +:+ "0") | None => [] end
      ++ match l with Some l => codes_of l (code +:+ "1") | None => [] end
  end.

(** [x] may stand before [y] in a list sorted by descending key. *)
Definition desc {A} (key : A -> Z) : relation A := fun x y => (key y <= key x)%Z.

(** [codes'] is [codes] with [sfx k] appended to the code of every key [k]
    of [ks], all else untouched. *)
Definition appended (ks : list string) (sfx : string -> string)
  (codes codes' : list (string * string)) : Prop :=
  dict_keys codes' = dict_keys codes /\
  forall k, dict_get codes' k =
    if decide (k ∈ ks) then (fun c => c +:+ sfx k) <$> dict_get codes k
    else dict_get codes k.

(** The strings [sfx k], [k ∈ ks], are pairwise prefix-incomparable, and
    non-empty as soon as there are two keys. *)
Definition suffix_code (ks : list string) (sfx : string -> string) : Prop :=
  ((2 <= length ks)%nat -> forall k, k ∈ ks -> sfx k <> "") /\
  (forall k1 k2, k1 ∈ ks -> k2 ∈ ks -> is_prefix (sfx k1) (sfx k2) -> k1 = k2).

(** A boolean check of the Codec invariants, to run on a given table. *)
Definition codec_ok (codec : list (string * string)) : bool :=
  bool_decide (NoDup (dict_keys codec))
  && forallb (fun '(s1, c1) =>
       negb (String.eqb c1 "")
       && forallb (fun '(s2, c2) =>
            implb (String.prefix c1 c2) (String.eqb s1 s2)) codec) codec.

(** Inputs the statements below are tried on. *)
Definition abc_codec : list (string * string) :=
  [("a", "0"); ("b", "10"); ("c", "11")].

Definition ab_codec : list (string * string) := [("a", "0"); ("b", "10")].

Definition abc_counter : list (string * Z) := [("a", 2%Z); ("b", 1%Z); ("c", 1%Z)].

(** [Counter({'a': 2**53 + 3, 'b': 2**53 + 3})]: half its total is no float. *)
Definition big_counter : list (string * Z) :=
  [("a", 2 ^ 53 + 3)%Z; ("b", 2 ^ 53 + 3)%Z].

(** A text of 45 distinct symbols. *)
Definition text45 : string := "abcdefghijklmnopqrstuvwxyzABCDEFGHIJKLMNOPQRS".

(** The table and the tree of [abc_counter]. *)
Definition abc_tree : Workbook3.Node :=
  Workbook3.mkNode None 4
    (Some (Workbook3.mkNode (Some "a") 2 None None))
    (Some (Workbook3.mkNode None 2
       (Some (Workbook3.mkNode (Some "b") 1 None None))
       (Some (Workbook3.mkNode (Some "c") 1 None None)))).

Definition abc_huffman : list (string * string) :=
  [("c", "00"); ("b", "01"); ("a", "1")].

(** [Σ f x] over a list of terms, in exact rationals. *)
Definition sumQ {A} (f : A -> Q) (l : list A) : Q :=
  foldr (fun x acc => f x + acc)%Q 0%Q l.

(** [len(code)] as a number. *)
Definition code_len (code : string) : Q := inject_Z (Z.of_nat (String.length code)).

(** [Σ (count[s] / total) · len(code[s])] over the symbols [s] of the count
    that have a codeword. *)
Definition weighted_length (total : Z) (codec : list (string * string))
  (counter : list (string * Z)) : Q :=
  sumQ (fun '(s, count) =>
          match dict_get codec s with
          | Some code => (inject_Z count / inject_Z total) * code_len code
          | None => 0
          end)%Q counter.

(** The specification's averageCodeLength: [total] is the sum of all counts. *)
Definition average_code_length_spec (codec : list (string * string))
  (counter : list (string * Z)) : Q :=
  weighted_length (sum_Z (dict_values counter)) codec counter.

(** The distinct elements of a sequence, in the order they first appear. *)
Fixpoint first_seen (items : list string) : list string :=
  match items with
  | [] => []
  | x :: items' => x :: filter (fun y => y <> x) (first_seen items')
  end.

(** How often [s] occurs in a sequence. *)
Definition occurrences (s : string) (items : list string) : Z :=
  Z.of_nat (length (filter (fun x => x = s) items)).

(** The specification's removeCount, for a number of distinct symbols:
    the formula on the numbers themselves, their product not rounded to a
    float. *)
Definition remove_count (frac : Q) (distinct : nat) : nat :=
  Z.to_nat (Z.max 1 (round (frac * inject_Z (Z.of_nat distinct)))).

(** A bitstring is no concatenation of codewords of a small table: try
    every table entry as the first codeword. *)
Ltac no_parse :=
  let text := fresh "text" in
  let H := fresh "H" in
  intros [text H]; destruct text as [|? text]; [discriminate|];
  simpl in H; repeat case_decide; try discriminate;
  destruct (lookup_join _ text); simpl in H; try discriminate;
  injection H as H; cbv in H; discriminate.

(** [2 ^ (- n)]. *)
Fixpoint half_pow (n : nat) : Q :=
  match n with
  | O => 1
  | S n' => (1 # 2) * half_pow n'
  end.

(** The Kraft sum of a table: [Σ 2 ^ (- len(code[s]))]. *)
Definition kraft_sum (codec : list (string * string)) : Q :=
  sumQ (fun '(_, code) => half_pow (String.length code)) codec.

(** The leaves of a tree with the weights they carry, in the order of
    [leaves]. *)
Fixpoint leaf_items (node : Workbook3.Node) : list (string * Z) :=
  match node with
  | Workbook3.mkNode char f l r =>
      match char with Some c => [(c, f)] | None => [] end
      ++ match r with Some r => leaf_items r | None => [] end
      ++ match l with Some l => leaf_items l | None => [] end
  end.

(** A Huffman tree in which every merged node weighs what its two
    children weigh together. *)
Inductive huff_weighted : Workbook3.Node -> Prop :=
| huff_weighted_leaf c f : huff_weighted (Workbook3.mkNode (Some c) f None None)
| huff_weighted_merged l r :
    huff_weighted l -> huff_weighted r ->
    huff_weighted
      (Workbook3.mkNode None (Workbook3.freq l + Workbook3.freq r) (Some l) (Some r)).

(** [Σ f(x)] over a list, in the reals. *)
Definition sumR {A} (f : A -> R) (l : list A) : R :=
  foldr (fun x acc => f x + acc)%R 0%R l.
(* ================================================================== *)
(** * Dictionaries *)
(* ================================================================== *)

Section DictFacts.
Context {K V : Type} `{EqDecision K}.
Implicit Types (d : list (K * V)) (k : K) (v : V).

Lemma dict_get_elem_of d k v : dict_get d k = Some v -> (k, v) ∈ d.
Proof.
  induction d as [|[k' v'] d IH]; simpl; [done|].
  case_decide; intros Hg.
  - simplify_eq. by left.
  - right. auto.
Qed.

Lemma dict_get_None d k : dict_get d k = None <-> k ∉ dict_keys d.
Proof.
  unfold dict_keys. induction d as [|[k' v'] d IH]; simpl.
  - split; [intros _; apply not_elem_of_nil|done].
  - rewrite not_elem_of_cons. destruct (decide (k' = k)) as [->|Hne].
    + split; [done|]. by intros [? _].
    + rewrite IH. split; [by split|by intros [_ ?]].
Qed.

Lemma dict_get_is_Some d k : is_Some (dict_get d k) <-> k ∈ dict_keys d.
Proof.
  rewrite <- not_eq_None_Some, dict_get_None.
  destruct (decide (k ∈ dict_keys d)); naive_solver.
Qed.

Lemma dict_get_of_elem d k v :
  NoDup (dict_keys d) -> (k, v) ∈ d -> dict_get d k = Some v.
Proof.
  unfold dict_keys. induction d as [|[k' v'] d IH]; simpl.
  - intros _ Hin. by apply elem_of_nil in Hin.
  - rewrite NoDup_cons. intros [Hk Hnd] Hin.
    apply elem_of_cons in Hin as [Heq|Hin].
    + simplify_eq. by rewrite decide_True.
    + rewrite decide_False; [auto|].
      intros ->. apply Hk. apply list_elem_of_fmap. by exists (k, v).
Qed.

Lemma dict_get_set_eq d k v : dict_get (dict_set d k v) k = Some v.
Proof.
  induction d as [|[k' v'] d IH]; simpl.
  - by rewrite decide_True.
  - case_decide; simpl.
    + by rewrite decide_True.
    + by rewrite decide_False.
Qed.

Lemma dict_get_set_ne d k k' v :
  k <> k' -> dict_get (dict_set d k v) k' = dict_get d k'.
Proof.
  intros Hne. induction d as [|[k0 v0] d IH]; simpl.
  - by rewrite decide_False.
  - destruct (decide (k0 = k)) as [->|]; simpl.
    + by rewrite !decide_False.
    + by rewrite IH.
Qed.

Lemma dict_set_absent d k v :
  k ∉ dict_keys d -> dict_set d k v = d ++ [(k, v)].
Proof.
  unfold dict_keys. induction d as [|[k0 v0] d IH]; simpl; [done|].
  rewrite not_elem_of_cons. intros [Hne Hnin].
  rewrite decide_False by done. by rewrite IH.
Qed.

Lemma dict_set_keys_present d k v :
  k ∈ dict_keys d -> dict_keys (dict_set d k v) = dict_keys d.
Proof.
  unfold dict_keys. induction d as [|[k0 v0] d IH]; simpl.
  - intros Hin. by apply elem_of_nil in Hin.
  - intros Hin. destruct (decide (k0 = k)) as [->|Hne]; simpl; [done|].
    apply elem_of_cons in Hin as [->|Hin]; [done|]. f_equal. auto.
Qed.

Lemma dict_set_keys_NoDup d k v :
  NoDup (dict_keys d) -> NoDup (dict_keys (dict_set d k v)).
Proof.
  intros Hnd. destruct (decide (k ∈ dict_keys d)) as [Hin|Hnin].
  - by rewrite dict_set_keys_present.
  - rewrite dict_set_absent by done. unfold dict_keys in *.
    rewrite fmap_app. simpl. apply NoDup_app. split_and!; [done| |apply NoDup_singleton].
    intros x Hx Hx'. apply list_elem_of_singleton in Hx'. by subst.
Qed.

End DictFacts.

(* ================================================================== *)
(** * Strings *)
(* ================================================================== *)

Lemma str_app_cons (a : ascii) (s t : string) :
  String a s +:+ t = String a (s +:+ t).
Proof. reflexivity. Qed.

Lemma str_app_nil_r (s : string) : s +:+ "" = s.
Proof. induction s as [|a s IH]; [done|]. by rewrite str_app_cons, IH. Qed.

Lemma str_app_assoc (a b c : string) : (a +:+ b) +:+ c = a +:+ (b +:+ c).
Proof. induction a as [|x a IH]; [done|]. by rewrite !str_app_cons, IH. Qed.

Lemma is_prefix_refl (s : string) : is_prefix s s.
Proof. exists ""%string. by rewrite str_app_nil_r. Qed.

Lemma is_prefix_app_inv (p a b : string) :
  is_prefix (p +:+ a) (p +:+ b) -> is_prefix a b.
Proof.
  intros [k Hk]. exists k. rewrite str_app_assoc in Hk.
  by apply (inj (String.app p)) in Hk.
Qed.

Lemma is_prefix_trans (a b c : string) : is_prefix a b -> is_prefix b c -> is_prefix a c.
Proof. intros [k ->] [k' ->]. exists (k +:+ k'). by rewrite str_app_assoc. Qed.

Lemma join_cons (s : string) (l : list string) : join (s :: l) = s +:+ join l.
Proof.
  unfold join. destruct l as [|s' l]; simpl; [by rewrite str_app_nil_r|done].
Qed.

Lemma join_chars_of (text : string) : join (chars_of text) = text.
Proof.
  induction text as [|c text IH]; [done|].
  simpl chars_of. by rewrite join_cons, IH.
Qed.

(* ================================================================== *)
(** * Facts about [encode] and [decode] *)
(* ================================================================== *)

Section CodecFacts.
Import Workbook2.
Implicit Types (codec : list (string * string)) (text : list string).

Lemma lookup_join_covered codec text :
  covered text codec ->
  lookup_join codec text = Ok (join (codeword codec <$> text)).
Proof.
  unfold covered. induction 1 as [|char text [code Hc] _ IH]; [done|].
  simpl. rewrite Hc, IH. simpl. rewrite join_cons. unfold codeword. by rewrite Hc.
Qed.

(** The set [missing] that [encode] computes. *)
Lemma elem_of_missing codec text (char : string) :
  char ∈ (filter (fun char => dict_get codec char = None)
            (list_to_set text : gset string))
  <-> char ∈ text /\ dict_get codec char = None.
Proof. rewrite elem_of_filter, elem_of_list_to_set. tauto. Qed.

Lemma missing_empty_iff codec text :
  filter (fun char => dict_get codec char = None) (list_to_set text : gset string) = ∅
  <-> covered text codec.
Proof.
  unfold covered. rewrite Forall_forall. split.
  - intros Hempty char Hin.
    destruct (dict_get codec char) as [code|] eqn:Hc; [by eexists|].
    exfalso. eapply (not_elem_of_empty (C := gset string) char).
    rewrite <- Hempty. by apply elem_of_missing.
  - intros Hcov. apply set_eq. intros char. rewrite elem_of_missing.
    split; [|by intros ?%not_elem_of_empty].
    intros [Hin Hnone]. destruct (Hcov _ Hin) as [code Hc]. congruence.
Qed.

Lemma encode_covered codec text :
  covered text codec -> encode text codec = lookup_join codec text.
Proof.
  intros Hcov. unfold encode. apply missing_empty_iff in Hcov.
  by rewrite decide_True.
Qed.

Lemma encode_not_covered codec text :
  ~ covered text codec ->
  encode text codec =
    Raise (ValueError_missing
      (filter (fun char => dict_get codec char = None) (list_to_set text))).
Proof.
  intros Hcov. unfold encode. rewrite decide_False; [done|].
  by rewrite missing_empty_iff.
Qed.

(** ** The inverse table *)

Lemma reversed_fold_elem codec (d0 : list (string * string)) code s :
  dict_get (fold_left (fun d '(char, code) => dict_set d code char) codec d0) code
    = Some s ->
  (s, code) ∈ codec \/ dict_get d0 code = Some s.
Proof.
  revert d0. induction codec as [|[char0 code0] codec IH]; intros d0; simpl.
  - by right.
  - intros Hg. apply IH in Hg as [Hin|Hg].
    + left. by right.
    + destruct (decide (code0 = code)) as [->|Hne].
      * rewrite dict_get_set_eq in Hg. simplify_eq. left. by left.
      * rewrite dict_get_set_ne in Hg by done. by right.
Qed.

Lemma reversed_fold_is_Some codec (d0 : list (string * string)) code :
  (exists s, (s, code) ∈ codec) \/ is_Some (dict_get d0 code) ->
  is_Some (dict_get
    (fold_left (fun d '(char, code) => dict_set d code char) codec d0) code).
Proof.
  revert d0. induction codec as [|[char0 code0] codec IH]; intros d0; simpl.
  - intros [[s Hin]|Hs]; [by apply elem_of_nil in Hin|done].
  - intros [[s Hin]|Hs]; apply IH.
    + apply elem_of_cons in Hin as [Heq|Hin].
      * simplify_eq. right. rewrite dict_get_set_eq. by eexists.
      * left. by exists s.
    + right. destruct (decide (code0 = code)) as [->|Hne].
      * rewrite dict_get_set_eq. by eexists.
      * by rewrite dict_get_set_ne.
Qed.

Lemma reversed_codec_Some codec code s :
  dict_get (reversed_codec codec) code = Some s -> (s, code) ∈ codec.
Proof.
  intros Hg. apply reversed_fold_elem in Hg as [Hin|Hg]; [done|]. by simpl in Hg.
Qed.

Lemma reversed_codec_lookup codec code s :
  Codec codec ->
  dict_get (reversed_codec codec) code = Some s <-> dict_get codec s = Some code.
Proof.
  intros Hc. split.
  - intros Hg. apply dict_get_of_elem; [apply Hc|]. by apply reversed_codec_Some.
  - intros Hg.
    destruct (reversed_fold_is_Some codec [] code) as [s' Hs'].
    { left. exists s. by apply dict_get_elem_of. }
    fold (reversed_codec codec) in Hs'. rewrite Hs'. f_equal.
    apply reversed_codec_Some, (dict_get_of_elem _ _ _ (codec_keys _ Hc)) in Hs'.
    eapply codec_injective; eauto.
Qed.

(** ** The decoding loop *)

Lemma decode_loop_app (rc : list (string * string)) (b1 b2 : string) res buf :
  decode_loop rc (b1 +:+ b2) res buf =
    decode_loop rc b2 (decode_loop rc b1 res buf).1 (decode_loop rc b1 res buf).2.
Proof.
  revert res buf. induction b1 as [|a b1 IH]; intros res buf; [done|].
  rewrite str_app_cons. simpl. destruct (dict_get rc (buf +:+ String a "")); apply IH.
Qed.

(** A tail none of whose extensions of the buffer is in the table is only
    accumulated. *)
Lemma decode_loop_unmatched (rc : list (string * string)) (tail : string) res buf :
  (forall p, p <> "" -> is_prefix p tail -> dict_get rc (buf +:+ p) = None) ->
  decode_loop rc tail res buf = (res, buf +:+ tail).
Proof.
  revert buf. induction tail as [|a tail IH]; intros buf Hnone.
  - by rewrite str_app_nil_r.
  - simpl. rewrite (Hnone (String a "")); [|done|by exists tail].
    rewrite IH.
    + by rewrite str_app_assoc.
    + intros p Hp [k ->]. rewrite str_app_assoc. apply Hnone; [done|].
      by exists k.
Qed.

(** Reading the rest [c2] of a codeword [c1 +:+ c2] emits its symbol. *)
Lemma decode_loop_codeword_rest codec s c :
  Codec codec -> dict_get codec s = Some c ->
  forall c2 c1 rest res,
    c1 +:+ c2 = c -> c2 <> "" ->
    decode_loop (reversed_codec codec) (c2 +:+ rest) res c1 =
      decode_loop (reversed_codec codec) rest (res ++ [s]) "".
Proof.
  intros Hcodec Hs. induction c2 as [|a c2 IH]; intros c1 rest res Hc Hne; [done|].
  rewrite str_app_cons. simpl. destruct (decide (c2 = "")) as [->|Hc2].
  - assert (c1 +:+ String a "" = c) as -> by done.
    apply (reversed_codec_lookup _ _ _ Hcodec) in Hs. by rewrite Hs.
  - destruct (dict_get (reversed_codec codec) (c1 +:+ String a "")) as [s'|] eqn:Hb.
    + exfalso. apply (reversed_codec_lookup _ _ _ Hcodec) in Hb.
      assert (c1 +:+ String a "" = c) as Heq.
      { eapply (codec_prefix_free _ Hcodec); [exact Hb|exact Hs|].
        exists c2. rewrite <- Hc. by rewrite str_app_assoc. }
      rewrite <- Hc in Heq. apply (inj (String.app c1)) in Heq. by simplify_eq.
    + apply IH; [|done]. rewrite <- Hc. by rewrite str_app_assoc.
Qed.

Lemma decode_loop_codeword codec s c rest res :
  Codec codec -> dict_get codec s = Some c ->
  decode_loop (reversed_codec codec) (c +:+ rest) res "" =
    decode_loop (reversed_codec codec) rest (res ++ [s]) "".
Proof.
  intros Hcodec Hs. eapply decode_loop_codeword_rest; eauto.
  by eapply codec_nonempty.
Qed.

Lemma decode_loop_lookup_join codec text bits res :
  Codec codec -> lookup_join codec text = Ok bits ->
  decode_loop (reversed_codec codec) bits res "" = (res ++ text, ""%string).
Proof.
  intros Hcodec. revert bits res.
  induction text as [|char text IH]; intros bits res; simpl.
  - intros [= <-]. by rewrite app_nil_r.
  - destruct (dict_get codec char) as [code|] eqn:Hc; [|done].
    destruct (lookup_join codec text) as [s|] eqn:Hj; [|done].
    simpl. intros [= <-].
    rewrite (decode_loop_codeword _ _ _ _ _ Hcodec Hc), (IH _ _ eq_refl).
    by rewrite <- app_assoc.
Qed.

Lemma decode_symbols_lookup_join codec text bits :
  Codec codec -> lookup_join codec text = Ok bits ->
  decode_symbols bits codec = text.
Proof.
  intros Hcodec Hj. unfold decode_symbols.
  by rewrite (decode_loop_lookup_join _ _ _ [] Hcodec Hj).
Qed.

(** ** Checking the Codec invariants by computation *)

Lemma is_prefix_String_prefix (p s : string) :
  is_prefix p s -> String.prefix p s = true.
Proof.
  intros [k ->]. induction p as [|a p IH]; [by destruct k|].
  rewrite str_app_cons. simpl. by destruct (ascii_dec a a).
Qed.

Lemma codec_ok_Codec (codec : list (string * string)) :
  codec_ok codec = true -> Codec codec.
Proof.
  unfold codec_ok. rewrite andb_true_iff, forallb_forall.
  intros [Hnd%bool_decide_eq_true Hall].
  assert (forall s1 c1 s2 c2, dict_get codec s1 = Some c1 ->
    dict_get codec s2 = Some c2 -> is_prefix c1 c2 -> s1 = s2) as Hpre.
  { intros s1 c1 s2 c2 H1%dict_get_elem_of H2%dict_get_elem_of Hp.
    apply list_elem_of_In, Hall in H1. apply andb_true_iff in H1 as [_ H1].
    rewrite forallb_forall in H1. apply list_elem_of_In, H1 in H2.
    rewrite (is_prefix_String_prefix _ _ Hp) in H2. by apply String.eqb_eq. }
  split; [done|..].
  - intros s1 s2 c H1 H2. eapply Hpre; eauto using is_prefix_refl.
  - intros s c Hs%dict_get_elem_of ->.
    by apply list_elem_of_In, Hall in Hs.
  - intros s1 s2 c1 c2 H1 H2 Hp. assert (s1 = s2) as -> by eauto. congruence.
Qed.

End CodecFacts.

(* ================================================================== *)
(** * Sorting *)
(* ================================================================== *)

Section SortFacts.
Context {A : Type} (key : A -> Z).

Lemma insert_asc_perm x (l : list A) : insert_asc key x l ≡ₚ x :: l.
Proof.
  induction l as [|y l IH]; simpl; [done|].
  destruct (key y <? key x)%Z; [|done]. rewrite IH. apply Permutation_swap.
Qed.

Lemma sorted_asc_perm (l : list A) : sorted_asc key l ≡ₚ l.
Proof.
  induction l as [|x l IH]; simpl; [done|].
  rewrite insert_asc_perm. by rewrite IH.
Qed.

Lemma insert_desc_perm x (l : list A) : insert_desc key x l ≡ₚ x :: l.
Proof.
  induction l as [|y l IH]; simpl; [done|].
  destruct (key x <? key y)%Z; [|done]. rewrite IH. apply Permutation_swap.
Qed.

Lemma sorted_desc_perm (l : list A) : sorted_desc key l ≡ₚ l.
Proof.
  induction l as [|x l IH]; simpl; [done|].
  rewrite insert_desc_perm. by rewrite IH.
Qed.

End SortFacts.

(* ================================================================== *)
(** * Huffman trees *)
(* ================================================================== *)

Section HuffmanFacts.
Import Workbook3.

Lemma codes_of_keys t code : huff_tree t -> (codes_of t code).*1 = leaves t.
Proof.
  intros Ht. revert code. induction Ht as [c f|f l r Hl IHl Hr IHr]; intros code.
  - done.
  - simpl. by rewrite fmap_app, IHl, IHr.
Qed.

Lemma generate_codes_app t code (acc : list (string * string)) :
  huff_tree t -> NoDup (dict_keys acc ++ leaves t) ->
  generate_codes t code acc = acc ++ codes_of t code.
Proof.
  intros Ht. revert code acc.
  induction Ht as [c f|f l r Hl IHl Hr IHr]; intros code acc Hnd.
  - simpl in *. apply dict_set_absent.
    apply NoDup_app in Hnd as (_ & Hdisj & _).
    intros Hin. apply (Hdisj _ Hin). by left.
  - simpl in *. rewrite IHr, IHl.
    + by rewrite <- app_assoc.
    + unfold dict_keys. rewrite fmap_app, codes_of_keys by done.
      by rewrite <- app_assoc.
    + rewrite app_assoc in Hnd. by apply NoDup_app in Hnd as (? & _ & _).
Qed.

Lemma codes_of_prefix t code s c :
  huff_tree t -> (s, c) ∈ codes_of t code -> is_prefix code c.
Proof.
  intros Ht. revert code. induction Ht as [c' f|f l r Hl IHl Hr IHr]; intros code Hin.
  - simpl in Hin. apply list_elem_of_singleton in Hin. simplify_eq.
    case_decide; [subst; by exists "0"%string|apply is_prefix_refl].
  - simpl in Hin. apply elem_of_app in Hin as [Hin|Hin].
    + apply IHr in Hin. eapply is_prefix_trans; [|exact Hin]. by eexists.
    + apply IHl in Hin. eapply is_prefix_trans; [|exact Hin]. by eexists.
Qed.

Lemma codes_of_nonempty t code s c :
  huff_tree t -> (s, c) ∈ codes_of t code -> c <> "".
Proof.
  intros Ht. revert code. induction Ht as [c' f|f l r Hl IHl Hr IHr]; intros code Hin.
  - simpl in Hin. apply list_elem_of_singleton in Hin. simplify_eq.
    by case_decide.
  - simpl in Hin. apply elem_of_app in Hin as [Hin|Hin]; eauto.
Qed.

Lemma branches_diverge (code k0 k1 : string) :
  (code +:+ "0") +:+ k0 <> (code +:+ "1") +:+ k1.
Proof.
  rewrite !str_app_assoc. intros Heq. apply (inj (String.app code)) in Heq.
  by rewrite !str_app_cons in Heq.
Qed.

Lemma codes_of_prefix_free t code s1 c1 s2 c2 :
  huff_tree t -> NoDup (leaves t) ->
  (s1, c1) ∈ codes_of t code -> (s2, c2) ∈ codes_of t code ->
  is_prefix c1 c2 -> s1 = s2.
Proof.
  intros Ht. revert code.
  induction Ht as [c' f|f l r Hl IHl Hr IHr]; intros code Hnd H1 H2 Hp.
  - simpl in *. apply list_elem_of_singleton in H1, H2. by simplify_eq.
  - simpl in *. apply NoDup_app in Hnd as (Hndr & _ & Hndl).
    apply elem_of_app in H1 as [H1|H1]; apply elem_of_app in H2 as [H2|H2].
    + eauto.
    + exfalso. apply codes_of_prefix in H1 as [k1 ->]; [|done].
      apply codes_of_prefix in H2 as [k2 ->]; [|done].
      destruct Hp as [k Hk]. rewrite (str_app_assoc _ k1 k) in Hk.
      symmetry in Hk. by apply branches_diverge in Hk.
    + exfalso. apply codes_of_prefix in H1 as [k1 ->]; [|done].
      apply codes_of_prefix in H2 as [k2 ->]; [|done].
      destruct Hp as [k Hk]. rewrite (str_app_assoc _ k1 k) in Hk.
      by apply branches_diverge in Hk.
    + eauto.
Qed.

(** The table read off a Huffman tree with distinct symbols is a Codec. *)
Lemma codes_of_Codec t :
  huff_tree t -> NoDup (leaves t) -> Codec (codes_of t "").
Proof.
  intros Ht Hnd.
  assert (NoDup (dict_keys (codes_of t ""))) as Hkeys.
  { unfold dict_keys. by rewrite codes_of_keys. }
  split; [done|..].
  - intros s1 s2 c H1%dict_get_elem_of H2%dict_get_elem_of.
    eapply codes_of_prefix_free; eauto. apply is_prefix_refl.
  - intros s c Hs%dict_get_elem_of. by eapply codes_of_nonempty.
  - intros s1 s2 c1 c2 H1 H2 Hp.
    assert (s1 = s2) as ->; [|congruence].
    apply dict_get_elem_of in H1, H2. eapply codes_of_prefix_free; eauto.
Qed.

(** ** The merge loop *)

Lemma merge_loop_spec rounds (nodes : list Node) :
  Forall huff_tree nodes -> (length nodes <= rounds)%nat -> nodes <> [] ->
  exists root,
    merge_loop rounds nodes = [root] /\ huff_tree root /\
    leaves root ≡ₚ concat (leaves <$> nodes) /\
    (forall n, nodes = [n] -> root = n) /\
    ((2 <= length nodes)%nat -> char root = None).
Proof.
  revert nodes. induction rounds as [|rounds IH]; intros nodes Hall Hlen Hne.
  { destruct nodes; [done|simpl in Hlen; lia]. }
  simpl. destruct (1 <? length nodes)%nat eqn:Hlt.
  - apply Nat.ltb_lt in Hlt.
    pose proof (sorted_asc_perm freq nodes) as Hperm.
    destruct (sorted_asc freq nodes) as [|l [|r rest]] eqn:Hsorted.
    { apply Permutation_length in Hperm. simpl in Hperm. lia. }
    { apply Permutation_length in Hperm. simpl in Hperm. lia. }
    assert (Forall huff_tree (l :: r :: rest)) as Hall'.
    { by rewrite Hperm. }
    apply Forall_cons in Hall' as [Hl Hall']. apply Forall_cons in Hall' as [Hr Hrest].
    set (merged := mkNode None (freq l + freq r) (Some l) (Some r)).
    destruct (IH (rest ++ [merged])) as (root & Hroot & Htree & Hleaves & Hone & Htwo).
    { apply Forall_app. split; [done|]. apply Forall_singleton. by constructor. }
    { apply Permutation_length in Hperm. rewrite length_app. simpl in *. lia. }
    { by destruct rest. }
    exists root. split_and!; [done|done| | |].
    + rewrite Hleaves, <- Hperm, fmap_app, concat_app. simpl.
      rewrite app_nil_r. rewrite (Permutation_app_comm (leaves r)).
      rewrite (Permutation_app_comm _ (leaves l ++ leaves r)).
      by rewrite <- app_assoc.
    + intros n ->. simpl in Hlt. lia.
    + intros _. destruct rest as [|n rest].
      * by rewrite (Hone merged eq_refl).
      * apply Htwo. rewrite length_app. simpl. lia.
  - apply Nat.ltb_ge in Hlt. destruct nodes as [|n [|n' nodes]]; [done| |simpl in Hlt; lia].
    exists n. rewrite Forall_singleton in Hall. split_and!; [done|done| | |].
    + simpl. by rewrite app_nil_r.
    + by intros ? [= <-].
    + simpl. lia.
Qed.

(** Spare rounds change nothing: the loop has stopped by itself. *)
Lemma merge_loop_spare rounds (nodes : list Node) :
  (length nodes <= rounds)%nat ->
  merge_loop (S rounds) nodes = merge_loop rounds nodes.
Proof.
  revert nodes. induction rounds as [|rounds IH]; intros nodes Hlen.
  { destruct nodes; [done|simpl in Hlen; lia]. }
  change (merge_loop (S (S rounds)) nodes) with
    (if (1 <? length nodes)%nat then
       match sorted_asc freq nodes with
       | l :: r :: nodes' =>
           merge_loop (S rounds)
             (nodes' ++ [mkNode None (freq l + freq r) (Some l) (Some r)])
       | nodes' => nodes'
       end
     else nodes).
  change (merge_loop (S rounds) nodes) with
    (if (1 <? length nodes)%nat then
       match sorted_asc freq nodes with
       | l :: r :: nodes' =>
           merge_loop rounds
             (nodes' ++ [mkNode None (freq l + freq r) (Some l) (Some r)])
       | nodes' => nodes'
       end
     else nodes).
  destruct (1 <? length nodes)%nat; [|done].
  pose proof (sorted_asc_perm freq nodes) as Hperm.
  destruct (sorted_asc freq nodes) as [|l [|r rest]]; [done|done|].
  apply IH. apply Permutation_length in Hperm.
  rewrite length_app. simpl in *. lia.
Qed.

Lemma leaf_nodes_spec (counter : list (string * Z)) :
  Forall huff_tree ((fun '(char, freq) => new_node (Some char) freq) <$> counter)
  /\ concat (leaves <$> ((fun '(char, freq) => new_node (Some char) freq) <$> counter))
     = dict_keys counter.
Proof.
  induction counter as [|[c f] counter [IH1 IH2]]; [by split|].
  split.
  - rewrite fmap_cons. constructor; [constructor|done].
  - rewrite !fmap_cons. unfold dict_keys in *. cbn [concat leaves new_node option_list app].
    rewrite IH2. done.
Qed.

(** What [build_huffman_codes] returns on a non-empty dictionary: the
    tree, the table read off it, and the encoding of [chars] with it. *)
Lemma build_huffman_codes_spec (chars : list string) (counter : list (string * Z)) :
  NoDup (dict_keys counter) -> counter <> [] ->
  exists root,
    huff_tree root /\ leaves root ≡ₚ dict_keys counter /\
    ((2 <= length counter)%nat -> char root = None) /\
    build_huffman_codes chars counter =
      (encoded <- lookup_join (codes_of root "") chars ;;
       Ok (codes_of root "", encoded, root)).
Proof.
  intros Hnd Hne. unfold build_huffman_codes.
  destruct (leaf_nodes_spec counter) as [Hall Hleaves].
  set (nodes := (fun '(char, freq) => new_node (Some char) freq) <$> counter) in *.
  destruct (merge_loop_spec (length nodes) nodes) as (root & -> & Htree & Hl & _ & Htwo).
  { done. } { done. } { subst nodes. by destruct counter. }
  exists root. rewrite Hleaves in Hl. split_and!; [done|done| |].
  - intros Hlen. apply Htwo. subst nodes. by rewrite length_fmap.
  - rewrite generate_codes_app; [done|done|]. simpl. by rewrite Hl.
Qed.

(** ** Walking the tree *)

(** From a merged node, the bits of an entry below it lead to its leaf,
    where the symbol is emitted and the walk restarts at the root. *)
Lemma decode_text_loop_path tree t code s c :
  huff_tree t -> char t = None -> Forall (fun s => s <> "") (leaves t) ->
  (s, c) ∈ codes_of t code ->
  exists suffix, c = code +:+ suffix /\
    forall rest decoded,
      decode_text_loop tree (suffix +:+ rest) decoded (Some t) =
        decode_text_loop tree rest (decoded ++ [s]) (Some tree).
Proof.
  intros Ht. revert code.
  induction Ht as [c' f|f l r Hl IHl Hr IHr]; intros code Hchar Hne Hin; [done|].
  simpl in Hne, Hin. apply Forall_app in Hne as [Hner Hnel].
  apply elem_of_app in Hin as [Hin|Hin].
  - destruct Hr as [cr fr|fr rl rr Hrl Hrr].
    + simpl in Hin. apply list_elem_of_singleton in Hin. simplify_eq.
      rewrite decide_False by (by destruct code).
      exists "0"%string. split; [done|]. intros rest decoded.
      rewrite str_app_cons. simpl.
      simpl in Hner. rewrite Forall_singleton in Hner. by destruct cr.
    + destruct (IHr (code +:+ "0")) as (suffix & -> & Hwalk); [done|done|done|].
      exists ("0" +:+ suffix). split; [by rewrite str_app_assoc|].
      intros rest decoded. rewrite str_app_assoc, str_app_cons. simpl. apply Hwalk.
  - destruct Hl as [cl fl|fl ll lr Hll Hlr].
    + simpl in Hin. apply list_elem_of_singleton in Hin. simplify_eq.
      rewrite decide_False by (by destruct code).
      exists "1"%string. split; [done|]. intros rest decoded.
      rewrite str_app_cons. simpl.
      simpl in Hnel. rewrite Forall_singleton in Hnel. by destruct cl.
    + destruct (IHl (code +:+ "1")) as (suffix & -> & Hwalk); [done|done|done|].
      exists ("1" +:+ suffix). split; [by rewrite str_app_assoc|].
      intros rest decoded. rewrite str_app_assoc, str_app_cons. simpl. apply Hwalk.
Qed.

Lemma decode_text_loop_lookup_join tree (text : list string) bits decoded :
  huff_tree tree -> char tree = None -> NoDup (leaves tree) ->
  Forall (fun s => s <> "") (leaves tree) ->
  lookup_join (codes_of tree "") text = Ok bits ->
  decode_text_loop tree bits decoded (Some tree) = Ok (decoded ++ text).
Proof.
  intros Ht Hchar Hnd Hne. revert bits decoded.
  induction text as [|s text IH]; intros bits decoded; simpl.
  - intros [= <-]. by rewrite app_nil_r.
  - destruct (dict_get (codes_of tree "") s) as [c|] eqn:Hc; [|done].
    destruct (lookup_join (codes_of tree "") text) as [bits'|] eqn:Hj; [|done].
    simpl. intros [= <-]. apply dict_get_elem_of in Hc.
    destruct (decode_text_loop_path tree tree "" s c) as (suffix & Hs & Hwalk);
      [done..|].
    simpl in Hs. subst c. rewrite Hwalk, (IH _ _ eq_refl). by rewrite <- app_assoc.
Qed.

(** On a tree whose root is a merged node the walk never leaves the tree,
    whatever the bits. *)
Lemma decode_text_loop_total tree :
  huff_tree tree -> char tree = None -> Forall (fun s => s <> "") (leaves tree) ->
  forall bits t decoded,
    huff_tree t -> char t = None -> Forall (fun s => s <> "") (leaves t) ->
    exists out, decode_text_loop tree bits decoded (Some t) = Ok out.
Proof.
  intros Htree Hroot Hne. induction bits as [|bit bits IH]; intros t decoded Ht Hchar Hnet.
  - by eexists.
  - destruct Ht as [c f|f l r Hl Hr]; [done|]. simpl in *.
    apply Forall_app in Hnet as [Hner Hnel].
    destruct (Ascii.eqb bit "1").
    + destruct Hl as [[|a cl] fl|fl ll lr Hll Hlr]; simpl in *.
      * by rewrite Forall_singleton in Hnel.
      * by apply IH.
      * apply IH; [by constructor|done|done].
    + destruct Hr as [[|a cr] fr|fr rl rr Hrl Hrr]; simpl in *.
      * by rewrite Forall_singleton in Hner.
      * by apply IH.
      * apply IH; [by constructor|done|done].
Qed.

End HuffmanFacts.

(* ================================================================== *)
(** * Facts about binary64 rounding *)
(* ================================================================== *)

Section FloatFacts.
Local Open Scope Q_scope.

Lemma round_comp (x y : Q) : x == y -> round x = round y.
Proof.
  intros Hxy. unfold round. rewrite (Qfloor_comp _ _ Hxy).
  assert (x - inject_Z (Qfloor y) == y - inject_Z (Qfloor y)) as Hr
    by (by rewrite Hxy).
  by rewrite (Qcompare_comp _ _ Hr (1 # 2) (1 # 2) (Qeq_refl _)).
Qed.

Lemma round_inject_Z (k : Z) : round (inject_Z k) = k.
Proof.
  unfold round. rewrite Qfloor_Z.
  assert (inject_Z k - inject_Z k == 0) as Hr by ring.
  by rewrite (Qcompare_comp _ _ Hr (1 # 2) (1 # 2) (Qeq_refl _)).
Qed.

(** [round] does not pass an integer bound. *)
Lemma round_le (x : Q) (d : Z) : x <= inject_Z d -> (round x <= d)%Z.
Proof.
  intros Hx. unfold round.
  pose proof (Qfloor_le x) as Hfloor.
  assert (Qfloor x <= d)%Z as Hfd.
  { rewrite <- (Qfloor_Z d). by apply Qfloor_resp_le. }
  assert (1 # 2 <= x - inject_Z (Qfloor x) -> (Qfloor x + 1 <= d)%Z) as Hup.
  { intros Hr. assert (inject_Z (Qfloor x) < inject_Z d) as Hlt by Lqa.lra.
    rewrite <- Zlt_Qlt in Hlt. lia. }
  destruct (Qcompare _ _) eqn:Hcmp.
  - apply Qeq_alt in Hcmp. destruct (Z.even _); [done|].
    apply Hup. rewrite Hcmp. apply Qle_refl.
  - done.
  - apply Qgt_alt in Hcmp. apply Hup. by apply Qlt_le_weak.
Qed.

Lemma pow2_pos (e : Z) : 0 < pow2 e.
Proof.
  unfold pow2. destruct (0 <=? e)%Z eqn:He.
  - apply Z.leb_le in He. change 0%Q with (inject_Z 0). rewrite <- Zlt_Qlt.
    by apply Z.pow_pos_nonneg.
  - apply Z.leb_gt in He. apply Qinv_lt_0_compat.
    change 0%Q with (inject_Z 0). rewrite <- Zlt_Qlt.
    apply Z.pow_pos_nonneg; lia.
Qed.

(** A rational on the grid of its own exponent, and not beyond the
    largest float, is a float: rounding leaves it as it is. *)
Lemma b64_round_exact (x : Q) (k : Z) :
  x / pow2 (b64_exponent x) == inject_Z k -> Qabs x <= b64_max ->
  exists y, b64_round x = Some y /\ y == x.
Proof.
  intros Hgrid Hmax. unfold b64_round.
  pose proof (pow2_pos (b64_exponent x)) as Hpos.
  set (p := pow2 (b64_exponent x)) in *.
  rewrite (round_comp _ _ Hgrid), round_inject_Z.
  assert (inject_Z k * p == x) as Hy.
  { rewrite <- Hgrid. field. intros Hz. rewrite Hz in Hpos. by apply Qlt_irrefl in Hpos. }
  assert (Qle_bool (Qabs (inject_Z k * p)) b64_max = true) as ->.
  { apply Qle_bool_iff. by rewrite Hy. }
  by eexists.
Qed.

(** Half an int below [2 ^ 53] is a float: [total / 2] is exact. *)
Lemma truediv_b64_half (t : Z) :
  (0 <= t < 2 ^ 53)%Z ->
  exists h, truediv_b64 t 2 = Ok h /\ h == inject_Z t / 2.
Proof.
  intros [Ht0 Ht]. unfold truediv_b64.
  change (2 =? 0)%Z with false. cbv iota.
  set (x := (inject_Z t / inject_Z 2)%Q).
  assert (b64_exponent x <= -1)%Z as He.
  { unfold b64_exponent, x. cbn [Qnum Qden Qdiv Qmult Qinv inject_Z].
    change (Z.log2 (Z.pos (1 * 2))) with 1%Z.
    assert (Z.log2 (Z.abs (t * 1)) <= 52)%Z as Hlog.
    { rewrite Z.mul_1_r, Z.abs_eq by done.
      destruct (decide (t = 0%Z)) as [->|Hne]; [done|].
      assert (Z.log2 t < 53)%Z; [|lia]. apply Z.log2_lt_pow2; lia. }
    destruct (Qle_bool _ _); lia. }
  destruct (b64_round_exact x (t * 2 ^ (-1 - b64_exponent x))) as (h & -> & Hh).
  - unfold pow2. rewrite (proj2 (Z.leb_gt 0 _)) by lia.
    set (e := b64_exponent x) in *.
    assert (2 ^ (- e) = 2 * 2 ^ (-1 - e))%Z as ->.
    { rewrite <- Z.pow_succ_r by lia. f_equal. lia. }
    assert (0 < 2 ^ (-1 - e))%Z as Hpow by (apply Z.pow_pos_nonneg; lia).
    unfold x. rewrite !inject_Z_mult. field.
    intros Hz. apply (proj1 (inject_Z_injective _ 0)) in Hz. lia.
  - rewrite Qabs_pos.
    + apply Qle_trans with (inject_Z (2 ^ 53)).
      * unfold x. apply Qle_shift_div_r; [done|].
        rewrite <- inject_Z_mult, <- Zle_Qle. lia.
      * unfold b64_max. rewrite <- Zle_Qle. apply Z.leb_le. by vm_compute.
    + unfold x. apply Qle_shift_div_l; [done|]. rewrite Qmult_0_l.
      change 0%Q with (inject_Z 0). by rewrite <- Zle_Qle.
  - by exists h.
Qed.

(** An int below [2 ^ 53] is a float. *)
Lemma float_of_int_exact (n : Z) :
  (0 <= n < 2 ^ 53)%Z ->
  exists y, float_of_int n = Ok y /\ y == inject_Z n.
Proof.
  intros [Hn0 Hn]. unfold float_of_int.
  set (x := inject_Z n).
  assert (b64_exponent x <= 0)%Z as He.
  { unfold b64_exponent, x. cbn [Qnum Qden inject_Z].
    change (Z.log2 (Z.pos 1)) with 0%Z.
    assert (Z.log2 (Z.abs n) <= 52)%Z as Hlog.
    { rewrite Z.abs_eq by done.
      destruct (decide (n = 0%Z)) as [->|Hne]; [done|].
      assert (Z.log2 n < 53)%Z; [|lia]. apply Z.log2_lt_pow2; lia. }
    destruct (Qle_bool _ _); lia. }
  destruct (b64_round_exact x (n * 2 ^ (- b64_exponent x))) as (y & -> & Hy).
  - unfold pow2. set (e := b64_exponent x) in *.
    assert (0 < 2 ^ (- e))%Z as Hpow by (apply Z.pow_pos_nonneg; lia).
    destruct (0 <=? e)%Z eqn:Hsign.
    + apply Z.leb_le in Hsign. assert (e = 0%Z) as -> by lia.
      unfold x. change (2 ^ (- 0))%Z with 1%Z. change (2 ^ 0)%Z with 1%Z.
      rewrite Z.mul_1_r. field.
    + unfold x. rewrite inject_Z_mult. field.
      intros Hz. apply (proj1 (inject_Z_injective _ 0)) in Hz. lia.
  - rewrite Qabs_pos.
    + apply Qle_trans with (inject_Z (2 ^ 53)).
      * unfold x. rewrite <- Zle_Qle. lia.
      * unfold b64_max. rewrite <- Zle_Qle. apply Z.leb_le. by vm_compute.
    + unfold x. change 0%Q with (inject_Z 0). by rewrite <- Zle_Qle.
  - by exists y.
Qed.

(** Below [2 ^ 53] the spacing of the floats is 1 at most. *)
Lemma b64_exponent_small (x : Q) :
  Qabs x < inject_Z (2 ^ 53) -> (b64_exponent x <= 0)%Z.
Proof.
  intros Hx. unfold b64_exponent.
  set (n := Z.abs (Qnum x)). set (d := Z.pos (Qden x)).
  assert (n < 2 ^ 53 * d)%Z as Hn.
  { destruct x as [xn xd]. unfold Qlt in Hx. simpl in Hx. unfold n, d. simpl. lia. }
  assert (0 <= n)%Z as Hn0 by (unfold n; lia).
  assert (0 < d)%Z as Hd by (unfold d; lia).
  pose proof (Z.log2_nonneg d) as Hld.
  destruct (Z.log2_spec d Hd) as [_ Hdu].
  assert (Z.log2 n < 54 + Z.log2 d)%Z as Hlog.
  { destruct (decide (n = 0%Z)) as [Hz|Hne].
    { rewrite Hz. change (Z.log2 0) with 0%Z. lia. }
    apply Z.log2_lt_pow2; [lia|].
    rewrite Z.pow_add_r by lia. rewrite Z.pow_succ_r in Hdu by done.
    change (2 ^ 54)%Z with (2 ^ 53 * 2)%Z. nia. }
  set (e0 := (Z.log2 n - Z.log2 d - 52)%Z) in *.
  destruct (Qle_bool (pow2 (e0 + 52)) (Qabs x)) eqn:Htest; [|lia].
  destruct (decide (e0 = 1%Z)) as [He0|He0]; [|lia].
  exfalso. rewrite He0 in Htest. apply Qle_bool_iff in Htest.
  change (pow2 (1 + 52)) with (inject_Z (2 ^ 53)) in Htest.
  apply (Qlt_irrefl (Qabs x)). by apply Qlt_le_trans with (inject_Z (2 ^ 53)).
Qed.

(** Rounding does not carry a value past an int below [2 ^ 53] that
    bounds it. *)
Lemma b64_round_le_int (x y : Q) (d : Z) :
  (0 <= d < 2 ^ 53)%Z -> x <= inject_Z d -> b64_round x = Some y ->
  y <= inject_Z d.
Proof.
  intros [Hd0 Hd] Hx. unfold b64_round.
  pose proof (pow2_pos (b64_exponent x)) as Hp.
  set (p := pow2 (b64_exponent x)) in *.
  destruct (Qle_bool _ _); [|done]. intros [= <-].
  assert (0 <= inject_Z d) as Hd0' by (change 0%Q with (inject_Z 0); by rewrite <- Zle_Qle).
  destruct (Qlt_le_dec x 0) as [Hneg|Hpos].
  - assert (round (x / p) <= 0)%Z as Hr.
    { apply round_le. apply Qle_shift_div_r; [done|].
      rewrite Qmult_0_l. by apply Qlt_le_weak. }
    apply Qle_trans with 0; [|done].
    rewrite <- (Qmult_0_l p). apply Qmult_le_compat_r; [|by apply Qlt_le_weak].
    change 0%Q with (inject_Z 0). by rewrite <- Zle_Qle.
  - assert (b64_exponent x <= 0)%Z as He.
    { apply b64_exponent_small. rewrite Qabs_pos by done.
      apply Qle_lt_trans with (inject_Z d); [done|]. by rewrite <- Zlt_Qlt. }
    assert (inject_Z d == inject_Z (d * 2 ^ (- b64_exponent x)) * p) as Hgrid.
    { unfold p, pow2. set (e := b64_exponent x) in *.
      assert (0 < 2 ^ (- e))%Z as Hpow by (apply Z.pow_pos_nonneg; lia).
      destruct (0 <=? e)%Z eqn:Hsign.
      - apply Z.leb_le in Hsign. assert (e = 0%Z) as -> by lia.
        change (2 ^ (- 0))%Z with 1%Z. change (2 ^ 0)%Z with 1%Z.
        rewrite Z.mul_1_r. ring.
      - rewrite inject_Z_mult. field.
        intros Hz. apply (proj1 (inject_Z_injective _ 0)) in Hz. lia. }
    rewrite Hgrid. apply Qmult_le_compat_r; [|by apply Qlt_le_weak].
    rewrite <- Zle_Qle. apply round_le.
    apply Qle_shift_div_r; [done|]. by rewrite <- Hgrid.
Qed.

End FloatFacts.

(* ================================================================== *)
(** * Sorting by descending count, sums *)
(* ================================================================== *)

Section DescFacts.
Context {A : Type} (key : A -> Z).

Lemma insert_desc_sorted x (l : list A) :
  StronglySorted (desc key) l -> StronglySorted (desc key) (insert_desc key x l).
Proof.
  induction l as [|y l IH]; simpl; intros Hs.
  - repeat constructor.
  - apply StronglySorted_cons in Hs as [Hy Hs].
    destruct (key x <? key y)%Z eqn:Hlt.
    + apply Z.ltb_lt in Hlt. constructor; [auto|].
      rewrite insert_desc_perm. constructor; [|done]. unfold desc. lia.
    + apply Z.ltb_ge in Hlt. constructor; [by constructor|].
      constructor; [done|]. eapply Forall_impl; [exact Hy|].
      unfold desc. intros z Hz. lia.
Qed.

Lemma sorted_desc_sorted (l : list A) : StronglySorted (desc key) (sorted_desc key l).
Proof.
  induction l as [|x l IH]; simpl; [constructor|]. by apply insert_desc_sorted.
Qed.

End DescFacts.

Lemma fold_left_add_acc (l : list Z) (a : Z) :
  fold_left Z.add l a = (a + fold_left Z.add l 0)%Z.
Proof.
  revert a. induction l as [|x l IH]; intros a; simpl; [lia|].
  rewrite IH. symmetry. rewrite IH. lia.
Qed.

Lemma sum_Z_cons (x : Z) (l : list Z) : sum_Z (x :: l) = (x + sum_Z l)%Z.
Proof. unfold sum_Z. simpl. apply fold_left_add_acc. Qed.

Lemma sum_Z_app (l1 l2 : list Z) : sum_Z (l1 ++ l2) = (sum_Z l1 + sum_Z l2)%Z.
Proof.
  induction l1 as [|x l1 IH]; [done|].
  rewrite <- app_comm_cons, !sum_Z_cons, IH. lia.
Qed.

Lemma sum_Z_nonneg (l : list Z) : Forall (fun x => 0 <= x)%Z l -> (0 <= sum_Z l)%Z.
Proof.
  induction 1 as [|x l Hx _ IH]; [done|]. rewrite sum_Z_cons. lia.
Qed.

Lemma sum_Z_pos (l : list Z) :
  Forall (fun x => 0 < x)%Z l -> l <> [] -> (0 < sum_Z l)%Z.
Proof.
  intros Hall Hne. destruct Hall as [|x l Hx Hl]; [done|].
  rewrite sum_Z_cons. assert (0 <= sum_Z l)%Z; [|lia].
  apply sum_Z_nonneg. eapply Forall_impl; [exact Hl|]. simpl. lia.
Qed.

Lemma sum_Z_perm (l1 l2 : list Z) : l1 ≡ₚ l2 -> sum_Z l1 = sum_Z l2.
Proof.
  induction 1 as [|x l1 l2 _ IH|x y l|l1 l2 l3 _ IH1 _ IH2].
  - done.
  - by rewrite !sum_Z_cons, IH.
  - rewrite !sum_Z_cons. lia.
  - by rewrite IH1.
Qed.

(* ================================================================== *)
(** * Shannon-Fano *)
(* ================================================================== *)

Section ShannonFanoFacts.
Import Workbook2.
Implicit Types (group : list (string * Z)) (codes : list (string * string)).

(** The test [acc >= total / 2], for a quotient that is exact. *)
Lemma half_le_iff (half : Q) (total acc : Z) :
  half == inject_Z total / 2 ->
  Qle_bool half (inject_Z acc) = true <-> (total <= 2 * acc)%Z.
Proof.
  intros Hhalf. rewrite Qle_bool_iff, Hhalf.
  unfold Qle, Qdiv, Qmult, Qinv, inject_Z. simpl. lia.
Qed.

Lemma find_cut_bound group (total acc i : Z) (m : nat) :
  (0 <= total < 2 ^ 53)%Z ->
  (1 <= m <= length group)%nat ->
  (total <= 2 * (acc + sum_Z (take m group).*2))%Z ->
  exists cut_idx, find_cut group total acc i = Ok cut_idx /\
    (i + 1 <= cut_idx <= i + Z.of_nat m)%Z.
Proof.
  intros Hexact. destruct (truediv_b64_half total Hexact) as (half & Hdiv & Hhalf).
  revert acc i m. induction group as [|[k f] group IH]; intros acc i m Hm Htot.
  { simpl in Hm. lia. }
  cbn [find_cut]. rewrite Hdiv. cbn [bind].
  destruct (Qle_bool _ _) eqn:Htest; [eexists; split; [done|lia]|].
  apply not_true_iff_false in Htest. rewrite (half_le_iff _ total) in Htest by done.
  destruct m as [|[|m]]; [lia| |].
  - simpl in Htot. rewrite sum_Z_cons in Htot. unfold sum_Z in Htot. simpl in Htot. lia.
  - change (take (S (S m)) ((k, f) :: group)) with ((k, f) :: take (S m) group) in Htot.
    rewrite fmap_cons, sum_Z_cons in Htot. cbn [snd] in Htot.
    specialize (IH (acc + f)%Z (i + 1)%Z (S m)). simpl in Hm.
    destruct IH as (cut_idx & -> & IH1 & IH2); [lia|lia|].
    exists cut_idx. split; [done|lia].
Qed.

(** The scan below [2 ^ 53], where the float [total / 2] is half the
    total: it stops at the first entry with which the weight seen reaches
    half the total, and returns 0 when there is none. *)
Lemma find_cut_scan group (total acc i : Z) :
  (0 <= total < 2 ^ 53)%Z ->
  exists cut_idx, find_cut group total acc i = Ok cut_idx /\
    ((cut_idx = 0%Z /\
      forall k, (1 <= k <= length group)%nat ->
        (2 * (acc + sum_Z (take k group).*2) < total)%Z) \/
     (exists m, (1 <= m <= length group)%nat /\ cut_idx = (i + Z.of_nat m)%Z /\
        (total <= 2 * (acc + sum_Z (take m group).*2))%Z /\
        forall k, (1 <= k < m)%nat ->
          (2 * (acc + sum_Z (take k group).*2) < total)%Z)).
Proof.
  intros Hexact. destruct (truediv_b64_half total Hexact) as (half & Hdiv & Hhalf).
  revert acc i. induction group as [|[s f] group IH]; intros acc i.
  { exists 0%Z. split; [done|]. left. split; [done|]. simpl. lia. }
  cbn [find_cut]. rewrite Hdiv. cbn [bind].
  assert (forall k, sum_Z (take (S k) ((s, f) :: group)).*2
    = (f + sum_Z (take k group).*2)%Z) as Htake.
  { intros k. by rewrite firstn_cons, fmap_cons, sum_Z_cons. }
  destruct (Qle_bool _ _) eqn:Htest.
  - rewrite (half_le_iff _ total) in Htest by done.
    eexists. split; [done|]. right. exists 1%nat.
    split; [simpl; lia|]. split; [lia|]. split; [|lia].
    rewrite Htake, take_0. change (sum_Z (snd <$> [])) with 0%Z. lia.
  - apply not_true_iff_false in Htest. rewrite (half_le_iff _ total) in Htest by done.
    destruct (IH (acc + f)%Z (i + 1)%Z) as (cut_idx & -> & Hcut).
    exists cut_idx. split; [done|].
    destruct Hcut as [[-> Hall]|(m & Hm & -> & Hreach & Hall)]; [left|right].
    + split; [done|]. intros [|[|k]] Hk; [lia| |].
      * rewrite Htake, take_0. change (sum_Z (snd <$> [])) with 0%Z. lia.
      * rewrite Htake. simpl in Hk. specialize (Hall (S k)). lia.
    + exists (S m). split; [simpl; lia|]. split; [lia|]. split.
      * rewrite Htake. lia.
      * intros [|[|k]] Hk; [lia| |].
        -- rewrite Htake, take_0. change (sum_Z (snd <$> [])) with 0%Z. lia.
        -- rewrite Htake. specialize (Hall (S k)). lia.
Qed.

Lemma find_cut_in_range group :
  StronglySorted (desc snd) group -> Forall (fun x => 0 <= x.2)%Z group ->
  (2 <= length group)%nat -> (sum_Z group.*2 < 2 ^ 53)%Z ->
  exists cut_idx, find_cut group (sum_Z group.*2) 0 0 = Ok cut_idx /\
    (1 <= cut_idx <= Z.of_nat (length group) - 1)%Z.
Proof.
  intros Hs Hpos Hlen Hsmall.
  assert (0 <= sum_Z group.*2)%Z as Hnonneg.
  { apply sum_Z_nonneg. by apply Forall_fmap. }
  destruct group as [|x rest]; [simpl in Hlen; lia|].
  destruct (exists_last (l := rest)) as (init & last & ->).
  { intros ->. simpl in Hlen. lia. }
  pose proof (find_cut_bound (x :: init ++ [last])
    (sum_Z (x :: init ++ [last]).*2) 0 0 (S (length init))
    (conj Hnonneg Hsmall)) as Hb.
  assert (take (S (length init)) (x :: init ++ [last]) = x :: init) as Htake.
  { simpl. by rewrite take_app_length. }
  rewrite Htake in Hb. clear Htake.
  assert (sum_Z (x :: init ++ [last]).*2 = (x.2 + (sum_Z init.*2 + last.2))%Z) as Htotal.
  { rewrite fmap_cons, fmap_app, sum_Z_cons, sum_Z_app, fmap_cons, sum_Z_cons.
    change (sum_Z (snd <$> [])) with 0%Z. lia. }
  rewrite Htotal in *. rewrite fmap_cons, sum_Z_cons in Hb.
  apply StronglySorted_cons in Hs as [Hx _].
  rewrite Forall_app, Forall_singleton in Hx. destruct Hx as [_ Hx]. unfold desc in Hx.
  apply Forall_cons in Hpos as [_ Hpos]. apply Forall_app in Hpos as [Hpos _].
  assert (0 <= sum_Z init.*2)%Z as Hsum.
  { apply sum_Z_nonneg. by apply Forall_fmap. }
  rewrite !length_cons, !length_app in *. cbn [length] in *.
  destruct Hb as (cut_idx & Hcut & Hb1 & Hb2); [lia..|].
  exists cut_idx. split; [done|lia].
Qed.

Lemma fmap_app_str (a b : string) (o : option string) :
  (fun c => c +:+ b) <$> ((fun c => c +:+ a) <$> o) = (fun c => c +:+ (a +:+ b)) <$> o.
Proof. destruct o; simpl; [|done]. by rewrite str_app_assoc. Qed.

Lemma append_bit_spec group (bit : string) codes :
  NoDup group.*1 -> (forall k, k ∈ group.*1 -> k ∈ dict_keys codes) ->
  exists codes', append_bit group bit codes = Ok codes' /\
    appended group.*1 (fun _ => bit) codes codes'.
Proof.
  revert codes. induction group as [|[char f] group IH]; intros codes Hnd Hsub.
  - exists codes. by split.
  - simpl in *. apply NoDup_cons in Hnd as [Hchar Hnd].
    destruct (dict_get codes char) as [code|] eqn:Hc.
    2:{ apply dict_get_None in Hc. exfalso. apply Hc, Hsub. by left. }
    assert (char ∈ dict_keys codes) as Hin by (apply Hsub; by left).
    destruct (IH (dict_set codes char (code +:+ bit))) as (codes' & -> & Hkeys & Hget).
    { done. }
    { intros k Hk. rewrite dict_set_keys_present by done. apply Hsub. by right. }
    exists codes'. split; [done|]. split.
    + by rewrite Hkeys, dict_set_keys_present.
    + intros k. rewrite Hget. destruct (decide (k = char)) as [->|Hne].
      * rewrite decide_False by done. rewrite decide_True by (by left).
        by rewrite dict_get_set_eq, Hc.
      * rewrite dict_get_set_ne by done.
        destruct (decide (k ∈ group.*1)) as [Hk|Hk].
        -- rewrite decide_True; [done|by right].
        -- rewrite decide_False; [done|]. by apply not_elem_of_cons.
Qed.

(** The weight of a part of a group of non-negative counts. *)
Lemma sum_Z_take_drop_le group (n : nat) :
  Forall (fun x => 0 <= x.2)%Z group ->
  (sum_Z (take n group).*2 <= sum_Z group.*2)%Z /\
  (sum_Z (drop n group).*2 <= sum_Z group.*2)%Z.
Proof.
  intros Hpos. rewrite <- (take_drop n group) in Hpos.
  apply Forall_app in Hpos as [Hl Hr].
  rewrite <- (take_drop n group) at 2 4. rewrite fmap_app, sum_Z_app.
  assert (0 <= sum_Z (take n group).*2)%Z by (apply sum_Z_nonneg; by apply Forall_fmap).
  assert (0 <= sum_Z (drop n group).*2)%Z by (apply sum_Z_nonneg; by apply Forall_fmap).
  lia.
Qed.

Lemma split_spec depth group codes :
  (length group <= depth)%nat -> (1 <= depth)%nat ->
  NoDup group.*1 -> StronglySorted (desc snd) group ->
  Forall (fun x => 0 <= x.2)%Z group -> (sum_Z group.*2 < 2 ^ 53)%Z ->
  (forall k, k ∈ group.*1 -> k ∈ dict_keys codes) ->
  exists codes' sfx, split depth group codes = Ok codes' /\
    appended group.*1 sfx codes codes' /\ suffix_code group.*1 sfx.
Proof.
  revert group codes.
  induction depth as [|depth IH];
    intros group codes Hlen Hdepth Hnd Hs Hpos Hexact Hsub; [lia|].
  cbn [split]. destruct (length group <=? 1)%nat eqn:Hsmall.
  { apply Nat.leb_le in Hsmall. exists codes, (fun _ => ""%string).
    split; [done|]. split; [split; [done|]|split].
    - intros k. case_decide; [|done].
      destruct (dict_get codes k); simpl; [|done]. by rewrite str_app_nil_r.
    - rewrite length_fmap. lia.
    - intros k1 k2 H1 H2 _. destruct group as [|[k f] [|? group]]; simpl in *.
      + by apply elem_of_nil in H1.
      + apply list_elem_of_singleton in H1, H2. by subst.
      + lia. }
  apply Nat.leb_gt in Hsmall.
  destruct (find_cut_in_range group Hs Hpos) as (cut_idx & -> & Hcut); [lia|done|].
  cbn [bind].
  unfold slice_to, slice_from. rewrite (proj2 (Z.leb_le 0 cut_idx)) by lia.
  set (n := Z.to_nat cut_idx).
  assert (1 <= n <= length group - 1)%nat as Hn by lia.
  destruct (sum_Z_take_drop_le group n Hpos) as [Hsuml Hsumr].
  set (lft := take n group) in *. set (rgt := drop n group) in *.
  assert (group = lft ++ rgt) as Hgroup by (symmetry; apply take_drop).
  assert (length lft = n) as Hll by (unfold lft; rewrite length_take; lia).
  assert (length rgt = (length group - n)%nat) as Hlr by apply length_drop.
  rewrite Hgroup, fmap_app in Hnd, Hsub. rewrite Hgroup in Hs, Hpos.
  apply NoDup_app in Hnd as (Hndl & Hdisj & Hndr).
  apply StronglySorted_app in Hs as (_ & Hsl & Hsr).
  apply Forall_app in Hpos as [Hposl Hposr].
  destruct (append_bit_spec lft "0" codes) as (c1 & -> & Hk1 & Hg1).
  { done. } { intros k Hk. apply Hsub, elem_of_app. by left. }
  simpl. destruct (append_bit_spec rgt "1" c1) as (c2 & -> & Hk2 & Hg2).
  { done. } { intros k Hk. rewrite Hk1. apply Hsub, elem_of_app. by right. }
  simpl. destruct (IH rgt c2) as (c3 & sfxR & -> & [Hk3 Hg3] & HsufR & HpreR).
  { lia. } { lia. } { done. } { done. } { done. } { lia. }
  { intros k Hk. rewrite Hk2, Hk1. apply Hsub, elem_of_app. by right. }
  simpl. destruct (IH lft c3) as (c4 & sfxL & -> & [Hk4 Hg4] & HsufL & HpreL).
  { lia. } { lia. } { done. } { done. } { done. } { lia. }
  { intros k Hk. rewrite Hk3, Hk2, Hk1. apply Hsub, elem_of_app. by left. }
  exists c4, (fun k => if decide (k ∈ lft.*1) then "0" +:+ sfxL k else "1" +:+ sfxR k).
  split; [done|]. rewrite Hgroup, fmap_app. split; [split|split].
  - by rewrite Hk4, Hk3, Hk2, Hk1.
  - intros k. rewrite Hg4, Hg3, Hg2, Hg1.
    destruct (decide (k ∈ lft.*1)) as [Hkl|Hkl];
      destruct (decide (k ∈ rgt.*1)) as [Hkr|Hkr].
    + by destruct (Hdisj k).
    + rewrite (decide_True (P := k ∈ lft.*1 ++ rgt.*1))
        by (apply elem_of_app; by left).
      apply fmap_app_str.
    + rewrite (decide_True (P := k ∈ lft.*1 ++ rgt.*1))
        by (apply elem_of_app; by right).
      apply fmap_app_str.
    + rewrite (decide_False (P := k ∈ lft.*1 ++ rgt.*1)); [done|].
      rewrite elem_of_app. tauto.
  - intros _ k _. by case_decide.
  - intros k1 k2 H1 H2 Hp. apply elem_of_app in H1, H2.
    destruct (decide (k1 ∈ lft.*1)) as [Hk1l|Hk1l];
      destruct (decide (k2 ∈ lft.*1)) as [Hk2l|Hk2l].
    + apply HpreL; [done|done|]. by apply (is_prefix_app_inv "0").
    + destruct Hp as [k Hk]. by rewrite !str_app_cons in Hk.
    + destruct Hp as [k Hk]. by rewrite !str_app_cons in Hk.
    + apply HpreR; [tauto|tauto|]. by apply (is_prefix_app_inv "1").
Qed.

(** What [calculate_shannon_fano] returns when the recursion limit is not
    hit: a Codec over the symbols of the counter, in the counter's order. *)
Lemma calculate_shannon_fano_spec limit (counter : list (string * Z)) :
  NoDup (dict_keys counter) -> Forall (fun x => 0 <= x.2)%Z counter ->
  (sum_Z (dict_values counter) < 2 ^ 53)%Z ->
  (length counter <= limit)%nat -> (1 <= limit)%nat ->
  exists codes sfx, calculate_shannon_fano limit counter = Ok codes /\
    dict_keys codes = dict_keys counter /\
    (forall k, k ∈ dict_keys counter -> dict_get codes k = Some (sfx k)) /\
    suffix_code (dict_keys counter) sfx.
Proof.
  intros Hnd Hpos Hexact Hlen Hlimit. unfold calculate_shannon_fano.
  set (codes0 := (fun '(char, _) => (char, ""%string)) <$> counter).
  assert (dict_keys codes0 = dict_keys counter) as Hk0.
  { unfold dict_keys, codes0. rewrite <- list_fmap_compose.
    apply list_fmap_ext. by intros _ [??] _. }
  assert (forall k, k ∈ dict_keys counter -> dict_get codes0 k = Some ""%string) as Hg0.
  { intros k Hk. apply dict_get_of_elem; [by rewrite Hk0|].
    unfold dict_keys in Hk. apply list_elem_of_fmap in Hk as ([k' f] & -> & Hin).
    unfold codes0. apply list_elem_of_fmap. by exists (k', f). }
  pose proof (sorted_desc_perm snd counter) as Hperm.
  assert ((sorted_desc snd counter).*1 ≡ₚ dict_keys counter) as Hpk.
  { unfold dict_keys. by rewrite Hperm. }
  destruct (split_spec limit (sorted_desc snd counter) codes0)
    as (codes & sfx & -> & [Hk Hg] & Hsuf & Hpre).
  { by rewrite Hperm. } { done. } { by rewrite Hpk. }
  { apply sorted_desc_sorted. } { by rewrite Hperm. }
  { unfold dict_values in Hexact.
    by rewrite (sum_Z_perm _ _ (fmap_Permutation snd _ _ Hperm)). }
  { intros k. by rewrite Hk0, Hpk. }
  exists codes, sfx. split; [done|]. split; [by rewrite Hk|]. split; [|split].
  - intros k Hin. rewrite Hg, decide_True by (by rewrite Hpk).
    by rewrite (Hg0 _ Hin).
  - rewrite <- (Permutation_length Hpk). intros ? k Hin. apply Hsuf; [done|].
    by rewrite Hpk.
  - intros k1 k2 H1 H2. apply Hpre; by rewrite Hpk.
Qed.

(** Codes given by prefix-incomparable, non-empty suffixes form a Codec. *)
Lemma suffix_code_Codec (codes : list (string * string)) (sfx : string -> string) :
  NoDup (dict_keys codes) -> (2 <= length codes)%nat ->
  (forall k, k ∈ dict_keys codes -> dict_get codes k = Some (sfx k)) ->
  suffix_code (dict_keys codes) sfx -> Codec codes.
Proof.
  intros Hnd Hlen Hg [Hne Hpre].
  assert (forall s c, dict_get codes s = Some c -> s ∈ dict_keys codes /\ c = sfx s) as Hinv.
  { intros s c Hs. assert (s ∈ dict_keys codes) as Hin.
    { apply dict_get_is_Some. by eexists. }
    split; [done|]. rewrite (Hg _ Hin) in Hs. congruence. }
  split; [done|..].
  - intros s1 s2 c H1 H2. apply Hinv in H1 as [? ->], H2 as [? Heq].
    apply Hpre; [done|done|]. rewrite Heq. apply is_prefix_refl.
  - intros s c Hs. apply Hinv in Hs as [Hin ->]. apply Hne; [|done].
    unfold dict_keys. by rewrite length_fmap.
  - intros s1 s2 c1 c2 H1 H2 Hp. apply Hinv in H1 as [? ->], H2 as [? ->].
    by rewrite (Hpre s1 s2).
Qed.

(** On [big_counter] the quotient [total / 2] is rounded up to
    [2 ^ 53 + 4], above the first count, so that the cut falls after the
    last symbol: [left] is the whole group again, and [split(left)] calls
    itself on it until the interpreter's limit. *)
Lemma find_cut_big_counter :
  find_cut big_counter (sum_Z big_counter.*2) 0 0 = Ok 2%Z.
Proof. by vm_compute. Qed.

Lemma split_big_counter depth codes :
  dict_keys codes = ["a"; "b"] ->
  split depth big_counter codes = Raise RecursionError.
Proof.
  revert codes. induction depth as [|depth IH]; intros codes Hkeys; [done|].
  cbn [split]. change (length big_counter <=? 1)%nat with false. cbv iota.
  rewrite find_cut_big_counter. cbn [bind].
  change (slice_to big_counter 2) with big_counter.
  change (slice_from big_counter 2) with (@nil (string * Z)).
  destruct (append_bit_spec big_counter "0" codes) as (codes' & -> & Hkeys' & _).
  - apply (bool_decide_unpack _). by vm_compute.
  - intros k Hk. by rewrite Hkeys.
  - cbn [bind append_bit]. destruct depth as [|depth']; [done|].
    change (split (S depth') [] codes') with (Ok codes'). cbn [bind].
    apply IH. by rewrite Hkeys'.
Qed.

End ShannonFanoFacts.

(* ================================================================== *)
(** * Average code length *)
(* ================================================================== *)

Section AverageFacts.
Implicit Types (codec : list (string * string)) (counter : list (string * Z)).

Lemma sumQ_cons {A} (f : A -> Q) (x : A) (l : list A) :
  sumQ f (x :: l) = (f x + sumQ f l)%Q.
Proof. reflexivity. Qed.

Lemma sumQ_ext {A} (f g : A -> Q) (l : list A) :
  (forall x, x ∈ l -> f x == g x) -> sumQ f l == sumQ g l.
Proof.
  induction l as [|x l IH]; intros Hfg; [reflexivity|].
  rewrite !sumQ_cons, (Hfg x), IH; [reflexivity| |by left].
  intros y Hy. apply Hfg. by right.
Qed.

Lemma sumQ_plus {A} (f g : A -> Q) (l : list A) :
  sumQ (fun x => f x + g x)%Q l == sumQ f l + sumQ g l.
Proof.
  induction l as [|x l IH]; [reflexivity|]. rewrite !sumQ_cons, IH. ring.
Qed.

Lemma sumQ_zero {A} (f : A -> Q) (l : list A) :
  (forall x, x ∈ l -> f x == 0) -> sumQ f l == 0.
Proof.
  induction l as [|x l IH]; intros Hf; [reflexivity|].
  rewrite sumQ_cons, (Hf x), IH; [ring| |by left].
  intros y Hy. apply Hf. by right.
Qed.

(** The share of one symbol, read off the counter entry by entry. *)
Lemma counter_get_sumQ counter (total : Z) (s : string) (len : Q) :
  NoDup (dict_keys counter) ->
  inject_Z (counter_get counter s) / inject_Z total * len ==
  sumQ (fun '(s', count) =>
          if decide (s = s') then inject_Z count / inject_Z total * len else 0)%Q
       counter.
Proof.
  unfold counter_get, dict_keys.
  induction counter as [|[s0 c0] counter IH]; intros Hnd.
  - simpl. unfold Qdiv. ring.
  - rewrite fmap_cons in Hnd. apply NoDup_cons in Hnd as [Hs0 Hnd].
    rewrite sumQ_cons. simpl dict_get. destruct (decide (s0 = s)) as [->|Hne].
    + rewrite decide_True by done. simpl. rewrite sumQ_zero; [ring|].
      intros [s' c'] Hin. rewrite decide_False; [reflexivity|].
      intros ->. apply Hs0, list_elem_of_fmap. by exists (s', c').
    + rewrite decide_False by done. rewrite IH by done. ring.
Qed.

(** Summing over the codec, as the code does, or over the symbols of the
    count that have a codeword, as the specification does. *)
Lemma sum_over_codec_weighted_length codec counter (total : Z) :
  NoDup (dict_keys codec) -> NoDup (dict_keys counter) ->
  sumQ (fun '(s, code) =>
          inject_Z (counter_get counter s) / inject_Z total * code_len code)%Q codec
  == weighted_length total codec counter.
Proof.
  intros Hcodec Hcounter. unfold weighted_length, dict_keys in *.
  induction codec as [|[s code] codec IH].
  - simpl. symmetry. apply sumQ_zero. by intros [??] _.
  - rewrite fmap_cons in Hcodec. apply NoDup_cons in Hcodec as [Hs Hcodec].
    rewrite sumQ_cons, IH, counter_get_sumQ by done.
    rewrite <- sumQ_plus. apply sumQ_ext. intros [s' count] _.
    simpl dict_get. destruct (decide (s = s')) as [->|Hne].
    + assert (dict_get codec s' = None) as -> by (by apply dict_get_None).
      ring.
    + destruct (dict_get codec s'); ring.
Qed.

Lemma avg_sum_spec counter (char_counts : Z) codec (acc : Q) :
  char_counts <> 0%Z ->
  exists q, Workbook2.avg_sum counter char_counts codec acc = Ok q /\
    q == acc + sumQ (fun '(s, code) =>
           inject_Z (counter_get counter s) / inject_Z char_counts * code_len code)%Q
         codec.
Proof.
  intros Hne. revert acc. induction codec as [|[s code] codec IH]; intros acc.
  - exists acc. split; [done|]. simpl. ring.
  - simpl. unfold truediv_Q. rewrite (proj2 (Z.eqb_neq _ _) Hne). simpl.
    destruct (IH (acc + inject_Z (counter_get counter s) / inject_Z char_counts
                        * inject_Z (Z.of_nat (String.length code)))%Q)
      as (q & -> & Hq).
    exists q. split; [done|]. rewrite Hq. unfold code_len. ring.
Qed.

Lemma avg_loop_spec counter (total_length : Z) codec (acc : Q) :
  total_length <> 0%Z ->
  exists q, Workbook3.avg_loop counter total_length codec acc = Ok q /\
    q == acc + sumQ (fun '(s, code) =>
           inject_Z (counter_get counter s) / inject_Z total_length * code_len code)%Q
         codec.
Proof.
  intros Hne. revert acc. induction codec as [|[s code] codec IH]; intros acc.
  - exists acc. split; [done|]. simpl. ring.
  - simpl. unfold truediv_Q. rewrite (proj2 (Z.eqb_neq _ _) Hne). simpl.
    destruct (IH (acc + inject_Z (counter_get counter s) / inject_Z total_length
                        * inject_Z (Z.of_nat (String.length code)))%Q)
      as (q & -> & Hq).
    exists q. split; [done|]. rewrite Hq. unfold code_len. ring.
Qed.

End AverageFacts.

(* ================================================================== *)
(** * Entropy *)
(* ================================================================== *)

Section EntropyFacts.
Import Workbook1.

Lemma elem_le_sum_Z (l : list Z) (c : Z) :
  Forall (fun x => 0 < x)%Z l -> c ∈ l ->
  (c <= sum_Z l)%Z /\ ((2 <= length l)%nat -> (c < sum_Z l)%Z).
Proof.
  intros Hpos Hin. apply list_elem_of_split in Hin as (l1 & l2 & ->).
  apply Forall_app in Hpos as [H1 H2]. apply Forall_cons in H2 as [Hc H2].
  rewrite sum_Z_app, sum_Z_cons.
  assert (forall l', Forall (fun x => 0 < x)%Z l' -> (0 <= sum_Z l')%Z) as Hnn.
  { intros l' Hl'. apply sum_Z_nonneg. eapply Forall_impl; [exact Hl'|]. simpl. lia. }
  pose proof (Hnn _ H1). pose proof (Hnn _ H2). split; [lia|].
  rewrite length_app. simpl. intros Hlen.
  destruct l1 as [|x l1].
  - destruct l2 as [|y l2]; [simpl in Hlen; lia|].
    pose proof (sum_Z_pos (y :: l2) H2 ltac:(done)). lia.
  - pose proof (sum_Z_pos (x :: l1) H1 ltac:(done)). lia.
Qed.

Lemma ln_2_pos : (0 < ln 2)%R.
Proof. rewrite <- ln_1. apply ln_increasing; lra. Qed.

(** One summand: defined, non-negative, and zero exactly for [c = n]. *)
Lemma entropy_term_spec (n c : Z) :
  (0 < c <= n)%Z ->
  exists t, entropy_term n c = Ok t /\ (0 <= t)%R /\
    ((c < n)%Z -> (0 < t)%R) /\ (c = n -> t = 0%R).
Proof.
  intros [Hc Hn]. unfold entropy_term, truediv_R.
  rewrite (proj2 (Z.eqb_neq n 0)) by lia. simpl.
  assert (0 < IZR c)%R as Hc' by (by apply IZR_lt).
  assert (IZR c <= IZR n)%R as Hn' by (by apply IZR_le).
  set (p := (IZR c / IZR n)%R).
  assert (p * IZR n = IZR c)%R as Hp by (unfold p; field; lra).
  assert (0 < p)%R as Hp0 by (apply Rdiv_lt_0_compat; lra).
  assert (p <= 1)%R as Hp1 by nra.
  unfold fdiv_R. destruct (Req_dec_T p 0) as [Hz|_]; [lra|]. simpl.
  set (q := (1 / p)%R).
  assert (q * p = 1)%R as Hq by (unfold q; field; lra).
  assert (1 <= q)%R as Hq1 by nra.
  unfold log2. destruct (Rle_dec q 0) as [Hz|_]; [lra|]. simpl.
  pose proof ln_2_pos as Hln2.
  assert (0 <= ln q)%R as Hlnq.
  { destruct (Req_dec_T q 1) as [->|Hne]; [rewrite ln_1; lra|].
    rewrite <- ln_1. left. apply ln_increasing; lra. }
  eexists. split; [done|]. split_and!.
  - apply Rmult_le_pos; [lra|]. unfold Rdiv. apply Rmult_le_pos; [lra|].
    left. apply Rinv_0_lt_compat. lra.
  - intros Hlt. apply IZR_lt in Hlt.
    assert (1 < q)%R as Hq2 by nra.
    apply Rmult_lt_0_compat; [done|]. apply Rdiv_lt_0_compat; [|done].
    rewrite <- ln_1. apply ln_increasing; lra.
  - intros ->. assert (q = 1)%R as -> by nra. rewrite ln_1. lra.
Qed.

Lemma sum_terms_spec (n : Z) (values : list Z) (acc : R) :
  (forall c, c ∈ values -> (0 < c <= n)%Z) ->
  exists h, sum_terms (entropy_term n) values acc = Ok h /\ (acc <= h)%R /\
    ((exists c, c ∈ values /\ (c < n)%Z) -> (acc < h)%R) /\
    ((forall c, c ∈ values -> c = n) -> h = acc).
Proof.
  revert acc. induction values as [|c values IH]; intros acc Hall.
  - exists acc. split_and!; [done|lra| |done].
    intros (c & Hc & _). by apply elem_of_nil in Hc.
  - simpl. destruct (entropy_term_spec n c) as (t & -> & Ht0 & Htpos & Htz).
    { apply Hall. by left. }
    simpl. destruct (IH (acc + t)%R) as (h & -> & Hle & Hlt & Heq).
    { intros c' Hc'. apply Hall. by right. }
    exists h. split_and!; [done|lra| |].
    + intros (c' & Hc' & Hlt'). apply elem_of_cons in Hc' as [->|Hc'].
      * specialize (Htpos Hlt'). lra.
      * assert (acc + t < h)%R; [|lra]. apply Hlt. eauto.
    + intros Hsame. rewrite Heq.
      * rewrite Htz; [lra|]. apply Hsame. by left.
      * intros c' Hc'. apply Hsame. by right.
Qed.

(** [calculate_entropy] on positive counts. *)
Lemma calculate_entropy_spec (counter : list (string * Z)) :
  Forall (fun x => 0 < x.2)%Z counter ->
  exists h, calculate_entropy counter = Ok h /\ (0 <= h)%R /\
    (h = 0%R <-> (length counter <= 1)%nat).
Proof.
  intros Hpos. unfold calculate_entropy, dict_values.
  assert (Forall (fun x => 0 < x)%Z counter.*2) as Hvals by (by apply Forall_fmap).
  destruct counter as [|[s c] counter].
  { exists 0%R. split_and!; [done|lra|]. simpl. split; [lia|done]. }
  set (values := ((s, c) :: counter).*2) in *.
  assert (0 < sum_Z values)%Z as Hn by (by apply sum_Z_pos).
  rewrite (proj2 (Z.eqb_neq _ 0)) by lia.
  destruct (sum_terms_spec (sum_Z values) values 0) as (h & -> & Hle & Hlt & Heq).
  { intros c' Hc'. split; [|by apply (elem_le_sum_Z values c' Hvals Hc')].
    by apply (proj1 (Forall_forall _ _) Hvals). }
  exists h. split_and!; [done|done|]. split.
  - intros ->. destruct counter as [|[s' c'] counter]; [simpl; lia|].
    exfalso. assert (0 < 0)%R; [|lra]. apply Hlt. exists c. split; [by left|].
    apply (elem_le_sum_Z values c Hvals); [by left|]. unfold values. simpl. lia.
  - intros Hlen. destruct counter as [|? counter]; [|simpl in Hlen; lia].
    apply Heq. intros c' Hc'. unfold values in *. simpl in *.
    apply list_elem_of_singleton in Hc'. subst. unfold sum_Z. simpl. lia.
Qed.

(** Two equally frequent symbols carry one bit. *)
Example calculate_entropy_two_symbols :
  calculate_entropy [("a", 1%Z); ("b", 1%Z)] = Ok 1%R.
Proof.
  unfold calculate_entropy.
  change (sum_Z (dict_values [("a"%string, 1%Z); ("b"%string, 1%Z)])) with 2%Z.
  unfold entropy_term, truediv_R, fdiv_R, log2. simpl.
  destruct (Req_dec_T (1 / 2) 0) as [Hz|_]; [lra|]. simpl.
  destruct (Rle_dec (1 / (1 / 2)) 0) as [Hz|_]; [lra|]. simpl.
  f_equal. replace (1 / (1 / 2))%R with 2%R by field.
  pose proof ln_2_pos. field. lra.
Qed.

(** A zero count makes [1 / (c / n)] divide by zero. *)
Example calculate_entropy_zero_count :
  calculate_entropy [("a", 0%Z); ("b", 1%Z)] = Raise ZeroDivisionError.
Proof.
  unfold calculate_entropy.
  change (sum_Z (dict_values [("a"%string, 0%Z); ("b"%string, 1%Z)])) with 1%Z.
  unfold entropy_term, truediv_R, fdiv_R. simpl.
  destruct (Req_dec_T (0 / 1) 0) as [_|Hz]; [done|]. exfalso. lra.
Qed.

End EntropyFacts.

(* ================================================================== *)
(** * Counting and ranking *)
(* ================================================================== *)

Section CounterFacts.

Lemma filter_all {A} (P : A -> Prop) `{forall x, Decision (P x)} (l : list A) :
  (forall x, x ∈ l -> P x) -> filter P l = l.
Proof.
  induction l as [|x l IH]; intros HP; [done|].
  rewrite filter_cons_True by (apply HP; by left).
  f_equal. apply IH. intros y Hy. apply HP. by right.
Qed.

Lemma Counter_fold (items : list string) (d : list (string * Z)) :
  NoDup (dict_keys d) ->
  NoDup (dict_keys (fold_left
    (fun counter elem =>
       dict_set counter elem (default 0%Z (dict_get counter elem) + 1)%Z) items d)) /\
  (forall s, counter_get (fold_left
    (fun counter elem =>
       dict_set counter elem (default 0%Z (dict_get counter elem) + 1)%Z) items d) s
     = (counter_get d s + occurrences s items)%Z) /\
  dict_keys (fold_left
    (fun counter elem =>
       dict_set counter elem (default 0%Z (dict_get counter elem) + 1)%Z) items d)
   = dict_keys d ++ filter (fun s => s ∉ dict_keys d) (first_seen items).
Proof.
  revert d. induction items as [|e items IH]; intros d Hnd.
  { simpl. split_and!; [done| |by rewrite app_nil_r].
    intros s. unfold occurrences. simpl. lia. }
  simpl fold_left.
  set (d1 := dict_set d e (default 0%Z (dict_get d e) + 1)%Z).
  assert (NoDup (dict_keys d1)) as Hnd1 by (by apply dict_set_keys_NoDup).
  destruct (IH d1 Hnd1) as (Hnd' & Hget & Hkeys). split_and!; [done| |].
  - intros s. rewrite Hget. unfold occurrences, counter_get, d1.
    destruct (decide (e = s)) as [->|Hne].
    + rewrite dict_get_set_eq, filter_cons_True by done. simpl. lia.
    + rewrite dict_get_set_ne, filter_cons_False by done. done.
  - rewrite Hkeys. simpl first_seen. unfold d1.
    destruct (decide (e ∈ dict_keys d)) as [Hin|Hnin].
    + rewrite dict_set_keys_present, filter_cons_False by (done || tauto).
      f_equal. rewrite list_filter_filter. apply list_filter_iff.
      intros y. split; [|tauto]. intros Hy. split; [done|]. by intros ->.
    + rewrite dict_set_absent by done.
      assert (forall v : Z, dict_keys (d ++ [(e, v)]) = dict_keys d ++ [e]) as Hsnoc.
      { intros v. unfold dict_keys. by rewrite fmap_app. }
      rewrite Hsnoc, <- app_assoc. simpl.
      rewrite filter_cons_True by done. do 2 f_equal.
      rewrite list_filter_filter. apply list_filter_iff.
      intros y. rewrite elem_of_app, list_elem_of_singleton. tauto.
Qed.

(** [Counter(items)]: one entry per distinct element, in first-seen order,
    holding the number of its occurrences. *)
Lemma Counter_spec (items : list string) :
  NoDup (dict_keys (Counter items)) /\
  (forall s, counter_get (Counter items) s = occurrences s items) /\
  dict_keys (Counter items) = first_seen items.
Proof.
  destruct (Counter_fold items []) as (Hnd & Hget & Hkeys); [constructor|].
  fold (Counter items) in *. split_and!; [done|done|].
  rewrite Hkeys. simpl. apply filter_all. intros s _. apply not_elem_of_nil.
Qed.

Lemma first_seen_elem (items : list string) (s : string) :
  s ∈ first_seen items <-> s ∈ items.
Proof.
  induction items as [|x items IH]; [done|].
  simpl. rewrite !elem_of_cons, list_elem_of_filter, IH.
  destruct (decide (s = x)); tauto.
Qed.

Lemma Counter_keys_elem (items : list string) (s : string) :
  s ∈ dict_keys (Counter items) <-> s ∈ items.
Proof.
  destruct (Counter_spec items) as (_ & _ & ->). apply first_seen_elem.
Qed.

(** The characters of a text are one-character strings, of which there
    are 256: the count of a text has 256 entries at most. *)
Lemma Counter_alphabet (text : string) :
  (length (Counter (chars_of text)) <= 256)%nat.
Proof.
  destruct (Counter_spec (chars_of text)) as (Hnd & _ & _).
  assert (forall s, s ∈ dict_keys (Counter (chars_of text)) ->
    exists c, s = String c "") as Hsingle.
  { intros s Hs. apply (proj1 (Counter_keys_elem _ _)) in Hs. clear Hnd.
    induction text as [|c text IH]; [by apply elem_of_nil in Hs|].
    simpl in Hs. apply elem_of_cons in Hs as [->|Hs]; [by exists c|auto]. }
  set (code := fun s : string =>
    match s with String c _ => nat_of_ascii c | EmptyString => 0%nat end).
  assert (NoDup (code <$> dict_keys (Counter (chars_of text)))) as Hcodes.
  { apply NoDup_fmap_2_strong; [|done].
    intros s s' [c ->]%Hsingle [c' ->]%Hsingle Heq. simpl in Heq.
    f_equal. rewrite <- (ascii_nat_embedding c), <- (ascii_nat_embedding c').
    by rewrite Heq. }
  assert (code <$> dict_keys (Counter (chars_of text)) ⊆+ seq 0 256) as Hsub.
  { apply NoDup_submseteq; [done|]. intros n Hn.
    apply list_elem_of_fmap in Hn as (s & -> & [c ->]%Hsingle).
    change (code (String c "")) with (nat_of_ascii c).
    apply elem_of_seq. pose proof (nat_ascii_bounded c). lia. }
  apply submseteq_length in Hsub.
  unfold dict_keys in Hsub. by rewrite !length_fmap, length_seq in Hsub.
Qed.

(** [round(0.2 * symbols_count)] is a number on every alphabet. *)
Lemma round_product_alphabet (n : nat) :
  (n <= 256)%nat ->
  exists rounded, round_product (float_of_decimal (2 # 10)) (Z.of_nat n) = Ok rounded.
Proof.
  intros Hn.
  assert (forallb (fun k =>
    match round_product (float_of_decimal (2 # 10)) (Z.of_nat k) with
    | Ok _ => true
    | Raise _ => false
    end) (seq 0 257) = true) as Hall by (by vm_compute).
  rewrite forallb_forall in Hall. specialize (Hall n).
  destruct (round_product _ _) as [rounded|e]; [by eexists|].
  discriminate Hall. apply in_seq. lia.
Qed.

(** Sorting by descending count is stable: entries of equal count keep
    their order. *)
Lemma insert_desc_stable {A} (key : A -> Z) (c : Z) (x : A) (l : list A) :
  filter (fun y => key y = c) (insert_desc key x l)
  = filter (fun y => key y = c) (x :: l).
Proof.
  induction l as [|y l IH]; [done|]. simpl insert_desc.
  destruct (key x <? key y)%Z eqn:Hlt; [|done]. apply Z.ltb_lt in Hlt.
  rewrite (filter_cons _ y), IH, !(filter_cons _ x), (filter_cons _ y).
  repeat case_decide; (done || lia).
Qed.

Lemma sorted_desc_stable {A} (key : A -> Z) (c : Z) (l : list A) :
  filter (fun y => key y = c) (sorted_desc key l) = filter (fun y => key y = c) l.
Proof.
  induction l as [|x l IH]; [done|]. simpl sorted_desc.
  rewrite insert_desc_stable, !(filter_cons _ x), IH. done.
Qed.

Lemma Counter_nonempty (text : string) :
  text <> ""%string -> Counter (chars_of text) <> [].
Proof.
  intros Hne Hnil. destruct (Counter_spec (chars_of text)) as (_ & _ & Hkeys).
  rewrite Hnil in Hkeys. destruct text as [|c text]; [done|]. done.
Qed.

Lemma counter_get_of_elem (counter : list (string * Z)) (s : string) (c : Z) :
  NoDup (dict_keys counter) -> (s, c) ∈ counter -> counter_get counter s = c.
Proof.
  intros Hnd Hin. unfold counter_get. by rewrite (dict_get_of_elem _ _ _ Hnd Hin).
Qed.

Lemma counter_get_absent (counter : list (string * Z)) (s : string) :
  s ∉ dict_keys counter -> counter_get counter s = 0%Z.
Proof.
  intros Hnin. unfold counter_get. by rewrite (proj2 (dict_get_None _ _) Hnin).
Qed.

(** In the ranking, every entry among the first [k] counts at least as
    much as every later one. *)
Lemma most_common_split (counter : list (string * Z)) (k : nat) x y :
  x ∈ take k (Workbook1.most_common counter) ->
  y ∈ drop k (Workbook1.most_common counter) -> (y.2 <= x.2)%Z.
Proof.
  intros Hx Hy.
  pose proof (sorted_desc_sorted snd counter) as Hs.
  fold (Workbook1.most_common counter) in Hs.
  rewrite <- (take_drop k (Workbook1.most_common counter)) in Hs.
  by apply (StronglySorted_app_1_elem_of _ _ _ _ _ Hs Hx Hy).
Qed.

(** [remove_by_frequency] on a non-empty text, its slices written with
    [take] and [drop]. *)
Lemma remove_by_frequency_nonempty (text mode : string) (frac : Q) :
  text <> ""%string ->
  Workbook1.remove_by_frequency text mode frac =
    (let counter := Counter (chars_of text) in
     rounded <- round_product frac (Z.of_nat (length counter)) ;;
     let n := Z.to_nat (Z.max 1 rounded) in
     let to_remove : gset string :=
       if String.eqb mode "top"
       then list_to_set (take n (Workbook1.most_common counter)).*1
       else list_to_set
              (drop (length counter - n) (Workbook1.most_common counter)).*1 in
     Ok (join (filter (fun c => c ∉ to_remove) (chars_of text)), to_remove)).
Proof.
  intros Hne. unfold Workbook1.remove_by_frequency.
  pose proof (Counter_nonempty text Hne) as Hc.
  destruct (Counter (chars_of text)) as [|e counter] eqn:Heq; [done|].
  cbv zeta.
  destruct (round_product frac (Z.of_nat (length (e :: counter))))
    as [rounded|err]; [|done].
  cbn [bind]. unfold slice_to, slice_from.
  set (rn := Z.max 1 rounded).
  assert (1 <= rn)%Z as Hrn by (unfold rn; lia).
  rewrite (proj2 (Z.leb_le 0 rn)) by lia.
  rewrite (proj2 (Z.leb_gt 0 (- rn))) by lia.
  assert (length (Workbook1.most_common (e :: counter)) = length (e :: counter)) as ->.
  { unfold Workbook1.most_common. by rewrite sorted_desc_perm. }
  replace (Z.to_nat (Z.of_nat (length (e :: counter)) + - rn))
    with (length (e :: counter) - Z.to_nat rn)%nat by lia.
  done.
Qed.

End CounterFacts.

(* ================================================================== *)
(** * The functions on small inputs *)
(* ================================================================== *)

Example Counter_abracadabra :
  Counter (chars_of "abracadabra")
  = [("a", 5%Z); ("b", 2%Z); ("r", 2%Z); ("c", 1%Z); ("d", 1%Z)].
Proof. vm_compute. reflexivity. Qed.

Example shannon_fano_abracadabra :
  Workbook2.calculate_shannon_fano 1000 (Counter (chars_of "abracadabra"))
  = Ok [("a", "00"); ("b", "01"); ("r", "10"); ("c", "110"); ("d", "111")].
Proof. vm_compute. reflexivity. Qed.

Example shannon_fano_round_trip_abracadabra :
  (codec <- Workbook2.calculate_shannon_fano 1000 (Counter (chars_of "abracadabra")) ;;
   bits <- Workbook2.encode (chars_of "abracadabra") codec ;;
   Workbook2.decode bits codec)
  = Ok "abracadabra"%string.
Proof. vm_compute. reflexivity. Qed.

Example shannon_fano_recursion_limit :
  Workbook2.calculate_shannon_fano 2 (Counter (chars_of "abracadabra"))
  = Raise RecursionError.
Proof. vm_compute. reflexivity. Qed.

Example huffman_abracadabra :
  bind (Workbook3.build_huffman_codes (chars_of "abracadabra")
          (Counter (chars_of "abracadabra")))
       (fun '(codes, encoded, _) => Ok (codes, encoded))
  = Ok ([("r", "000"); ("b", "001"); ("d", "010"); ("c", "011"); ("a", "1")],
        "10010001011101010010001"%string).
Proof. vm_compute. reflexivity. Qed.

Example huffman_round_trip_abracadabra :
  bind (Workbook3.build_huffman_codes (chars_of "abracadabra")
          (Counter (chars_of "abracadabra")))
       (fun '(codes, encoded, tree) => Workbook3.decode_text encoded tree)
  = Ok (chars_of "abracadabra").
Proof. vm_compute. reflexivity. Qed.

Example huffman_lengths_a5_b2_c1_d1 :
  bind (Workbook3.build_huffman_codes []
          [("a", 5%Z); ("b", 2%Z); ("c", 1%Z); ("d", 1%Z)])
       (fun '(codes, _, _) =>
          Ok (map (fun '(s, c) => (s, String.length c)) codes))
  = Ok [("a", 1%nat); ("d", 3%nat); ("c", 3%nat); ("b", 2%nat)].
Proof. vm_compute. reflexivity. Qed.

Example huffman_single_symbol :
  Workbook3.build_huffman_codes ["a"; "a"] [("a", 2%Z)]
  = Ok ([("a", "0")], "00"%string, Workbook3.mkNode (Some "a") 2 None None).
Proof. vm_compute. reflexivity. Qed.

Example encode_missing_x_y :
  Workbook2.encode ["a"; "x"; "c"; "y"; "x"] abc_codec
  = Raise (ValueError_missing {["x"%string; "y"%string]}).
Proof. vm_compute. reflexivity. Qed.

Example round_half_even :
  (round (5 # 2), round (7 # 2), round (34 # 25), round (-5 # 2), round (-1 # 3))
  = (2, 4, 1, -2, 0)%Z.
Proof. vm_compute. reflexivity. Qed.

Example remove_bottom_half :
  Workbook1.remove_by_frequency "aaabbbccd" "bottom" (1 # 2)
  = Ok ("aaabbb"%string, {["c"%string; "d"%string]}).
Proof. vm_compute. reflexivity. Qed.

(** The float of the literal [0.7], its products with 5 and with 45, and
    the quotient [(2 ^ 54 + 6) / 2], which is rounded up by one. *)
Example b64_round_values :
  Qred (float_of_decimal (7 # 10)) = (3152519739159347 # 4503599627370496)%Q
  /\ option_map Qred (b64_round (float_of_decimal (7 # 10) * 5)) = Some (7 # 2)%Q
  /\ option_map Qred (b64_round (float_of_decimal (7 # 10) * 45))
     = Some (8866461766385663 # 281474976710656)%Q
  /\ option_map Qred (b64_round (inject_Z (2 ^ 54 + 6) / 2))
     = Some (inject_Z (2 ^ 53 + 4))
  /\ b64_round (inject_Z (2 ^ 1024 - 2 ^ 970)) = None
  /\ option_map Qred (b64_round (inject_Z (2 ^ 1024 - 2 ^ 970 - 1))) = Some b64_max.
Proof. vm_compute. repeat split; reflexivity. Qed.

Example remove_by_frequency_overflow :
  Workbook1.remove_by_frequency "ab" "top" (float_of_decimal (inject_Z (10 ^ 308)))
  = Raise OverflowError.
Proof. vm_compute. reflexivity. Qed.

Example avg_code_length_abca :
  Workbook2.avg_code_length abc_codec (Counter (chars_of "abca")) = Ok (96 # 64).
Proof. vm_compute. reflexivity. Qed.

Example huffman_chars_outside_the_count :
  Workbook3.build_huffman_codes ["a"; "z"] [("a", 1%Z); ("b", 1%Z)]
  = Raise (KeyError "z").
Proof. vm_compute. reflexivity. Qed.

(* ================================================================== *)
(** * The claims *)
(* ================================================================== *)

(** C1: for every sequence whose symbols all have a codeword in a Codec
    (a dictionary that is injective, has no empty codeword, and in which no
    codeword is a proper prefix of another), [encode] succeeds and [decode]
    applied to its output collects exactly the sequence and returns it
    joined; for the characters of a [str] that is the [str] itself. *)
Theorem decode_encode_round_trip (text : list string) (codec : list (string * string)) :
  Codec codec -> covered text codec ->
  exists bits, Workbook2.encode text codec = Ok bits /\
    Workbook2.decode_symbols bits codec = text /\
    Workbook2.decode bits codec = Ok (join text) /\
    (forall s, text = chars_of s -> Workbook2.decode bits codec = Ok s).
Proof.
  intros Hcodec Hcov. rewrite encode_covered, lookup_join_covered by done.
  eexists. split; [done|].
  assert (Workbook2.decode_symbols (join (codeword codec <$> text)) codec = text) as Hsym.
  { apply decode_symbols_lookup_join; [done|]. by apply lookup_join_covered. }
  split; [done|]. unfold Workbook2.decode. rewrite Hsym. split; [done|].
  intros s ->. by rewrite join_chars_of.
Qed.

Lemma decode_encode_round_trip_witness :
  exists bits, Workbook2.encode ["a"; "b"; "c"; "a"] abc_codec = Ok bits /\
    Workbook2.decode_symbols bits abc_codec = ["a"; "b"; "c"; "a"] /\
    Workbook2.decode bits abc_codec = Ok (join ["a"; "b"; "c"; "a"]) /\
    (forall s, ["a"; "b"; "c"; "a"] = chars_of s ->
       Workbook2.decode bits abc_codec = Ok s).
Proof.
  apply (decode_encode_round_trip ["a"; "b"; "c"; "a"] abc_codec).
  - apply codec_ok_Codec. vm_compute. reflexivity.
  - repeat constructor; vm_compute; eauto.
Defined.

(** C8: [encode] raises exactly when some symbol of the input has no
    codeword, and the [ValueError] then reports the set of the input's
    symbols without a codeword; otherwise it returns the codewords of the
    symbols, concatenated in input order. *)
Theorem encode_missing_symbol (text : list string) (codec : list (string * string)) :
  (raises (Workbook2.encode text codec) <->
     exists char, char ∈ text /\ dict_get codec char = None) /\
  (~ covered text codec ->
     exists missing : gset string,
       Workbook2.encode text codec = Raise (ValueError_missing missing) /\
       forall char, char ∈ missing <-> char ∈ text /\ dict_get codec char = None) /\
  (covered text codec ->
     Workbook2.encode text codec = Ok (join (codeword codec <$> text))).
Proof.
  assert (~ covered text codec <->
    exists char, char ∈ text /\ dict_get codec char = None) as Hiff.
  { unfold covered. split.
    - intros Hcov%(not_Forall_Exists _)%Exists_exists.
      destruct Hcov as (char & Hin & Hnone). exists char. split; [done|].
      simpl in Hnone. by apply eq_None_not_Some.
    - intros (char & Hin & Hnone) Hcov. rewrite Forall_forall in Hcov.
      destruct (Hcov _ Hin). congruence. }
  split_and!.
  - rewrite <- Hiff. destruct (decide (covered text codec)) as [Hcov|Hcov].
    + rewrite encode_covered, lookup_join_covered by done. simpl. tauto.
    + rewrite encode_not_covered by done. simpl. tauto.
  - intros Hcov. eexists. split; [by apply encode_not_covered|].
    apply elem_of_missing.
  - intros Hcov. by rewrite encode_covered, lookup_join_covered.
Qed.

(** [build_huffman_codes] on a non-empty dictionary whose keys include
    every element of [chars]. *)
Lemma build_huffman_codes_Ok (chars : list string) (counter : list (string * Z)) :
  NoDup (dict_keys counter) -> counter <> [] ->
  Forall (fun c => c ∈ dict_keys counter) chars ->
  exists root,
    huff_tree root /\ leaves root ≡ₚ dict_keys counter /\
    ((2 <= length counter)%nat -> Workbook3.char root = None) /\
    Workbook3.build_huffman_codes chars counter =
      Ok (codes_of root "", join (codeword (codes_of root "") <$> chars), root).
Proof.
  intros Hnd Hne Hchars.
  destruct (build_huffman_codes_spec chars counter Hnd Hne)
    as (root & Htree & Hleaves & Hroot & ->).
  exists root. split_and!; [done..|].
  rewrite lookup_join_covered; [done|].
  unfold covered. eapply Forall_impl; [exact Hchars|]. simpl.
  intros c Hc. apply dict_get_is_Some. unfold dict_keys.
  by rewrite codes_of_keys, Hleaves.
Qed.

(** C2 is what the code sets out to do and misses on large counts: on
    [Counter({'a': 2**53 + 3, 'b': 2**53 + 3})], a FrequencyCount with two
    distinct symbols and positive counts, the test [acc >= total / 2] of
    [split] compares with a float, the quotient rounded to [2 ^ 53 + 4],
    which the first count does not reach although it is half the total.
    The cut then falls after the last symbol, [left] is the whole group
    again, and [calculate_shannon_fano] ends in [RecursionError] under
    every recursion limit: the Shannon-Fano builder produces no codec.  The
    Huffman builder, which adds and compares ints only, returns a Codec on
    the same count. *)
Theorem shannon_fano_recursion_error :
  NoDup (dict_keys big_counter) /\ (2 <= length big_counter)%nat /\
  Forall (fun x => 0 < x.2)%Z big_counter /\
  (2 * (big_counter.*2 !!! 0%nat) = sum_Z big_counter.*2)%Z /\
  (exists half, truediv_b64 (sum_Z big_counter.*2) 2 = Ok half /\
     half == inject_Z (2 ^ 53 + 4) /\
     Qle_bool half (inject_Z (big_counter.*2 !!! 0%nat)) = false) /\
  Workbook2.find_cut big_counter (sum_Z big_counter.*2) 0 0
    = Ok (Z.of_nat (length big_counter)) /\
  (forall limit,
     Workbook2.calculate_shannon_fano limit big_counter = Raise RecursionError) /\
  (exists codes encoded root,
     Workbook3.build_huffman_codes [] big_counter = Ok (codes, encoded, root) /\
     dict_keys codes ≡ₚ dict_keys big_counter /\ Codec codes).
Proof.
  split_and!.
  - apply (bool_decide_unpack _). by vm_compute.
  - simpl. lia.
  - repeat constructor.
  - by vm_compute.
  - eexists. split_and!; by vm_compute.
  - apply find_cut_big_counter.
  - intros limit. unfold Workbook2.calculate_shannon_fano.
    change (sorted_desc snd big_counter) with big_counter.
    by apply split_big_counter.
  - destruct (build_huffman_codes_Ok [] big_counter)
      as (root & Htree & Hleaves & _ & ->); [|done|constructor|].
    { apply (bool_decide_unpack _). by vm_compute. }
    eexists _, _, _. split; [done|]. split.
    + unfold dict_keys at 1. by rewrite codes_of_keys.
    + apply codes_of_Codec; [done|]. rewrite Hleaves.
      apply (bool_decide_unpack _). by vm_compute.
Qed.

(** C4: [build_huffman_codes] raises ([IndexError], at [nodes[0]]) on an
    empty FrequencyCount, and on every FrequencyCount with at least one
    symbol it returns a table, the encoding of [chars] and the root of a
    Huffman tree whose leaves are the symbols of the count.  [chars] is the
    sequence the count was taken from: its elements are keys of the count. *)
Theorem build_huffman_codes_empty_or_ok (chars : list string)
  (counter : list (string * Z)) :
  NoDup (dict_keys counter) -> counter <> [] ->
  Forall (fun c => c ∈ dict_keys counter) chars ->
  (forall chars', Workbook3.build_huffman_codes chars' [] = Raise IndexError) /\
  (exists codes encoded root,
     Workbook3.build_huffman_codes chars counter = Ok (codes, encoded, root) /\
     huff_tree root /\ leaves root ≡ₚ dict_keys counter /\
     codes = codes_of root "" /\ lookup_join codes chars = Ok encoded).
Proof.
  intros Hnd Hne Hchars. split; [done|].
  destruct (build_huffman_codes_Ok chars counter Hnd Hne Hchars)
    as (root & Htree & Hleaves & _ & ->).
  eexists _, _, _. split_and!; [done..|].
  apply lookup_join_covered. unfold covered.
  eapply Forall_impl; [exact Hchars|]. simpl.
  intros c Hc. apply dict_get_is_Some. unfold dict_keys.
  by rewrite codes_of_keys, Hleaves.
Qed.

Lemma build_huffman_codes_empty_or_ok_witness :
  (forall chars', Workbook3.build_huffman_codes chars' [] = Raise IndexError) /\
  (exists codes encoded root,
     Workbook3.build_huffman_codes ["a"] [("a", 5%Z)] = Ok (codes, encoded, root) /\
     huff_tree root /\ leaves root ≡ₚ dict_keys [("a", 5%Z)] /\
     codes = codes_of root "" /\ lookup_join codes ["a"] = Ok encoded).
Proof.
  apply (build_huffman_codes_empty_or_ok ["a"] [("a", 5%Z)]).
  - apply (bool_decide_unpack _). vm_compute. exact I.
  - discriminate.
  - repeat constructor.
Defined.

(** C9: for the tree and the table that [build_huffman_codes] returns
    together on a FrequencyCount with at least two distinct symbols
    (symbols being non-empty strings), and for every bitstring that is the
    concatenation of the codewords of a symbol sequence, walking the tree
    ([decode_text], '1' to the left child, '0' to the right one) and the
    inverse-table [decode] yield the same symbols: that sequence. *)
Theorem tree_decode_agrees_with_table_decode (chars : list string)
  (counter : list (string * Z)) (codes : list (string * string))
  (encoded : string) (root : Workbook3.Node) (text : list string) (bits : string) :
  NoDup (dict_keys counter) -> (2 <= length counter)%nat ->
  Forall (fun s => s <> "") (dict_keys counter) ->
  Workbook3.build_huffman_codes chars counter = Ok (codes, encoded, root) ->
  lookup_join codes text = Ok bits ->
  Workbook3.decode_text bits root = Ok (Workbook2.decode_symbols bits codes) /\
  Workbook3.decode_text bits root = Ok text /\
  Workbook2.decode bits codes = Ok (join text).
Proof.
  intros Hnd Hlen Hne Hbuild Hbits.
  destruct (build_huffman_codes_spec chars counter)
    as (tree & Htree & Hleaves & Hroot & Heq); [done| |].
  { intros ->. simpl in Hlen. lia. }
  rewrite Heq in Hbuild.
  destruct (lookup_join (codes_of tree "") chars) as [enc|]; [|done].
  simpl in Hbuild. simplify_eq.
  assert (Codec (codes_of root "")) as Hcodec.
  { apply codes_of_Codec; [done|]. by rewrite Hleaves. }
  assert (Workbook2.decode_symbols bits (codes_of root "") = text) as Hsym.
  { by apply decode_symbols_lookup_join. }
  assert (Workbook3.decode_text bits root = Ok text) as Htext.
  { unfold Workbook3.decode_text.
    rewrite (decode_text_loop_lookup_join root text bits []); [done|done|auto| | |done].
    - by rewrite Hleaves.
    - by rewrite Hleaves. }
  split_and!; [by rewrite Hsym|done|].
  unfold Workbook2.decode. by rewrite Hsym.
Qed.

Lemma tree_decode_agrees_with_table_decode_witness :
  exists codes root,
    Workbook3.build_huffman_codes [] abc_counter = Ok (codes, ""%string, root) /\
    Workbook3.decode_text "100011" root = Ok (Workbook2.decode_symbols "100011" codes) /\
    Workbook3.decode_text "100011" root = Ok ["a"; "c"; "b"; "a"] /\
    Workbook2.decode "100011" codes = Ok (join ["a"; "c"; "b"; "a"]).
Proof.
  eexists _, _. split; [vm_compute; reflexivity|].
  eapply (tree_decode_agrees_with_table_decode [] abc_counter).
  - apply (bool_decide_unpack _). vm_compute. exact I.
  - simpl. lia.
  - repeat constructor; discriminate.
  - vm_compute. reflexivity.
  - vm_compute. reflexivity.
Defined.

(** C3, as stated, fails: with the table a -> 0, b -> 10 the bitstring "1"
    is no concatenation of codewords, the loop of [decode] ends with the
    buffer "1", which matches no codeword, and [decode] returns the empty
    text instead of raising.  [decode_text] does the same on the Huffman
    tree of a:2, b:1, c:1 and the bitstring "0". *)
Lemma decode_corrupt_stream_counterexample :
  (~ exists text, lookup_join ab_codec text = Ok "1"%string) /\
  Workbook2.decode_loop (Workbook2.reversed_codec ab_codec) "1" [] ""
    = ([], "1"%string) /\
  dict_get (Workbook2.reversed_codec ab_codec) "1" = None /\
  Workbook2.decode "1" ab_codec = Ok ""%string /\
  ~ raises (Workbook2.decode "1" ab_codec) /\
  Workbook3.build_huffman_codes [] abc_counter = Ok (abc_huffman, ""%string, abc_tree) /\
  (~ exists text, lookup_join abc_huffman text = Ok "0"%string) /\
  Workbook3.decode_text "0" abc_tree = Ok [] /\
  ~ raises (Workbook3.decode_text "0" abc_tree).
Proof.
  split_and!; try (vm_compute; reflexivity); try (by intros []); no_parse.
Qed.

(** C3, amended: [decode] never raises.  When the input is a part that
    decodes with an empty buffer followed by a tail none of whose non-empty
    prefixes is in the inverse table, the loop ends with that tail as its
    buffer, and [decode] returns what the first part decodes to: the tail
    is discarded.  [decode_text] returns on every bitstring as well, when
    the root of the Huffman tree is a merged node and no symbol is the
    empty string. *)
Theorem decode_discards_unmatched_tail (codec : list (string * string))
  (bits tail : string) :
  (Workbook2.decode_loop (Workbook2.reversed_codec codec) bits [] "").2 = ""%string ->
  (forall p, p <> ""%string -> is_prefix p tail ->
     dict_get (Workbook2.reversed_codec codec) p = None) ->
  Workbook2.decode_loop (Workbook2.reversed_codec codec) (bits +:+ tail) [] ""
    = (Workbook2.decode_symbols bits codec, tail) /\
  Workbook2.decode (bits +:+ tail) codec = Workbook2.decode bits codec /\
  ~ raises (Workbook2.decode (bits +:+ tail) codec) /\
  (forall tree bits',
     huff_tree tree -> Workbook3.char tree = None ->
     Forall (fun s => s <> ""%string) (leaves tree) ->
     exists out, Workbook3.decode_text bits' tree = Ok out).
Proof.
  intros Hbuf Htail.
  assert (Workbook2.decode_loop (Workbook2.reversed_codec codec) (bits +:+ tail) [] ""
    = (Workbook2.decode_symbols bits codec, tail)) as Hloop.
  { rewrite decode_loop_app, Hbuf. by rewrite decode_loop_unmatched. }
  split_and!; [done| |by intros []|].
  - unfold Workbook2.decode, Workbook2.decode_symbols at 1. by rewrite Hloop.
  - intros tree bits' Htree Hroot Hne. by apply decode_text_loop_total.
Qed.

Lemma decode_discards_unmatched_tail_witness :
  Workbook2.decode_loop (Workbook2.reversed_codec ab_codec) ("0" +:+ "1") [] ""
    = (Workbook2.decode_symbols "0" ab_codec, "1"%string) /\
  Workbook2.decode ("0" +:+ "1") ab_codec = Workbook2.decode "0" ab_codec /\
  ~ raises (Workbook2.decode ("0" +:+ "1") ab_codec) /\
  (forall tree bits',
     huff_tree tree -> Workbook3.char tree = None ->
     Forall (fun s => s <> ""%string) (leaves tree) ->
     exists out, Workbook3.decode_text bits' tree = Ok out).
Proof.
  apply (decode_discards_unmatched_tail ab_codec "0" "1").
  - vm_compute. reflexivity.
  - intros p Hp [k Hk]. destruct p as [|a [|b p]]; [done| |discriminate].
    rewrite str_app_cons in Hk. injection Hk as <- _. vm_compute. reflexivity.
Defined.

(** C5, as stated, fails for [calculate_avg_length], which divides by
    [len(text)] and not by the sum of the counts: for the text "ab", its
    bigram count ab:1 and the table ab -> 0 it returns 1/2, while
    [Σ count[s]/total · len(code[s])] is 1. *)
Lemma calculate_avg_length_counterexample :
  (0 < sum_Z (dict_values [("ab"%string, 1%Z)]))%Z /\
  Workbook3.calculate_avg_length "ab" [("ab", "0")] [("ab", 1%Z)] = Ok (1 # 2) /\
  average_code_length_spec [("ab", "0")] [("ab", 1%Z)] == 1 /\
  ~ (Qabs ((1 # 2) - 1) <= 1 # 1000000000)%Q.
Proof.
  split_and!; [done|by vm_compute|by vm_compute|].
  intros Hle. by vm_compute in Hle.
Qed.

(** C5, amended: for a codec and a count with positive total,
    [avg_code_length] returns [Σ count[s]/total · len(code[s])] over the
    symbols present in both, [total] being the sum of all counts;
    [calculate_avg_length] returns the same sum with [len(text)] in the
    place of [total], hence the same value whenever [len(text)] equals the
    sum of the counts.  In exact arithmetic the values are equal, so within
    any tolerance. *)
Theorem average_code_length_formula (text : string)
  (codec : list (string * string)) (counter : list (string * Z)) :
  NoDup (dict_keys codec) -> NoDup (dict_keys counter) ->
  (0 < sum_Z (dict_values counter))%Z ->
  (exists q, Workbook2.avg_code_length codec counter = Ok q /\
     q == average_code_length_spec codec counter /\
     (Qabs (q - average_code_length_spec codec counter) <= 1 # 1000000000)%Q) /\
  (text <> ""%string ->
   exists q, Workbook3.calculate_avg_length text codec counter = Ok q /\
     q == weighted_length (Z.of_nat (String.length text)) codec counter /\
     (Z.of_nat (String.length text) = sum_Z (dict_values counter) ->
      q == average_code_length_spec codec counter /\
      (Qabs (q - average_code_length_spec codec counter) <= 1 # 1000000000)%Q)).
Proof.
  intros Hcodec Hcounter Htotal.
  assert (forall q r : Q, (q == r)%Q -> (Qabs (q - r) <= 1 # 1000000000)%Q) as Htol.
  { intros q r Hqr. assert (q - r == 0)%Q as -> by (rewrite Hqr; ring). done. }
  split.
  - unfold Workbook2.avg_code_length.
    rewrite (proj2 (Z.eqb_neq _ 0)) by lia.
    destruct (avg_sum_spec counter (sum_Z (dict_values counter)) codec 0)
      as (q & -> & Hq); [lia|].
    assert (q == average_code_length_spec codec counter)%Q as Heq.
    { rewrite Hq, sum_over_codec_weighted_length by done.
      unfold average_code_length_spec. ring. }
    exists q. auto.
  - intros Htext. unfold Workbook3.calculate_avg_length.
    destruct (avg_loop_spec counter (Z.of_nat (String.length text)) codec 0)
      as (q & -> & Hq).
    { destruct text; [done|]. simpl. lia. }
    assert (q == weighted_length (Z.of_nat (String.length text)) codec counter)%Q as Heq.
    { rewrite Hq, sum_over_codec_weighted_length by done. ring. }
    exists q. split_and!; [done..|].
    intros Hlen. unfold average_code_length_spec. rewrite <- Hlen. auto.
Qed.

Lemma average_code_length_formula_witness :
  (exists q, Workbook2.avg_code_length abc_codec abc_counter = Ok q /\
     q == average_code_length_spec abc_codec abc_counter /\
     (Qabs (q - average_code_length_spec abc_codec abc_counter) <= 1 # 1000000000)%Q) /\
  ("abca"%string <> ""%string ->
   exists q, Workbook3.calculate_avg_length "abca" abc_codec abc_counter = Ok q /\
     q == weighted_length (Z.of_nat (String.length "abca")) abc_codec abc_counter /\
     (Z.of_nat (String.length "abca") = sum_Z (dict_values abc_counter) ->
      q == average_code_length_spec abc_codec abc_counter /\
      (Qabs (q - average_code_length_spec abc_codec abc_counter) <= 1 # 1000000000)%Q)).
Proof.
  apply (average_code_length_formula "abca" abc_codec abc_counter).
  - apply (bool_decide_unpack _). vm_compute. exact I.
  - apply (bool_decide_unpack _). vm_compute. exact I.
  - vm_compute. reflexivity.
Defined.

(** C6: on a FrequencyCount whose counts are all positive,
    [calculate_entropy] (the same function in Workbook1 and Workbook2)
    returns a value that is at least 0, and that is 0 exactly when there
    is at most one distinct symbol; whenever the total is 0 it returns 0. *)
Theorem entropy_nonneg_zero_iff (counter : list (string * Z)) :
  Forall (fun x => 0 < x.2)%Z counter ->
  (exists h, Workbook1.calculate_entropy counter = Ok h /\ (0 <= h)%R /\
     (h = 0%R <-> (length counter <= 1)%nat)) /\
  Workbook2.calculate_entropy counter = Workbook1.calculate_entropy counter /\
  (sum_Z (dict_values counter) = 0%Z ->
   Workbook1.calculate_entropy counter = Ok 0%R).
Proof.
  intros Hpos. split_and!; [by apply calculate_entropy_spec|done|].
  intros Hzero. unfold Workbook1.calculate_entropy. by rewrite Hzero.
Qed.

Lemma entropy_nonneg_zero_iff_witness :
  (exists h, Workbook1.calculate_entropy abc_counter = Ok h /\ (0 <= h)%R /\
     (h = 0%R <-> (length abc_counter <= 1)%nat)) /\
  Workbook2.calculate_entropy abc_counter = Workbook1.calculate_entropy abc_counter /\
  (sum_Z (dict_values abc_counter) = 0%Z ->
   Workbook1.calculate_entropy abc_counter = Ok 0%R).
Proof.
  apply (entropy_nonneg_zero_iff abc_counter).
  repeat constructor.
Defined.

(** C7, as stated, fails, within the documented share already: the code
    rounds the float product [frac * symbols_count], not the product of the
    numbers.  At [0.7] on the 45 distinct symbols of [text45] the formula
    gives max(1, round(31.5)) = 32 and the code removes 31, the float
    product being 31.499999999999996.  Read with the value of the float
    [0.7], a little below 7/10, the formula gives 3 on "abcde", where the
    code removes 4, the float product being 3.5.  And above the share, at
    fraction 2 on "ab", removeCount is 4 while the text has 2 distinct
    symbols and exactly those 2 are removed. *)
Lemma remove_by_frequency_counterexample :
  (float_of_decimal (7 # 10) <= 1)%Q /\
  remove_count (7 # 10) (length (Counter (chars_of text45))) = 32%nat /\
  (exists filtered removed,
     Workbook1.remove_by_frequency text45 "top" (float_of_decimal (7 # 10))
       = Ok (filtered, removed) /\ size removed = 31%nat) /\
  remove_count (float_of_decimal (7 # 10)) (length (Counter (chars_of "abcde")))
    = 3%nat /\
  (exists filtered removed,
     Workbook1.remove_by_frequency "abcde" "top" (float_of_decimal (7 # 10))
       = Ok (filtered, removed) /\ size removed = 4%nat) /\
  remove_count 2 (length (Counter (chars_of "ab"))) = 4%nat /\
  Workbook1.remove_by_frequency "ab" "top" 2
    = Ok (""%string, {["a"%string; "b"%string]}).
Proof.
  split_and!; try (by vm_compute).
  - eexists _, _. split; [vm_compute; reflexivity|]. by vm_compute.
  - eexists _, _. split; [vm_compute; reflexivity|]. by vm_compute.
Qed.

(** C7, amended: on a non-empty text, with the symbols ranked by descending
    count, equal counts in the order of first occurrence, and with
    removeCount = max(1, round(p)), where p is the float nearest to
    fraction · distinctSymbolCount (the product as binary64 gives it;
    distinctSymbolCount itself is a float), [remove_by_frequency] removes
    the first removeCount symbols of the ranking for top and the last
    removeCount for bottom, all of them when there are fewer:
    min(removeCount, distinctSymbolCount) symbols, hence exactly
    removeCount whenever fraction <= 1.  No removed symbol counts less
    (top) or more (bottom) than a retained one.  The returned text is the
    input without the occurrences of the removed symbols, the rest in
    order.  When the product is beyond the largest float, [round] raises
    [OverflowError].  In particular "aaabbbccd", top, 0.34 removes 'a'
    alone and returns "bbbccd". *)
Theorem remove_by_frequency_spec (text mode : string) (frac : Q) :
  text <> ""%string -> mode = "top"%string \/ mode = "bottom"%string ->
  let counter := Counter (chars_of text) in
  let distinct := length counter in
  let ranking := Workbook1.most_common counter in
  dict_keys counter = first_seen (chars_of text) /\
  (forall s, counter_get counter s = occurrences s (chars_of text)) /\
  ranking ≡ₚ counter /\ StronglySorted (desc snd) ranking /\
  (forall c, filter (fun x => x.2 = c) ranking = filter (fun x => x.2 = c) counter) /\
  (exists symbols_count,
     float_of_int (Z.of_nat distinct) = Ok symbols_count /\
     symbols_count == inject_Z (Z.of_nat distinct) /\
     (b64_round (frac * symbols_count) = None ->
      Workbook1.remove_by_frequency text mode frac = Raise OverflowError) /\
     (forall product, b64_round (frac * symbols_count) = Some product ->
      let n := Z.to_nat (Z.max 1 (round product)) in
      exists filtered removed,
        Workbook1.remove_by_frequency text mode frac = Ok (filtered, removed) /\
        size removed = (n `min` distinct)%nat /\
        ((frac <= 1)%Q -> size removed = n) /\
        (mode = "top"%string -> forall s, s ∈ removed <-> s ∈ (take n ranking).*1) /\
        (mode = "bottom"%string ->
           forall s, s ∈ removed <-> s ∈ (drop (distinct - n) ranking).*1) /\
        (mode = "top"%string -> forall s s', s ∈ removed -> s' ∉ removed ->
           (counter_get counter s' <= counter_get counter s)%Z) /\
        (mode = "bottom"%string -> forall s s', s ∈ removed -> s' ∉ removed ->
           s' ∈ dict_keys counter ->
           (counter_get counter s <= counter_get counter s')%Z) /\
        filtered = join (filter (fun c => c ∉ removed) (chars_of text)))) /\
  Workbook1.remove_by_frequency "aaabbbccd" "top" (float_of_decimal (34 # 100))
    = Ok ("bbbccd"%string, {["a"%string]}).
Proof.
  intros Hne Hmode counter distinct ranking.
  destruct (Counter_spec (chars_of text)) as (Hnd & Hget & Hkeys).
  fold counter in Hnd, Hget, Hkeys.
  assert (ranking ≡ₚ counter) as Hperm by apply sorted_desc_perm.
  assert (NoDup ranking.*1) as Hndr by (by rewrite Hperm).
  assert (length ranking = distinct) as Hlen by (by rewrite Hperm).
  assert (1 <= distinct)%nat as Hd.
  { pose proof (Counter_nonempty text Hne) as Hc. unfold distinct.
    fold counter in Hc. destruct counter; [done|simpl; lia]. }
  assert (distinct <= 256)%nat as Hd256 by apply Counter_alphabet.
  assert (forall s c, (s, c) ∈ ranking -> counter_get counter s = c) as Hcount.
  { intros s c Hin. apply counter_get_of_elem; [done|]. by rewrite <- Hperm. }
  split_and!; [done|done|done|apply sorted_desc_sorted| | |by vm_compute].
  { intros c. apply sorted_desc_stable. }
  destruct (float_of_int_exact (Z.of_nat distinct)) as (symbols_count & Hfloat & Hexact).
  { split; [lia|]. apply Z.le_lt_trans with 256%Z; [lia|done]. }
  exists symbols_count. split_and!; [done|done| |].
  { intros Hnone. rewrite remove_by_frequency_nonempty by done. cbv zeta.
    fold counter distinct. unfold round_product. rewrite Hfloat. cbn [bind].
    by rewrite Hnone. }
  intros product Hproduct n.
  set (removed := (if String.eqb mode "top" then list_to_set (take n ranking).*1
    else list_to_set (drop (distinct - n) ranking).*1) : gset string).
  exists (join (filter (fun c => c ∉ removed) (chars_of text))), removed.
  assert (size removed = (n `min` distinct)%nat) as Hsize.
  { unfold removed. destruct Hmode as [-> | ->]; simpl.
    - rewrite size_list_to_set.
      + by rewrite length_fmap, length_take, Hlen.
      + rewrite fmap_take. eapply sublist_NoDup; [done|apply sublist_take].
    - rewrite size_list_to_set.
      + rewrite length_fmap, length_drop, Hlen. lia.
      + rewrite fmap_drop. eapply sublist_NoDup; [done|apply sublist_drop]. }
  split_and!; [|done| | | | |  |done].
  - rewrite remove_by_frequency_nonempty by done. cbv zeta.
    fold counter distinct ranking. unfold round_product. rewrite Hfloat. cbn [bind].
    by rewrite Hproduct.
  - intros Hfrac. rewrite Hsize.
    assert (round product <= Z.of_nat distinct)%Z as Hround; [|lia].
    apply round_le.
    apply (b64_round_le_int (frac * symbols_count)); [|  |done].
    { split; [lia|]. apply Z.le_lt_trans with 256%Z; [lia|done]. }
    assert (0 <= inject_Z (Z.of_nat distinct))%Q as Hd0.
    { rewrite <- (Zle_Qle 0). lia. }
    rewrite Hexact.
    pose proof (Qmult_le_compat_r _ _ _ Hfrac Hd0) as Hmul. Lqa.lra.
  - intros -> s. apply elem_of_list_to_set.
  - intros -> s. apply elem_of_list_to_set.
  - intros -> s s' Hs Hs'. unfold removed in Hs, Hs'. simpl in Hs, Hs'.
    rewrite elem_of_list_to_set in Hs, Hs'.
    apply list_elem_of_fmap in Hs as ([s0 c] & -> & Hin). simpl in *.
    rewrite (Hcount s0 c) by (eapply subseteq_take; done).
    destruct (decide (s' ∈ dict_keys counter)) as [Hk|Hk].
    + unfold dict_keys in Hk. rewrite <- Hperm in Hk.
      apply list_elem_of_fmap in Hk as ([s1 c'] & -> & Hin'). simpl in *.
      rewrite (Hcount s1 c') by done.
      rewrite <- (take_drop n ranking) in Hin'. apply elem_of_app in Hin' as [Hin'|Hin'].
      * destruct Hs'. apply list_elem_of_fmap. by exists (s1, c').
      * apply (most_common_split counter n (s0, c) (s1, c') Hin Hin').
    + rewrite counter_get_absent by done.
      rewrite <- (Hcount s0 c) by (eapply subseteq_take; done).
      rewrite Hget. unfold occurrences. lia.
  - intros -> s s' Hs Hs' Hk. unfold removed in Hs, Hs'. simpl in Hs, Hs'.
    rewrite elem_of_list_to_set in Hs, Hs'.
    apply list_elem_of_fmap in Hs as ([s0 c] & -> & Hin). simpl in *.
    assert ((s0, c) ∈ ranking) as Hin0.
    { rewrite <- (take_drop (distinct - n) ranking). apply elem_of_app. by right. }
    rewrite (Hcount s0 c) by done.
    unfold dict_keys in Hk. rewrite <- Hperm in Hk.
    apply list_elem_of_fmap in Hk as ([s1 c'] & -> & Hin'). simpl in *.
    rewrite (Hcount s1 c') by done.
    rewrite <- (take_drop (distinct - n) ranking) in Hin'.
    apply elem_of_app in Hin' as [Hin'|Hin'].
    + apply (most_common_split counter (distinct - n) (s1, c') (s0, c) Hin' Hin).
    + destruct Hs'. apply list_elem_of_fmap. by exists (s1, c').
Qed.

Lemma remove_by_frequency_spec_witness :
  let text := "aaabbbccd"%string in
  let mode := "bottom"%string in
  let frac := float_of_decimal (1 # 2) in
  let counter := Counter (chars_of text) in
  let distinct := length counter in
  let ranking := Workbook1.most_common counter in
  dict_keys counter = first_seen (chars_of text) /\
  (forall s, counter_get counter s = occurrences s (chars_of text)) /\
  ranking ≡ₚ counter /\ StronglySorted (desc snd) ranking /\
  (forall c, filter (fun x => x.2 = c) ranking = filter (fun x => x.2 = c) counter) /\
  (exists symbols_count,
     float_of_int (Z.of_nat distinct) = Ok symbols_count /\
     symbols_count == inject_Z (Z.of_nat distinct) /\
     (b64_round (frac * symbols_count) = None ->
      Workbook1.remove_by_frequency text mode frac = Raise OverflowError) /\
     (forall product, b64_round (frac * symbols_count) = Some product ->
      let n := Z.to_nat (Z.max 1 (round product)) in
      exists filtered removed,
        Workbook1.remove_by_frequency text mode frac = Ok (filtered, removed) /\
        size removed = (n `min` distinct)%nat /\
        ((frac <= 1)%Q -> size removed = n) /\
        (mode = "top"%string -> forall s, s ∈ removed <-> s ∈ (take n ranking).*1) /\
        (mode = "bottom"%string ->
           forall s, s ∈ removed <-> s ∈ (drop (distinct - n) ranking).*1) /\
        (mode = "top"%string -> forall s s', s ∈ removed -> s' ∉ removed ->
           (counter_get counter s' <= counter_get counter s)%Z) /\
        (mode = "bottom"%string -> forall s s', s ∈ removed -> s' ∉ removed ->
           s' ∈ dict_keys counter ->
           (counter_get counter s <= counter_get counter s')%Z) /\
        filtered = join (filter (fun c => c ∉ removed) (chars_of text)))) /\
  Workbook1.remove_by_frequency "aaabbbccd" "top" (float_of_decimal (34 # 100))
    = Ok ("bbbccd"%string, {["a"%string]}).
Proof.
  apply (remove_by_frequency_spec "aaabbbccd" "bottom" (float_of_decimal (1 # 2))).
  - discriminate.
  - right. reflexivity.
Defined.

(** C10: on the empty text, [remove_by_frequency] returns the text
    unchanged and an empty set of removed symbols, for every mode and
    fraction, although max(1, round(fraction · 0)) is at least 1. *)
Theorem remove_by_frequency_empty (mode : string) (frac : Q) :
  Workbook1.remove_by_frequency "" mode frac = Ok (""%string, ∅) /\
  (exists removed : gset string,
     Workbook1.remove_by_frequency "" mode frac = Ok (""%string, removed) /\
     size removed = 0%nat) /\
  (1 <= remove_count frac (length (Counter (chars_of ""))))%nat.
Proof.
  split_and!; [done|by exists ∅|]. unfold remove_count. lia.
Qed.

(* ================================================================== *)
(** * Further properties of the workbooks *)
(* ================================================================== *)

(** ** [clear_text] *)

Section ClearTextFacts.

Lemma str_replace_char_empty (old : ascii) (text : string) :
  list_ascii_of_string (str_replace_char old "" text)
  = filter (fun c => c <> old) (list_ascii_of_string text).
Proof.
  induction text as [|c text IH]; [done|]. simpl.
  destruct (Ascii.eqb_spec c old) as [->|Hne].
  - rewrite filter_cons_False by tauto. exact IH.
  - rewrite filter_cons_True by done. simpl. by rewrite IH.
Qed.

Lemma fold_replace_empty (chars : list ascii) (text : string) :
  list_ascii_of_string
    (fold_left (fun text char => str_replace_char char "" text) chars text)
  = filter (fun c => c ∉ chars) (list_ascii_of_string text).
Proof.
  revert text. induction chars as [|ch chars IH]; intros text; simpl.
  - symmetry. apply filter_all. intros c _. apply not_elem_of_nil.
  - rewrite IH, str_replace_char_empty, list_filter_filter.
    apply list_filter_iff. intros c. rewrite not_elem_of_cons. tauto.
Qed.

Lemma clear_text_filter (text : string) :
  list_ascii_of_string (Workbook1.clear_text text)
  = filter (fun c => c ∉ " "%char :: list_ascii_of_string punctuation)
      (list_ascii_of_string text).
Proof.
  unfold Workbook1.clear_text.
  rewrite fold_replace_empty, str_replace_char_empty, list_filter_filter.
  apply list_filter_iff. intros c. rewrite not_elem_of_cons. tauto.
Qed.

Lemma list_ascii_of_string_app (a b : string) :
  list_ascii_of_string (a +:+ b) = list_ascii_of_string a ++ list_ascii_of_string b.
Proof.
  induction a as [|c a IH]; [done|]. rewrite str_app_cons. simpl. by rewrite IH.
Qed.

Lemma list_ascii_of_string_inj (a b : string) :
  list_ascii_of_string a = list_ascii_of_string b -> a = b.
Proof.
  intros Heq. rewrite <- (string_of_list_ascii_of_string a),
    <- (string_of_list_ascii_of_string b). by rewrite Heq.
Qed.

End ClearTextFacts.

(** X1: [clear_text] returns the text without its spaces and its
    punctuation characters, everything else kept in order; so no space and
    no punctuation character is left in the result. *)
Theorem clear_text_drops_space_and_punctuation (text : string) :
  list_ascii_of_string (Workbook1.clear_text text)
  = filter (fun c => c ∉ " "%char :: list_ascii_of_string punctuation)
      (list_ascii_of_string text) /\
  (forall c, c ∈ list_ascii_of_string (Workbook1.clear_text text) ->
     c ∈ list_ascii_of_string text /\ c <> " "%char /\
     c ∉ list_ascii_of_string punctuation).
Proof.
  split; [apply clear_text_filter|].
  intros c. rewrite clear_text_filter, list_elem_of_filter, not_elem_of_cons. tauto.
Qed.

(** X2: cleaning a cleaned text changes nothing, and cleaning a
    concatenation is concatenating the cleaned parts. *)
Theorem clear_text_idempotent_and_additive (a b : string) :
  Workbook1.clear_text (Workbook1.clear_text a) = Workbook1.clear_text a /\
  Workbook1.clear_text (a +:+ b)
  = Workbook1.clear_text a +:+ Workbook1.clear_text b.
Proof.
  split; apply list_ascii_of_string_inj.
  - rewrite !clear_text_filter, list_filter_filter.
    apply list_filter_iff. tauto.
  - rewrite list_ascii_of_string_app, !clear_text_filter,
      list_ascii_of_string_app. apply filter_app.
Qed.

(** ** The uniform code length *)

Section RedundancyFacts.
Import Workbook1.

Lemma ln_le_minus_1 (x : R) : (0 < x)%R -> (ln x <= x - 1)%R.
Proof.
  intros Hx. pose proof (exp_ineq1_le (ln x)) as H. rewrite exp_ln in H by done. lra.
Qed.

(** One summand of the entropy, against any positive [K]. *)
Lemma entropy_term_upper (n c : Z) (K : R) :
  (0 < c <= n)%Z -> (0 < K)%R ->
  exists t, entropy_term n c = Ok t /\
    (t * ln 2 <= IZR c / IZR n * ln K + 1 / K - IZR c / IZR n)%R.
Proof.
  intros [Hc Hn] HK. unfold entropy_term, truediv_R.
  rewrite (proj2 (Z.eqb_neq n 0)) by lia. simpl.
  assert (0 < IZR c)%R as Hc' by (by apply IZR_lt).
  assert (0 < IZR n)%R as Hn' by (apply IZR_lt; lia).
  set (p := (IZR c / IZR n)%R).
  assert (0 < p)%R as Hp0 by (apply Rdiv_lt_0_compat; lra).
  unfold fdiv_R. destruct (Req_dec_T p 0) as [Hz|_]; [lra|]. simpl.
  assert (0 < 1 / p)%R as Hq by (apply Rdiv_lt_0_compat; lra).
  unfold log2. destruct (Rle_dec (1 / p) 0) as [Hz|_]; [lra|]. simpl.
  pose proof ln_2_pos as Hln2.
  eexists. split; [done|].
  assert (ln (1 / p) = - ln p)%R as ->.
  { unfold Rdiv. rewrite Rmult_1_l. by apply ln_Rinv. }
  replace (p * (- ln p / ln 2) * ln 2)%R with (- (p * ln p))%R by (field; lra).
  assert (0 < / (p * K))%R as Hx.
  { apply Rinv_0_lt_compat. by apply Rmult_lt_0_compat. }
  pose proof (ln_le_minus_1 _ Hx) as Hln.
  rewrite ln_Rinv, ln_mult in Hln by (done || by apply Rmult_lt_0_compat).
  assert (p * (- (ln p + ln K)) <= p * (/ (p * K) - 1))%R as Hmul.
  { apply Rmult_le_compat_l; lra. }
  replace (p * (/ (p * K) - 1))%R with (1 / K - p)%R in Hmul by (field; lra).
  lra.
Qed.

(** With two symbols or more the uniform code length is at least 1. *)
Lemma log2_symbols_count (k : nat) :
  (2 <= k)%nat ->
  log2 (IZR (Z.of_nat k)) = Ok (ln (INR k) / ln 2)%R /\
  (1 <= ln (INR k) / ln 2)%R.
Proof.
  intros Hk. rewrite <- INR_IZR_INZ.
  assert (2 <= INR k)%R as HK.
  { change 2%R with (INR 2). by apply le_INR. }
  unfold log2. destruct (Rle_dec (INR k) 0) as [Hz|_]; [lra|].
  split; [done|]. pose proof ln_2_pos as Hln2.
  apply (Rmult_le_reg_r (ln 2)); [done|].
  replace (ln (INR k) / ln 2 * ln 2)%R with (ln (INR k)) by (field; lra).
  rewrite Rmult_1_l. destruct (Req_dec_T (INR k) 2) as [->|Hne]; [lra|].
  left. apply ln_increasing; lra.
Qed.

End RedundancyFacts.

(** X4: [calculate_code_length_and_redundancy] returns (0, 0) for at most
    one distinct symbol, whatever the entropy; with two or more it never
    raises, the code length it returns is [log2] of their number, at least
    1, and the redundancy is 1 - entropy / code length. *)
Theorem code_length_and_redundancy_cases (counter : list (string * Z)) (entropy : R) :
  ((length counter <= 1)%nat ->
   Workbook1.calculate_code_length_and_redundancy counter entropy = Ok (0%R, 0%R)) /\
  ((2 <= length counter)%nat ->
   exists code_length,
     Workbook1.calculate_code_length_and_redundancy counter entropy
       = Ok (code_length, (1 - entropy / code_length)%R) /\
     code_length = (ln (INR (length counter)) / ln 2)%R /\
     (1 <= code_length)%R).
Proof.
  unfold Workbook1.calculate_code_length_and_redundancy. split; intros Hlen.
  - by rewrite (proj2 (Z.leb_le _ 1)) by lia.
  - rewrite (proj2 (Z.leb_gt _ 1)) by lia.
    destruct (log2_symbols_count _ Hlen) as [-> Hone]. simpl.
    unfold fdiv_R. destruct (Req_dec_T _ 0) as [Hz|_]; [lra|]. simpl.
    eexists. split_and!; done.
Qed.

(** ** Bigrams *)

Section BigramFacts.
Import Workbook3.

Lemma bigrams_short (text : string) :
  (String.length text <= 1)%nat -> bigrams text = [].
Proof.
  intros Hlen. unfold bigrams.
  by replace (String.length text - 1)%nat with 0%nat by lia.
Qed.

Lemma bigrams_cons (a b : ascii) (rest : string) :
  bigrams (String a (String b rest))
  = String a (String b "") :: bigrams (String b rest).
Proof.
  unfold bigrams. simpl String.length.
  replace (S (S (String.length rest)) - 1)%nat with (S (String.length rest)) by lia.
  replace (S (String.length rest) - 1)%nat with (String.length rest) by lia.
  cbn [seq]. rewrite fmap_cons. f_equal; [by destruct rest|].
  rewrite <- fmap_S_seq, <- list_fmap_compose. done.
Qed.

Lemma bigrams_length (text : string) :
  length (bigrams text) = (String.length text - 1)%nat.
Proof. unfold bigrams. by rewrite length_fmap, length_seq. Qed.

Lemma join_bigrams_tail_bigrams (b : ascii) (rest : string) :
  join_bigrams_tail (bigrams (String b rest)) = Ok (chars_of rest).
Proof.
  revert b. induction rest as [|c rest IH]; intros b; [done|].
  rewrite bigrams_cons. simpl. by rewrite IH.
Qed.

Lemma join_bigrams_tail_Ok (tail : list string) :
  Forall (fun bigram => bigram <> ""%string) tail ->
  exists cs, join_bigrams_tail tail = Ok cs /\ length cs = length tail /\
    String.length (join cs) = length tail.
Proof.
  induction 1 as [|bigram tail Hne _ (cs & Hcs & Hlen & Hjoin)].
  - by exists [].
  - simpl. assert (exists c, last_char bigram = Ok (String c "")) as [c ->].
    { clear -Hne. induction bigram as [|a [|b bigram] IH]; [done|by eexists|].
      simpl. apply IH. done. }
    simpl. rewrite Hcs. simpl. eexists. split; [done|].
    split; [simpl; lia|]. rewrite join_cons.
    change (String c "" +:+ join cs) with (String c (join cs)). simpl. lia.
Qed.

Lemma join_bigrams_tail_Raise (tail : list string) :
  ""%string ∈ tail -> join_bigrams_tail tail = Raise IndexError.
Proof.
  induction tail as [|bigram tail IH]; intros Hin; [by apply elem_of_nil in Hin|].
  apply elem_of_cons in Hin as [<-|Hin]; [done|].
  simpl. destruct (last_char bigram) as [c|e] eqn:Hc.
  - simpl. by rewrite IH.
  - simpl. clear -Hc. f_equal.
    induction bigram as [|a [|b bigram] IH']; simpl in Hc; [congruence|done|auto].
Qed.

End BigramFacts.

Lemma str_app_length (a b : string) :
  String.length (a +:+ b) = (String.length a + String.length b)%nat.
Proof.
  induction a as [|x a IH]; [done|]. rewrite str_app_cons. simpl. by rewrite IH.
Qed.

(** X6: joining the bigrams of a text of two characters or more gives the
    text back; a text of one character has no bigram and comes back
    empty. *)
Theorem join_bigrams_of_bigrams (text : string) :
  ((2 <= String.length text)%nat ->
   Workbook3.join_bigrams (bigrams text) = Ok text) /\
  ((String.length text <= 1)%nat ->
   Workbook3.join_bigrams (bigrams text) = Ok ""%string).
Proof.
  split; intros Hlen.
  - destruct text as [|a [|b rest]]; [simpl in Hlen; lia..|].
    rewrite bigrams_cons. unfold Workbook3.join_bigrams.
    rewrite join_bigrams_tail_bigrams. simpl. f_equal.
    rewrite join_cons, join_chars_of. done.
  - by rewrite bigrams_short.
Qed.

(** X7: on any list of tokens, [join_bigrams] raises [IndexError] exactly
    when a token after the first is empty; otherwise it returns the first
    token followed by one character for each later token.  The empty list
    gives the empty text. *)
Theorem join_bigrams_tokens (first : string) (tail : list string) :
  Workbook3.join_bigrams [] = Ok ""%string /\
  (""%string ∈ tail ->
   Workbook3.join_bigrams (first :: tail) = Raise IndexError) /\
  (""%string ∉ tail ->
   exists s, Workbook3.join_bigrams (first :: tail) = Ok s /\
     is_prefix first s /\
     String.length s = (String.length first + length tail)%nat).
Proof.
  split_and!; [done|..].
  - intros Hin. unfold Workbook3.join_bigrams.
    by rewrite join_bigrams_tail_Raise.
  - intros Hnin. destruct (join_bigrams_tail_Ok tail) as (cs & Hcs & _ & Hlen).
    { apply Forall_forall. intros b Hb ->. done. }
    unfold Workbook3.join_bigrams. rewrite Hcs. simpl.
    eexists. split; [done|]. rewrite join_cons. split; [by eexists|].
    by rewrite str_app_length, Hlen.
Qed.

(** ** What [decode] emits *)

Section DecodeFacts.
Import Workbook2.

Lemma join_snoc (l : list string) (s : string) : join (l ++ [s]) = join l +:+ s.
Proof.
  induction l as [|x l IH]; [reflexivity|].
  rewrite <- app_comm_cons, !join_cons, IH. by rewrite str_app_assoc.
Qed.

Lemma decode_loop_invariant (codec : list (string * string)) (bits : string)
  (res : list string) (buf : string) :
  NoDup (dict_keys codec) ->
  Forall (fun s => s ∈ dict_keys codec) res ->
  Forall (fun s => s ∈ dict_keys codec)
    (decode_loop (reversed_codec codec) bits res buf).1 /\
  join (codeword codec <$> (decode_loop (reversed_codec codec) bits res buf).1)
    +:+ (decode_loop (reversed_codec codec) bits res buf).2
  = (join (codeword codec <$> res) +:+ buf) +:+ bits.
Proof.
  intros Hnd. revert res buf.
  induction bits as [|c bits IH]; intros res buf Hres.
  - simpl. by rewrite str_app_nil_r.
  - simpl. destruct (dict_get (reversed_codec codec) (buf +:+ String c ""))
      as [sym|] eqn:Hsym.
    + apply reversed_codec_Some in Hsym.
      pose proof (dict_get_of_elem _ _ _ Hnd Hsym) as Hget.
      destruct (IH (res ++ [sym]) ""%string) as [Hall Heq].
      { apply Forall_app. split; [done|]. apply Forall_singleton.
        apply dict_get_is_Some. by eexists. }
      split; [done|]. rewrite Heq, fmap_app.
      change (codeword codec <$> [sym]) with [codeword codec sym].
      rewrite join_snoc. unfold codeword at 2. rewrite Hget. simpl.
      rewrite str_app_nil_r, !str_app_assoc. done.
    + destruct (IH res (buf +:+ String c "")) as [Hall Heq]; [done|].
      split; [done|]. rewrite Heq, !str_app_assoc. done.
Qed.

End DecodeFacts.

(** X8: with any dictionary as codec, [decode] only emits symbols of the
    codec, and the codewords of the symbols it emits, followed by the
    buffer left when the input ends, spell the input.  So when that buffer
    is empty, encoding what was decoded gives the input back. *)
Theorem decode_spells_its_input (codec : list (string * string)) (bits : string) :
  NoDup (dict_keys codec) ->
  Forall (fun s => s ∈ dict_keys codec) (Workbook2.decode_symbols bits codec) /\
  join (codeword codec <$> Workbook2.decode_symbols bits codec)
    +:+ (Workbook2.decode_loop (Workbook2.reversed_codec codec) bits [] "").2
  = bits /\
  ((Workbook2.decode_loop (Workbook2.reversed_codec codec) bits [] "").2 = ""%string ->
   Workbook2.encode (Workbook2.decode_symbols bits codec) codec = Ok bits).
Proof.
  intros Hnd.
  destruct (decode_loop_invariant codec bits [] "" Hnd) as [Hall Heq]; [done|].
  fold (Workbook2.decode_symbols bits codec) in Hall, Heq.
  split_and!; [done|done|]. intros Hbuf.
  rewrite Hbuf, str_app_nil_r in Heq.
  assert (covered (Workbook2.decode_symbols bits codec) codec) as Hcov.
  { unfold covered. eapply Forall_impl; [exact Hall|]. simpl.
    intros s Hs. by apply dict_get_is_Some. }
  rewrite encode_covered, lookup_join_covered by done. by rewrite Heq.
Qed.

Lemma decode_spells_its_input_witness :
  Forall (fun s => s ∈ dict_keys ab_codec) (Workbook2.decode_symbols "0101" ab_codec) /\
  join (codeword ab_codec <$> Workbook2.decode_symbols "0101" ab_codec)
    +:+ (Workbook2.decode_loop (Workbook2.reversed_codec ab_codec) "0101" [] "").2
  = "0101"%string /\
  ((Workbook2.decode_loop (Workbook2.reversed_codec ab_codec) "0101" [] "").2 = ""%string ->
   Workbook2.encode (Workbook2.decode_symbols "0101" ab_codec) ab_codec = Ok "0101"%string).
Proof.
  apply (decode_spells_its_input ab_codec "0101").
  apply (bool_decide_unpack _). vm_compute. exact I.
Defined.

(** ** Encoded length and average code length *)

Section LengthFacts.

Lemma count_step_sumQ (g : string -> Q) (d : list (string * Z)) (e : string) :
  sumQ (fun '(s, n) => inject_Z n * g s)%Q
    (dict_set d e (default 0%Z (dict_get d e) + 1)%Z)
  == sumQ (fun '(s, n) => inject_Z n * g s)%Q d + g e.
Proof.
  induction d as [|[k v] d IH]; simpl dict_set; simpl dict_get.
  - simpl. change (inject_Z (0 + 1)) with 1%Q. ring.
  - destruct (decide (k = e)) as [->|Hne].
    + rewrite !sumQ_cons. simpl. rewrite inject_Z_plus.
      change (inject_Z 1) with 1%Q. ring.
    + rewrite !sumQ_cons, IH. ring.
Qed.

Lemma Counter_fold_sumQ (g : string -> Q) (items : list string)
  (d : list (string * Z)) :
  sumQ (fun '(s, n) => inject_Z n * g s)%Q
    (fold_left (fun counter elem =>
       dict_set counter elem (default 0%Z (dict_get counter elem) + 1)%Z) items d)
  == sumQ (fun '(s, n) => inject_Z n * g s)%Q d + sumQ g items.
Proof.
  revert d. induction items as [|e items IH]; intros d; simpl fold_left.
  - simpl. ring.
  - rewrite IH, count_step_sumQ, sumQ_cons. ring.
Qed.

(** Summing over the entries of [Counter(items)], each weighted by its
    count, is summing over the items. *)
Lemma Counter_sumQ (g : string -> Q) (items : list string) :
  sumQ (fun '(s, n) => inject_Z n * g s)%Q (Counter items) == sumQ g items.
Proof. unfold Counter. rewrite Counter_fold_sumQ. simpl. ring. Qed.

Lemma count_step_sum_Z (d : list (string * Z)) (e : string) :
  sum_Z (dict_values (dict_set d e (default 0%Z (dict_get d e) + 1)%Z))
  = (sum_Z (dict_values d) + 1)%Z.
Proof.
  unfold dict_values.
  induction d as [|[k v] d IH]; simpl dict_set; simpl dict_get.
  - done.
  - destruct (decide (k = e)) as [->|Hne].
    + rewrite !fmap_cons, !sum_Z_cons. simpl. lia.
    + rewrite !fmap_cons, !sum_Z_cons, IH. simpl. lia.
Qed.

Lemma Counter_fold_sum_Z (items : list string) (d : list (string * Z)) :
  sum_Z (dict_values (fold_left (fun counter elem =>
       dict_set counter elem (default 0%Z (dict_get counter elem) + 1)%Z) items d))
  = (sum_Z (dict_values d) + Z.of_nat (length items))%Z.
Proof.
  revert d. induction items as [|e items IH]; intros d; simpl fold_left.
  - simpl. lia.
  - rewrite IH, count_step_sum_Z. simpl length. lia.
Qed.

(** The counts of [Counter(items)] add up to the number of items. *)
Lemma Counter_total (items : list string) :
  sum_Z (dict_values (Counter items)) = Z.of_nat (length items).
Proof. unfold Counter. by rewrite Counter_fold_sum_Z. Qed.

Lemma join_codewords_length (codec : list (string * string)) (text : list string) :
  inject_Z (Z.of_nat (String.length (join (codeword codec <$> text))))
  == sumQ (fun c => code_len (codeword codec c)) text.
Proof.
  induction text as [|c text IH]; [reflexivity|].
  rewrite fmap_cons, join_cons, str_app_length, Nat2Z.inj_add, inject_Z_plus.
  rewrite sumQ_cons, IH. reflexivity.
Qed.

Lemma weighted_length_scaled (total : Z) (codec : list (string * string))
  (counter : list (string * Z)) :
  total <> 0%Z ->
  weighted_length total codec counter * inject_Z total
  == sumQ (fun '(s, n) => inject_Z n * code_len (codeword codec s))%Q counter.
Proof.
  intros Hne. unfold weighted_length.
  assert (~ inject_Z total == 0)%Q as Hne'.
  { intros Heq. apply Hne. rewrite <- (inject_Z_injective total 0). exact Heq. }
  induction counter as [|[s n] counter IH]; [simpl; ring|].
  rewrite !sumQ_cons, <- IH. unfold codeword.
  destruct (dict_get codec s) as [code|]; simpl.
  - field. exact Hne'.
  - unfold code_len. simpl. ring.
Qed.

End LengthFacts.

(** ** Kraft sums and weights of Huffman trees *)

Section HuffmanMore.
Import Workbook3.

Lemma sumQ_app {A} (f : A -> Q) (l1 l2 : list A) :
  sumQ f (l1 ++ l2) == sumQ f l1 + sumQ f l2.
Proof.
  induction l1 as [|x l1 IH]; [simpl; ring|].
  rewrite <- app_comm_cons, !sumQ_cons, IH. ring.
Qed.

Lemma sumQ_scale {A} (a : Q) (f : A -> Q) (l : list A) :
  sumQ (fun x => a * f x)%Q l == a * sumQ f l.
Proof.
  induction l as [|x l IH]; [simpl; ring|]. rewrite !sumQ_cons, IH. ring.
Qed.

Lemma sumQ_perm {A} (f : A -> Q) (l1 l2 : list A) :
  l1 ≡ₚ l2 -> sumQ f l1 == sumQ f l2.
Proof.
  induction 1 as [|x l1 l2 _ IH|x y l|l1 l2 l3 _ IH1 _ IH2].
  - reflexivity.
  - by rewrite !sumQ_cons, IH.
  - rewrite !sumQ_cons. ring.
  - by rewrite IH1.
Qed.

Lemma sumQ_fmap {A B} (g : A -> B) (f : B -> Q) (l : list A) :
  sumQ f (g <$> l) = sumQ (fun x => f (g x)) l.
Proof. induction l as [|x l IH]; [done|]. rewrite fmap_cons, !sumQ_cons. by rewrite IH. Qed.

Lemma str_snoc_nonempty (code bit : string) : bit <> ""%string -> code +:+ bit <> ""%string.
Proof. intros Hbit. destruct code; [done|]. by rewrite str_app_cons. Qed.

Lemma codes_of_kraft t (code : string) :
  huff_tree t -> char t = None \/ code <> ""%string ->
  kraft_sum (codes_of t code) == half_pow (String.length code).
Proof.
  intros Ht. revert code. unfold kraft_sum.
  induction Ht as [c f|f l r Hl IHl Hr IHr]; intros code Hcode.
  - destruct Hcode as [Hc|Hc]; [done|]. simpl.
    rewrite decide_False by done. ring.
  - simpl codes_of. rewrite sumQ_app, IHr, IHl by (right; by apply str_snoc_nonempty).
    rewrite !str_app_length. simpl String.length.
    replace (String.length code + 1)%nat with (S (String.length code)) by lia.
    simpl half_pow. ring.
Qed.

Lemma huff_weighted_tree t : huff_weighted t -> huff_tree t.
Proof. induction 1; by constructor. Qed.

Lemma huff_weighted_freq t :
  huff_weighted t -> freq t = sum_Z (leaf_items t).*2.
Proof.
  induction 1 as [c f|l r Hl IHl Hr IHr]; [by unfold sum_Z; simpl; lia|].
  simpl. rewrite fmap_app, sum_Z_app, <- IHl, <- IHr. lia.
Qed.

Lemma merge_loop_weights rounds (nodes : list Node) :
  Forall huff_weighted nodes -> (length nodes <= rounds)%nat -> nodes <> [] ->
  exists root,
    merge_loop rounds nodes = [root] /\ huff_weighted root /\
    leaf_items root ≡ₚ concat (leaf_items <$> nodes).
Proof.
  revert nodes. induction rounds as [|rounds IH]; intros nodes Hall Hlen Hne.
  { destruct nodes; [done|simpl in Hlen; lia]. }
  simpl. destruct (1 <? length nodes)%nat eqn:Hlt.
  - apply Nat.ltb_lt in Hlt.
    pose proof (sorted_asc_perm freq nodes) as Hperm.
    destruct (sorted_asc freq nodes) as [|l [|r rest]] eqn:Hsorted.
    { apply Permutation_length in Hperm. simpl in Hperm. lia. }
    { apply Permutation_length in Hperm. simpl in Hperm. lia. }
    assert (Forall huff_weighted (l :: r :: rest)) as Hall'.
    { by rewrite Hperm. }
    apply Forall_cons in Hall' as [Hl Hall']. apply Forall_cons in Hall' as [Hr Hrest].
    set (merged := mkNode None (freq l + freq r) (Some l) (Some r)).
    destruct (IH (rest ++ [merged])) as (root & Hroot & Htree & Hleaves).
    { apply Forall_app. split; [done|]. apply Forall_singleton. by constructor. }
    { apply Permutation_length in Hperm. rewrite length_app. simpl in *. lia. }
    { by destruct rest. }
    exists root. split_and!; [done|done|].
    rewrite Hleaves, <- Hperm, fmap_app, concat_app. simpl.
    rewrite app_nil_r. rewrite (Permutation_app_comm (leaf_items r)).
    rewrite (Permutation_app_comm _ (leaf_items l ++ leaf_items r)).
    by rewrite <- app_assoc.
  - apply Nat.ltb_ge in Hlt. destruct nodes as [|n [|n' nodes]]; [done| |simpl in Hlt; lia].
    exists n. rewrite Forall_singleton in Hall. split_and!; [done|done|].
    simpl. by rewrite app_nil_r.
Qed.

Lemma leaf_nodes_weights (counter : list (string * Z)) :
  Forall huff_weighted ((fun '(char, freq) => new_node (Some char) freq) <$> counter)
  /\ concat (leaf_items <$> ((fun '(char, freq) => new_node (Some char) freq) <$> counter))
     = counter.
Proof.
  induction counter as [|[c f] counter [IH1 IH2]]; [by split|].
  split.
  - rewrite fmap_cons. constructor; [constructor|done].
  - rewrite !fmap_cons. cbn [concat leaf_items new_node app].
    by rewrite IH2.
Qed.

Lemma build_huffman_codes_root chars counter codes encoded root :
  build_huffman_codes chars counter = Ok (codes, encoded, root) ->
  counter <> [] /\
  merge_loop (length counter)
    ((fun '(char, freq) => new_node (Some char) freq) <$> counter) = [root]
  /\ codes = generate_codes root "" [] /\ lookup_join codes chars = Ok encoded.
Proof.
  unfold build_huffman_codes. intros H.
  destruct counter as [|item counter]; [done|]. split; [done|].
  rewrite length_fmap in H.
  destruct (leaf_nodes_weights (item :: counter)) as [Hall _].
  destruct (merge_loop_weights (length (item :: counter)) _ Hall) as (root' & Hroot & _).
  { by rewrite length_fmap. } { done. }
  rewrite Hroot in H |- *.
  destruct (lookup_join (generate_codes root' "" []) chars) eqn:Hjoin; [|done].
  simpl in H. by simplify_eq.
Qed.

End HuffmanMore.

(** X10 (Workbook3, [Node.build_huffman_codes]).  In the tree that is
    returned every merged node weighs what its two children weigh
    together, the leaves are the entries of [counter], one leaf for each
    with the count as its weight, and the root weighs the sum of all the
    counts. *)
Theorem huffman_tree_weights chars (counter : list (string * Z)) codes encoded root :
  Workbook3.build_huffman_codes chars counter = Ok (codes, encoded, root) ->
  huff_weighted root /\ leaf_items root ≡ₚ counter /\
  Workbook3.freq root = sum_Z (dict_values counter).
Proof.
  intros H. apply build_huffman_codes_root in H as (Hne & Hroot & _).
  destruct (leaf_nodes_weights counter) as [Hall Hitems].
  destruct (merge_loop_weights (length counter) _ Hall) as (root' & Hroot' & Hw & Hperm).
  { by rewrite length_fmap. } { by destruct counter. }
  rewrite Hroot in Hroot'. simplify_eq. rewrite Hitems in Hperm.
  split_and!; [done|done|].
  rewrite (huff_weighted_freq _ Hw). apply sum_Z_perm. unfold dict_values.
  by rewrite Hperm.
Qed.

Lemma huffman_tree_weights_witness :
  exists codes encoded root,
    Workbook3.build_huffman_codes ["a"; "b"; "c"; "a"]%string abc_counter
      = Ok (codes, encoded, root)
    /\ huff_weighted root /\ leaf_items root ≡ₚ abc_counter
    /\ Workbook3.freq root = 4%Z.
Proof.
  eexists _, _, _. split; [vm_compute; reflexivity|].
  eapply (huffman_tree_weights ["a"; "b"; "c"; "a"]%string abc_counter).
  vm_compute. reflexivity.
Defined.

(** X11 (Workbook3, [Node.build_huffman_codes] with [generate_codes]).
    The table of a dictionary of two symbols or more is complete: its
    Kraft sum, the sum of [2 ^ (- len(code))] over the entries, is
    exactly 1.  With one symbol the only code is one bit and the sum is
    one half. *)
Theorem huffman_kraft_sum chars (counter : list (string * Z)) codes encoded root :
  NoDup (dict_keys counter) ->
  Workbook3.build_huffman_codes chars counter = Ok (codes, encoded, root) ->
  ((2 <= length counter)%nat -> kraft_sum codes == 1) /\
  (length counter = 1%nat -> kraft_sum codes == 1 # 2).
Proof.
  intros Hnd H.
  pose proof (build_huffman_codes_root _ _ _ _ _ H) as (Hne & _).
  destruct (build_huffman_codes_spec chars counter Hnd Hne) as (root' & Htree & _ & Htwo & Heq).
  rewrite Heq in H.
  destruct (lookup_join (codes_of root' "") chars) eqn:Hjoin; [|done].
  simpl in H. simplify_eq. split.
  - intros Hlen. rewrite codes_of_kraft by (try done; left; auto). reflexivity.
  - intros Hlen. destruct counter as [|[c f] [|? ?]]; [done| |done].
    destruct Htree as [c' f'|? l r Hl Hr].
    + vm_compute. reflexivity.
    + exfalso. clear -Heq Hjoin.
      unfold Workbook3.build_huffman_codes in Heq. simpl in Heq.
      destruct (lookup_join _ chars); [|done]. simpl in Heq.
      destruct (lookup_join _ chars); [|done]. simpl in Heq. done.
Qed.

Lemma huffman_kraft_sum_witness :
  exists codes encoded root,
    Workbook3.build_huffman_codes ["a"; "b"; "c"; "a"]%string abc_counter
      = Ok (codes, encoded, root)
    /\ kraft_sum codes == 1.
Proof.
  eexists _, _, _. split; [vm_compute; reflexivity|].
  refine (proj1 (huffman_kraft_sum ["a"; "b"; "c"; "a"]%string abc_counter _ _ _ _ _) _).
  - apply (bool_decide_unpack _). vm_compute. exact I.
  - vm_compute. reflexivity.
  - vm_compute. lia.
Defined.

(** ** The Kraft sum of a Shannon–Fano table *)

Section ShannonFanoMore.
Import Workbook2.

(** A group whose symbols all carry the code [p] leaves [split] with
    codes whose Kraft sum is that of [p] alone. *)
Lemma split_kraft depth group codes (p : string) :
  (length group <= depth)%nat -> (1 <= depth)%nat ->
  NoDup group.*1 -> StronglySorted (desc snd) group ->
  Forall (fun x => 0 <= x.2)%Z group -> (sum_Z group.*2 < 2 ^ 53)%Z ->
  group <> [] ->
  (forall k, k ∈ group.*1 -> dict_get codes k = Some p) ->
  exists codes', split depth group codes = Ok codes' /\
    sumQ (fun k => half_pow (String.length (codeword codes' k))) group.*1
      == half_pow (String.length p).
Proof.
  revert group codes p.
  induction depth as [|depth IH];
    intros group codes p Hlen Hdepth Hnd Hs Hpos Hexact Hne Hget; [lia|].
  assert (forall k, k ∈ group.*1 -> k ∈ dict_keys codes) as Hsub.
  { intros k Hk. apply dict_get_is_Some. rewrite (Hget k Hk). by eexists. }
  cbn [split]. destruct (length group <=? 1)%nat eqn:Hsmall.
  { apply Nat.leb_le in Hsmall. exists codes. split; [done|].
    destruct group as [|[k f] [|? group]]; [done| |simpl in Hsmall; lia].
    simpl. unfold codeword. rewrite (Hget k) by (simpl; by left). simpl. ring. }
  apply Nat.leb_gt in Hsmall.
  destruct (find_cut_in_range group Hs Hpos) as (cut_idx & -> & Hcut); [lia|done|].
  cbn [bind].
  unfold slice_to, slice_from. rewrite (proj2 (Z.leb_le 0 cut_idx)) by lia.
  set (n := Z.to_nat cut_idx).
  assert (1 <= n <= length group - 1)%nat as Hn by lia.
  destruct (sum_Z_take_drop_le group n Hpos) as [Hsuml Hsumr].
  set (lft := take n group) in *. set (rgt := drop n group) in *.
  assert (group = lft ++ rgt) as Hgroup by (symmetry; apply take_drop).
  assert (length lft = n) as Hll by (unfold lft; rewrite length_take; lia).
  assert (length rgt = (length group - n)%nat) as Hlr by apply length_drop.
  rewrite Hgroup, fmap_app in Hnd, Hsub, Hget. rewrite Hgroup in Hs, Hpos.
  apply NoDup_app in Hnd as (Hndl & Hdisj & Hndr).
  apply StronglySorted_app in Hs as (_ & Hsl & Hsr).
  apply Forall_app in Hpos as [Hposl Hposr].
  destruct (append_bit_spec lft "0" codes) as (c1 & -> & Hk1 & Hg1).
  { done. } { intros k Hk. apply Hsub, elem_of_app. by left. }
  simpl. destruct (append_bit_spec rgt "1" c1) as (c2 & -> & Hk2 & Hg2).
  { done. } { intros k Hk. rewrite Hk1. apply Hsub, elem_of_app. by right. }
  simpl.
  assert (forall k, k ∈ rgt.*1 -> dict_get c2 k = Some (p +:+ "1")) as Hgr.
  { intros k Hk. rewrite Hg2, decide_True by done.
    rewrite Hg1, decide_False by (intros Hkl; by destruct (Hdisj k)).
    rewrite Hget; [done|]. apply elem_of_app. by right. }
  assert (forall k, k ∈ lft.*1 -> dict_get c2 k = Some (p +:+ "0")) as Hgl.
  { intros k Hk. rewrite Hg2, decide_False by (intros Hkr; by destruct (Hdisj k)).
    rewrite Hg1, decide_True by done.
    rewrite Hget; [done|]. apply elem_of_app. by left. }
  destruct (split_spec depth rgt c2) as (c3 & sfxR & Heq3 & [Hk3 Hg3] & _).
  { lia. } { lia. } { done. } { done. } { done. } { lia. }
  { intros k Hk. rewrite Hk2, Hk1. apply Hsub, elem_of_app. by right. }
  destruct (IH rgt c2 (p +:+ "1")) as (c3' & Heq3' & HKr).
  { lia. } { lia. } { done. } { done. } { done. } { lia. }
  { intros ->. simpl in Hlr. lia. } { done. }
  rewrite Heq3 in Heq3'. injection Heq3' as <-. rewrite Heq3. simpl.
  destruct (split_spec depth lft c3) as (c4 & sfxL & Heq4 & [Hk4 Hg4] & _).
  { lia. } { lia. } { done. } { done. } { done. } { lia. }
  { intros k Hk. rewrite Hk3, Hk2, Hk1. apply Hsub, elem_of_app. by left. }
  destruct (IH lft c3 (p +:+ "0")) as (c4' & Heq4' & HKl).
  { lia. } { lia. } { done. } { done. } { done. } { lia. }
  { intros ->. simpl in Hll. lia. }
  { intros k Hk. rewrite Hg3, decide_False by (intros Hkr; by destruct (Hdisj k)).
    by apply Hgl. }
  rewrite Heq4 in Heq4'. injection Heq4' as <-. exists c4. split; [done|].
  rewrite Hgroup, fmap_app, sumQ_app, HKl.
  rewrite (sumQ_ext _ (fun k => half_pow (String.length (codeword c3 k)))).
  2:{ intros k Hk. unfold codeword.
      rewrite Hg4, decide_False by (intros Hkl; by destruct (Hdisj k)). reflexivity. }
  rewrite HKr, !str_app_length. simpl String.length.
  replace (String.length p + 1)%nat with (S (String.length p)) by lia.
  simpl half_pow. ring.
Qed.

(** The Kraft sum of the table [calculate_shannon_fano] returns. *)
Lemma calculate_shannon_fano_kraft limit (counter : list (string * Z)) :
  NoDup (dict_keys counter) -> Forall (fun x => 0 <= x.2)%Z counter ->
  (sum_Z (dict_values counter) < 2 ^ 53)%Z ->
  (length counter <= limit)%nat -> counter <> [] ->
  exists codes, calculate_shannon_fano limit counter = Ok codes /\
    kraft_sum codes == 1.
Proof.
  intros Hnd Hpos Hexact Hlen Hne.
  assert (1 <= limit)%nat as Hlimit.
  { destruct counter; [done|]. simpl in Hlen. lia. }
  destruct (calculate_shannon_fano_spec limit counter Hnd Hpos Hexact Hlen Hlimit)
    as (codes & sfx & Heq & Hkeys & Hget & _).
  exists codes. split; [done|].
  unfold calculate_shannon_fano in Heq.
  set (codes0 := (fun '(char, _) => (char, ""%string)) <$> counter) in *.
  assert (dict_keys codes0 = dict_keys counter) as Hk0.
  { unfold dict_keys, codes0. rewrite <- list_fmap_compose.
    apply list_fmap_ext. by intros _ [??] _. }
  pose proof (sorted_desc_perm snd counter) as Hperm.
  assert ((sorted_desc snd counter).*1 ≡ₚ dict_keys counter) as Hpk.
  { unfold dict_keys. by rewrite Hperm. }
  destruct (split_kraft limit (sorted_desc snd counter) codes0 "")
    as (codes' & Heq' & HK).
  { by rewrite Hperm. } { done. } { by rewrite Hpk. }
  { apply sorted_desc_sorted. } { by rewrite Hperm. }
  { unfold dict_values in Hexact. by rewrite (sum_Z_perm _ _ (fmap_Permutation snd _ _ Hperm)). }
  { intros Hnil. rewrite Hnil in Hperm. apply Permutation_nil_l in Hperm. done. }
  { intros k Hk. rewrite Hpk in Hk. apply dict_get_of_elem; [by rewrite Hk0|].
    unfold dict_keys in Hk. apply list_elem_of_fmap in Hk as ([k' f] & -> & Hin).
    unfold codes0. apply list_elem_of_fmap. by exists (k', f). }
  rewrite Heq in Heq'. injection Heq' as <-.
  rewrite (sumQ_perm _ _ _ Hpk), <- Hkeys in HK. simpl in HK. rewrite <- HK.
  unfold kraft_sum, dict_keys. rewrite sumQ_fmap. apply sumQ_ext.
  intros [k c] Hin. unfold codeword. simpl.
  rewrite (dict_get_of_elem codes k c); [reflexivity| |done].
  by rewrite Hkeys.
Qed.

End ShannonFanoMore.

(** X12 (Workbook2, [calculate_shannon_fano] with its inner [split]).
    The table of a non-empty dictionary is complete: its Kraft sum, the
    sum of [2 ^ (- len(code))] over the entries, is exactly 1, whatever the
    counts are, as long as they add up to less than [2 ^ 53], where the
    float [total / 2] is exact, and the recursion limit is not hit. *)
Theorem shannon_fano_kraft_sum limit (counter : list (string * Z)) :
  NoDup (dict_keys counter) -> Forall (fun x => 0 <= x.2)%Z counter ->
  (sum_Z (dict_values counter) < 2 ^ 53)%Z ->
  (length counter <= limit)%nat -> counter <> [] ->
  exists codes, Workbook2.calculate_shannon_fano limit counter = Ok codes /\
    kraft_sum codes == 1.
Proof. apply calculate_shannon_fano_kraft. Qed.

Lemma shannon_fano_kraft_sum_witness :
  exists codes, Workbook2.calculate_shannon_fano 3 abc_counter = Ok codes /\
    kraft_sum codes == 1.
Proof.
  apply (shannon_fano_kraft_sum 3 abc_counter).
  - apply (bool_decide_unpack _). vm_compute. exact I.
  - repeat constructor; vm_compute; discriminate.
  - by vm_compute.
  - vm_compute. lia.
  - discriminate.
Defined.

(** X3 (Workbook2, [calculate_shannon_fano]; Workbook3,
    [build_huffman_codes]).  From a dictionary of counts with at least two
    symbols, all counts positive and adding up to less than [2 ^ 53], the
    Shannon-Fano builder (within its recursion limit) and the Huffman
    builder each return a table that gives every symbol of the count, and
    no other, a codeword, and that is a Codec: no codeword is empty, none
    is shared, none is a proper prefix of another.  The Huffman builder
    does so whatever the total is. *)
Theorem builders_give_prefix_free_codecs (limit : nat) (chars : list string)
  (counter : list (string * Z)) :
  NoDup (dict_keys counter) -> (2 <= length counter)%nat ->
  Forall (fun x => 0 < x.2)%Z counter ->
  (length counter <= limit)%nat ->
  Forall (fun c => c ∈ dict_keys counter) chars ->
  ((sum_Z (dict_values counter) < 2 ^ 53)%Z ->
   exists codes,
     Workbook2.calculate_shannon_fano limit counter = Ok codes /\
     dict_keys codes = dict_keys counter /\ Codec codes) /\
  (exists codes encoded root,
     Workbook3.build_huffman_codes chars counter = Ok (codes, encoded, root) /\
     dict_keys codes ≡ₚ dict_keys counter /\ Codec codes).
Proof.
  intros Hnd Hlen Hpos Hlimit Hchars. split.
  - intros Hexact. destruct (calculate_shannon_fano_spec limit counter)
      as (codes & sfx & -> & Hkeys & Hget & Hsuf); [done| |done|done|lia|].
    { eapply Forall_impl; [exact Hpos|]. simpl. lia. }
    exists codes. split_and!; [done..|].
    apply (suffix_code_Codec codes sfx); rewrite ?Hkeys; [done| |done..].
    rewrite <- (length_fmap fst codes). fold (dict_keys codes). rewrite Hkeys.
    unfold dict_keys. by rewrite length_fmap.
  - destruct (build_huffman_codes_Ok chars counter)
      as (root & Htree & Hleaves & _ & ->); [done| |done|].
    { intros ->. simpl in Hlen. lia. }
    eexists _, _, _. split; [done|]. split.
    + unfold dict_keys at 1. by rewrite codes_of_keys.
    + apply codes_of_Codec; [done|]. by rewrite Hleaves.
Qed.

Lemma builders_give_prefix_free_codecs_witness :
  ((sum_Z (dict_values abc_counter) < 2 ^ 53)%Z ->
   exists codes,
     Workbook2.calculate_shannon_fano 3 abc_counter = Ok codes /\
     dict_keys codes = dict_keys abc_counter /\ Codec codes) /\
  (exists codes encoded root,
     Workbook3.build_huffman_codes ["a"; "c"] abc_counter = Ok (codes, encoded, root) /\
     dict_keys codes ≡ₚ dict_keys abc_counter /\ Codec codes).
Proof.
  apply (builders_give_prefix_free_codecs 3 ["a"; "c"] abc_counter).
  - apply (bool_decide_unpack _). vm_compute. exact I.
  - simpl. lia.
  - repeat constructor.
  - simpl. lia.
  - repeat constructor; apply (bool_decide_unpack _); vm_compute; exact I.
Defined.

(** X5 (Workbook2, the loop of [split] in [calculate_shannon_fano]).  For
    a total below [2 ^ 53] the float [total / 2] is half the total, and the
    loop cuts after the first entry with which the counts seen so far
    reach half the total: no shorter prefix reaches it, and the cut stays
    0 when no prefix does. *)
Theorem find_cut_first_half (group : list (string * Z)) (total : Z) :
  (0 <= total < 2 ^ 53)%Z ->
  exists cut_idx, Workbook2.find_cut group total 0 0 = Ok cut_idx /\
    (0 <= cut_idx <= Z.of_nat (length group))%Z /\
    (cut_idx <> 0%Z ->
       (total <= 2 * sum_Z (take (Z.to_nat cut_idx) group).*2)%Z) /\
    (forall k, (1 <= k <= length group)%nat ->
       (cut_idx = 0 \/ Z.of_nat k < cut_idx)%Z ->
       (2 * sum_Z (take k group).*2 < total)%Z).
Proof.
  intros Hexact.
  destruct (find_cut_scan group total 0 0 Hexact) as (cut_idx & Heq & Hcut).
  exists cut_idx. split; [done|].
  destruct Hcut as [[-> Hall]|(m & Hm & -> & Hreach & Hall)].
  - split; [lia|]. split; [done|].
    intros k Hk _. specialize (Hall k Hk). lia.
  - split; [lia|]. split.
    + intros _. replace (Z.to_nat (0 + Z.of_nat m)) with m by lia. lia.
    + intros k Hk [Hz|Hlt]; [lia|]. specialize (Hall k). lia.
Qed.

Lemma find_cut_first_half_witness :
  exists cut_idx, Workbook2.find_cut abc_counter 4 0 0 = Ok cut_idx /\
    (0 <= cut_idx <= Z.of_nat (length abc_counter))%Z /\
    (cut_idx <> 0%Z ->
       (4 <= 2 * sum_Z (take (Z.to_nat cut_idx) abc_counter).*2)%Z) /\
    (forall k, (1 <= k <= length abc_counter)%nat ->
       (cut_idx = 0 \/ Z.of_nat k < cut_idx)%Z ->
       (2 * sum_Z (take k abc_counter).*2 < 4)%Z).
Proof.
  apply (find_cut_first_half abc_counter 4). split; [lia|by vm_compute].
Defined.

(** ** Entropy against average code length *)

Section EfficiencyFacts.
Import Workbook1.

Lemma sumR_cons {A} (f : A -> R) (x : A) (l : list A) :
  sumR f (x :: l) = (f x + sumR f l)%R.
Proof. done. Qed.

Lemma sumR_ext {A} (f g : A -> R) (l : list A) :
  (forall x, x ∈ l -> f x = g x) -> sumR f l = sumR g l.
Proof.
  induction l as [|x l IH]; intros Hfg; [done|].
  rewrite !sumR_cons, (Hfg x), IH; [done| |by left].
  intros y Hy. apply Hfg. by right.
Qed.

Lemma Q2R_inject_Z (z : Z) : Q2R (inject_Z z) = IZR z.
Proof. unfold Q2R. simpl. lra. Qed.

Lemma Q2R_half_pow (n : nat) : Q2R (half_pow n) = (/ 2 ^ n)%R.
Proof.
  induction n as [|n IH].
  - unfold Q2R. simpl. lra.
  - simpl half_pow. rewrite Q2R_mult, IH. simpl pow.
    assert (2 ^ n <> 0)%R as Hpow by (apply pow_nonzero; lra).
    unfold Q2R at 1. simpl. field. done.
Qed.

Lemma Q2R_sumQ {A} (f : A -> Q) (l : list A) :
  Q2R (sumQ f l) = sumR (fun x => Q2R (f x)) l.
Proof.
  induction l as [|x l IH].
  - unfold Q2R. simpl. lra.
  - rewrite sumQ_cons, sumR_cons, Q2R_plus, IH. done.
Qed.

(** The summands of the entropy against code lengths [len]: Gibbs'
    inequality, summand by summand. *)
Lemma sum_terms_code_bound (n : Z) (len : string -> nat) (l : list (string * Z))
  (acc : R) :
  (0 < n)%Z -> (forall x, x ∈ l -> (0 < x.2 <= n)%Z) ->
  exists h, sum_terms (entropy_term n) l.*2 acc = Ok h /\
    (h * ln 2 <= acc * ln 2
       + sumR (fun x => IZR x.2 / IZR n * INR (len x.1)) l * ln 2
       + sumR (fun x => / 2 ^ len x.1) l - IZR (sum_Z l.*2) / IZR n)%R.
Proof.
  intros Hn. revert acc.
  assert (0 < IZR n)%R as Hn' by (by apply IZR_lt).
  induction l as [|[s c] l IH]; intros acc Hall.
  - exists acc. split; [done|]. unfold sum_Z. simpl. lra.
  - rewrite fmap_cons, sum_Z_cons, plus_IZR, !sumR_cons. cbn [fst snd].
    simpl sum_terms.
    assert (0 < 2 ^ len s)%R as Hpow by (apply pow_lt; lra).
    destruct (entropy_term_upper n c (2 ^ len s)) as (t & -> & Ht); [|done|].
    { apply (Hall (s, c)). by left. }
    cbn [bind]. destruct (IH (acc + t)%R) as (h & -> & Hh).
    { intros x Hx. apply Hall. by right. }
    exists h. split; [done|].
    rewrite ln_pow in Ht by lra.
    set (S' := IZR (sum_Z l.*2)) in *.
    set (W := sumR (fun x => IZR x.2 / IZR n * INR (len x.1))%R l) in *.
    set (Kr := sumR (fun x => / 2 ^ len x.1)%R l) in *.
    replace ((IZR c + S') / IZR n)%R with (IZR c / IZR n + S' / IZR n)%R
      by (field; lra).
    replace (1 / 2 ^ len s)%R with (/ 2 ^ len s)%R in Ht by (field; lra).
    lra.
Qed.

Lemma calculate_entropy_code_bound (len : string -> nat) (counter : list (string * Z)) :
  Forall (fun x => 0 < x.2)%Z counter -> counter <> [] ->
  (sumR (fun x => / 2 ^ len x.1) counter <= 1)%R ->
  exists h, calculate_entropy counter = Ok h /\
    (h <= sumR (fun x => IZR x.2 / IZR (sum_Z (dict_values counter))
                         * INR (len x.1)) counter)%R.
Proof.
  intros Hpos Hne Hkraft. unfold calculate_entropy, dict_values.
  assert (Forall (fun x => 0 < x)%Z counter.*2) as Hvals by (by apply Forall_fmap).
  assert (counter.*2 <> []) as Hne' by (by destruct counter).
  assert (0 < sum_Z counter.*2)%Z as Hn by (by apply sum_Z_pos).
  rewrite (proj2 (Z.eqb_neq _ 0)) by lia.
  destruct (sum_terms_code_bound (sum_Z counter.*2) len counter 0)
    as (h & -> & Hh); [done| |].
  { intros [s c] Hx. simpl.
    assert (c ∈ counter.*2) as Hc.
    { apply list_elem_of_fmap. by exists (s, c). }
    split; [|by apply (elem_le_sum_Z _ c Hvals Hc)].
    by apply (proj1 (Forall_forall _ _) Hvals). }
  exists h. split; [done|]. pose proof ln_2_pos as Hln2.
  assert (0 < IZR (sum_Z counter.*2))%R as Hn' by (by apply IZR_lt).
  replace (IZR (sum_Z counter.*2) / IZR (sum_Z counter.*2))%R with 1%R in Hh
    by (field; lra).
  apply (Rmult_le_reg_r (ln 2)); [done|]. lra.
Qed.

Lemma Q2R_weighted_length (N : Z) (codes : list (string * string))
  (counter : list (string * Z)) :
  N <> 0%Z -> (forall s, s ∈ dict_keys counter -> s ∈ dict_keys codes) ->
  Q2R (weighted_length N codes counter)
  = sumR (fun x => IZR x.2 / IZR N * INR (String.length (codeword codes x.1)))%R
      counter.
Proof.
  intros HN Hkeys. unfold weighted_length. rewrite Q2R_sumQ.
  apply sumR_ext. intros [s c] Hin. cbn [fst snd].
  assert (is_Some (dict_get codes s)) as [code Hcode].
  { apply dict_get_is_Some, Hkeys. unfold dict_keys.
    apply list_elem_of_fmap. by exists (s, c). }
  unfold codeword. rewrite Hcode. cbn [default].
  rewrite Q2R_mult, Q2R_div, !Q2R_inject_Z.
  - unfold code_len. by rewrite Q2R_inject_Z, <- INR_IZR_INZ.
  - intros Heq. apply HN. rewrite <- (inject_Z_injective N 0). exact Heq.
Qed.

Lemma Q2R_kraft_sum (codes : list (string * string)) (counter : list (string * Z)) :
  NoDup (dict_keys codes) -> dict_keys codes ≡ₚ dict_keys counter ->
  Q2R (kraft_sum codes)
  = sumR (fun x => / 2 ^ String.length (codeword codes x.1))%R counter.
Proof.
  intros Hnd Hperm.
  assert (kraft_sum codes
          == sumQ (fun x : string * Z =>
                     half_pow (String.length (codeword codes x.1))) counter) as Heq.
  { rewrite <- (sumQ_fmap fst (fun k => half_pow (String.length (codeword codes k)))).
    fold (dict_keys counter). rewrite <- (sumQ_perm _ _ _ Hperm).
    unfold kraft_sum, dict_keys. rewrite sumQ_fmap. apply sumQ_ext.
    intros [k c] Hin. unfold codeword. simpl.
    rewrite (dict_get_of_elem codes k c); [reflexivity|done|done]. }
  rewrite (Qeq_eqR _ _ Heq), Q2R_sumQ. apply sumR_ext.
  intros x _. apply Q2R_half_pow.
Qed.

(** The entropy of a count does not exceed the average length of a
    table for its symbols whose Kraft sum is at most 1. *)
Lemma entropy_le_average (counter : list (string * Z))
  (codes : list (string * string)) (avg : Q) :
  Forall (fun x => 0 < x.2)%Z counter -> counter <> [] ->
  NoDup (dict_keys codes) -> dict_keys codes ≡ₚ dict_keys counter ->
  (kraft_sum codes <= 1)%Q ->
  avg == weighted_length (sum_Z (dict_values counter)) codes counter ->
  exists h, calculate_entropy counter = Ok h /\ (0 <= h <= Q2R avg)%R.
Proof.
  intros Hpos Hne Hnd Hperm Hkraft Havg.
  destruct (calculate_entropy_spec counter Hpos) as (h0 & Hh0 & Hge & _).
  destruct (calculate_entropy_code_bound
              (fun s => String.length (codeword codes s)) counter Hpos Hne)
    as (h & Hh & Hle).
  { rewrite <- Q2R_kraft_sum by done. apply Qle_Rle in Hkraft.
    replace (Q2R 1) with 1%R in Hkraft by (unfold Q2R; simpl; lra). done. }
  rewrite Hh in Hh0. injection Hh0 as <-.
  exists h. split; [done|]. split; [done|].
  rewrite (Qeq_eqR _ _ Havg), Q2R_weighted_length; [done| |].
  - assert (0 < sum_Z (dict_values counter))%Z; [|lia].
    apply sum_Z_pos; [by apply Forall_fmap|by destruct counter].
  - intros s Hs. by rewrite Hperm.
Qed.

End EfficiencyFacts.

(* ================================================================== *)
(** * The workbooks end to end *)
(* ================================================================== *)

Section CounterMore.

Lemma occurrences_pos (items : list string) (s : string) :
  s ∈ items -> (0 < occurrences s items)%Z.
Proof.
  intros Hin. unfold occurrences.
  assert (s ∈ filter (fun x => x = s) items) as Hf by (by apply list_elem_of_filter).
  destruct (filter (fun x => x = s) items); [by apply elem_of_nil in Hf|simpl; lia].
Qed.

Lemma Counter_positive (items : list string) :
  Forall (fun x => 0 < x.2)%Z (Counter items).
Proof.
  destruct (Counter_spec items) as (Hnd & Hget & _).
  apply Forall_forall. intros [s n] Hin. simpl.
  rewrite <- (counter_get_of_elem _ _ _ Hnd Hin), Hget.
  apply occurrences_pos, Counter_keys_elem.
  unfold dict_keys. apply list_elem_of_fmap. by exists (s, n).
Qed.

Lemma Counter_nonneg (items : list string) :
  Forall (fun x => 0 <= x.2)%Z (Counter items).
Proof. eapply Forall_impl; [apply Counter_positive|]. simpl. lia. Qed.

Lemma Counter_nil (items : list string) : Counter items = [] <-> items = [].
Proof.
  split; [|by intros ->]. intros Hnil. destruct items as [|x items]; [done|].
  assert (x ∈ dict_keys (Counter (x :: items))) as Hin.
  { apply Counter_keys_elem. by left. }
  rewrite Hnil in Hin. by apply elem_of_nil in Hin.
Qed.

(** Fewer than two entries: all the items are the same. *)
Lemma Counter_small (items : list string) (x y : string) :
  (length (Counter items) <= 1)%nat -> x ∈ items -> y ∈ items -> x = y.
Proof.
  intros Hlen Hx%Counter_keys_elem Hy%Counter_keys_elem.
  unfold dict_keys in *. destruct (Counter items) as [|e [|e' l]].
  - by apply elem_of_nil in Hx.
  - apply list_elem_of_singleton in Hx, Hy. congruence.
  - simpl in Hlen. lia.
Qed.

Lemma Counter_covered (items : list string) (codec : list (string * string)) :
  dict_keys codec = dict_keys (Counter items) -> covered items codec.
Proof.
  intros Hkeys. apply Forall_forall. intros s Hs.
  apply dict_get_is_Some. rewrite Hkeys. by apply Counter_keys_elem.
Qed.

Lemma chars_of_length (text : string) :
  length (chars_of text) = String.length text.
Proof. induction text as [|c text IH]; [done|]. simpl. by rewrite IH. Qed.

(** All the bigrams of a text of three characters or more being the same,
    all its characters are the same. *)
Lemma bigrams_same_chars (rest : string) (a b : ascii) :
  (forall x, x ∈ bigrams (String a (String b rest)) -> x = String a (String b "")) ->
  (rest <> ""%string -> a = b) /\
  (forall c, c ∈ chars_of rest -> c = String a "").
Proof.
  revert a b. induction rest as [|c rest IH]; intros a b Hall.
  { split; [done|]. intros c Hc. by apply elem_of_nil in Hc. }
  rewrite bigrams_cons in Hall.
  assert (String b (String c "") = String a (String b "")) as Heq.
  { apply Hall. right. rewrite bigrams_cons. by left. }
  injection Heq as -> ->. split; [done|].
  destruct (IH a a) as [_ Hchars].
  { intros x Hx. apply Hall. by right. }
  intros c Hc. simpl in Hc. apply elem_of_cons in Hc as [->|Hc]; [done|].
  by apply Hchars.
Qed.

Lemma Counter_same (items : list string) :
  (forall x y, x ∈ items -> y ∈ items -> x = y) -> (length (Counter items) <= 1)%nat.
Proof.
  intros Hsame. destruct (Counter_spec items) as (Hnd & _ & _).
  assert (forall s, s ∈ dict_keys (Counter items) -> s ∈ items) as Hin.
  { intros s. apply Counter_keys_elem. }
  unfold dict_keys in *. destruct (Counter items) as [|[x n] [|[y m] l]]; simpl; [lia..|].
  exfalso. simpl in Hnd, Hin. apply NoDup_cons in Hnd as [Hx _]. apply Hx.
  rewrite (Hsame x y); [by left|apply Hin; by left|apply Hin; right; by left].
Qed.

Lemma two_bigrams (text : string) :
  (2 <= length (Counter (chars_of text)))%nat -> (3 <= String.length text)%nat ->
  (2 <= length (Counter (bigrams text)))%nat.
Proof.
  intros Hu Hlen.
  destruct (decide (2 <= length (Counter (bigrams text)))%nat) as [|Hb]; [done|].
  exfalso. assert (length (Counter (chars_of text)) <= 1)%nat; [|lia].
  destruct text as [|a [|b rest]]; [simpl in Hlen; lia..|].
  destruct (bigrams_same_chars rest a b) as [Hab Hrest].
  { intros x Hx. apply (Counter_small (bigrams (String a (String b rest)))).
    - lia.
    - done.
    - rewrite bigrams_cons. by left. }
  assert (a = b) as <-.
  { apply Hab. intros ->. simpl in Hlen. lia. }
  apply Counter_same.
  assert (forall x, x ∈ chars_of (String a (String a rest)) -> x = String a "") as Hall.
  { intros x Hx. simpl in Hx. apply elem_of_cons in Hx as [->|Hx]; [done|].
    apply elem_of_cons in Hx as [->|Hx]; [done|]. by apply Hrest. }
  intros x y Hx Hy. by rewrite (Hall x Hx), (Hall y Hy).
Qed.

End CounterMore.

Section MainFacts.

Lemma calculate_code_length_and_redundancy_Ok (counter : list (string * Z))
  (entropy : R) :
  exists v, Workbook1.calculate_code_length_and_redundancy counter entropy = Ok v.
Proof.
  unfold Workbook1.calculate_code_length_and_redundancy.
  destruct (Z.of_nat (length counter) <=? 1)%Z eqn:Hle; [by eexists|].
  apply Z.leb_gt in Hle.
  destruct (log2_symbols_count (length counter)) as [-> HL]; [lia|].
  cbn [bind]. unfold fdiv_R. destruct (Req_dec_T _ 0) as [Hz|_]; [lra|].
  by eexists.
Qed.

Lemma Q2R_zero : Q2R 0 = 0%R.
Proof. unfold Q2R. simpl. lra. Qed.

Lemma fdiv_R_zero (x : R) (q : Q) :
  q == 0 -> fdiv_R x (Q2R q) = Raise ZeroDivisionError.
Proof.
  intros Hq. unfold fdiv_R. destruct (Req_dec_T (Q2R q) 0) as [_|Hne]; [done|].
  exfalso. apply Hne. rewrite (Qeq_eqR _ _ Hq). apply Q2R_zero.
Qed.

Lemma fdiv_R_pos (x : R) (q : Q) :
  (0 < q)%Q -> fdiv_R x (Q2R q) = Ok (x / Q2R q)%R.
Proof.
  intros Hq. unfold fdiv_R. destruct (Req_dec_T (Q2R q) 0) as [Hz|_]; [|done].
  apply Qlt_Rlt in Hq. rewrite Q2R_zero in Hq. lra.
Qed.

(** Codewords that are not empty: the encoding is as long as the sequence
    at least. *)
Lemma encoded_length_ge (codec : list (string * string)) (items : list string) :
  (forall s c, dict_get codec s = Some c -> c <> ""%string) -> covered items codec ->
  (length items <= String.length (join (codeword codec <$> items)))%nat.
Proof.
  intros Hne Hcov. induction Hcov as [|s items [c Hc] _ IH]; [done|].
  rewrite fmap_cons, join_cons, str_app_length. unfold codeword at 1.
  rewrite Hc. specialize (Hne s c Hc).
  destruct c; [done|]. simpl. lia.
Qed.

(** The sum both average functions accumulate, times the divisor they
    use, is the length of the encoding of the counted sequence. *)
Lemma weighted_sum_encoded (codec : list (string * string)) (items : list string)
  (N : Z) :
  NoDup (dict_keys codec) -> N <> 0%Z ->
  sumQ (fun '(s, code) =>
          inject_Z (counter_get (Counter items) s) / inject_Z N * code_len code)%Q
       codec * inject_Z N
  == inject_Z (Z.of_nat (String.length (join (codeword codec <$> items)))).
Proof.
  intros Hnd HN. destruct (Counter_spec items) as (Hndc & _ & _).
  rewrite sum_over_codec_weighted_length by done.
  rewrite join_codewords_length, <- Counter_sumQ, <- weighted_length_scaled by done.
  reflexivity.
Qed.

Lemma weighted_sum_ge_1 (codec : list (string * string)) (items : list string) :
  NoDup (dict_keys codec) ->
  (forall s c, dict_get codec s = Some c -> c <> ""%string) -> covered items codec ->
  items <> [] ->
  (1 <= sumQ (fun '(s, code) =>
          inject_Z (counter_get (Counter items) s)
          / inject_Z (Z.of_nat (length items)) * code_len code) codec)%Q.
Proof.
  intros Hnd Hne Hcov Hitems.
  assert (0 < Z.of_nat (length items))%Z as HN by (destruct items; [done|simpl; lia]).
  apply (Qmult_le_r _ _ (inject_Z (Z.of_nat (length items)))).
  { change 0%Q with (inject_Z 0). by rewrite <- Zlt_Qlt. }
  rewrite weighted_sum_encoded by (done || lia). rewrite Qmult_1_l.
  rewrite <- Zle_Qle. apply inj_le. by apply encoded_length_ge.
Qed.

(** Counting, [calculate_shannon_fano], [encode], [decode] and
    [avg_code_length] in a row, on a sequence of two distinct symbols or
    more. *)
Lemma shannon_fano_pipeline limit (items : list string) :
  (2 <= length (Counter items) <= limit)%nat ->
  (Z.of_nat (length items) < 2 ^ 53)%Z ->
  exists codec avg,
    Workbook2.calculate_shannon_fano limit (Counter items) = Ok codec /\
    Codec codec /\ covered items codec /\
    Workbook2.encode items codec = Ok (join (codeword codec <$> items)) /\
    Workbook2.decode (join (codeword codec <$> items)) codec = Ok (join items) /\
    Workbook2.avg_code_length codec (Counter items) = Ok avg /\ (1 <= avg)%Q /\
    exists h, Workbook1.calculate_entropy (Counter items) = Ok h /\
      (0 <= h <= Q2R avg)%R.
Proof.
  intros [H2 Hlim] Hexact. destruct (Counter_spec items) as (Hnd & _ & _).
  rewrite <- Counter_total in Hexact.
  destruct (calculate_shannon_fano_spec limit (Counter items) Hnd
              (Counter_nonneg items) Hexact Hlim ltac:(lia))
    as (codec & sfx & Heq & Hkeys & Hget & Hsuf).
  assert (Codec codec) as Hcodec.
  { apply (suffix_code_Codec codec sfx); rewrite ?Hkeys; [done| |done..].
    rewrite <- (length_fmap fst codec). fold (dict_keys codec). rewrite Hkeys.
    unfold dict_keys. by rewrite length_fmap. }
  assert (covered items codec) as Hcov by (by apply Counter_covered).
  assert (items <> []) as Hne.
  { intros ->. simpl in H2. lia. }
  assert (Z.of_nat (length items) <> 0%Z) as HN by (destruct items; [done|simpl; lia]).
  assert (exists avg, Workbook2.avg_code_length codec (Counter items) = Ok avg
            /\ (1 <= avg)%Q
            /\ avg == weighted_length (sum_Z (dict_values (Counter items)))
                        codec (Counter items)) as (avg & Havg & Hge & Hw).
  { unfold Workbook2.avg_code_length. rewrite Counter_total.
    rewrite (proj2 (Z.eqb_neq _ 0) HN).
    destruct (avg_sum_spec (Counter items) (Z.of_nat (length items)) codec 0 HN)
      as (avg & -> & Havg).
    exists avg. split; [done|]. rewrite Havg, Qplus_0_l. split.
    - apply weighted_sum_ge_1; [apply Hcodec|apply Hcodec|done|done].
    - apply sum_over_codec_weighted_length; [apply Hcodec|done]. }
  exists codec, avg. split_and!; [done|done|done| | |done|done|].
  - by rewrite encode_covered, lookup_join_covered.
  - unfold Workbook2.decode.
    rewrite (decode_symbols_lookup_join codec items); [done|done|].
    by apply lookup_join_covered.
  - destruct (calculate_shannon_fano_kraft limit (Counter items) Hnd
                (Counter_nonneg items) Hexact Hlim) as (codec' & Heq' & Hkraft).
    { by rewrite Counter_nil. }
    rewrite Heq in Heq'. injection Heq' as <-.
    apply (entropy_le_average (Counter items) codec avg);
      [apply Counter_positive|by rewrite Counter_nil|apply Hcodec|by rewrite Hkeys| |done].
    rewrite Hkraft. apply Qle_refl.
Qed.

(** A dictionary of one symbol or none: every codeword is empty. *)
Lemma calculate_shannon_fano_small limit (counter : list (string * Z)) :
  (length counter <= 1)%nat -> (1 <= limit)%nat ->
  Workbook2.calculate_shannon_fano limit counter
  = Ok ((fun '(char, _) => (char, ""%string)) <$> counter).
Proof.
  intros Hlen Hlimit. destruct limit as [|limit]; [lia|].
  destruct counter as [|[c n] [|? ?]]; [done|done|simpl in Hlen; lia].
Qed.

Lemma avg_code_length_empty_codes (codec : list (string * string))
  (counter : list (string * Z)) :
  (forall s c, (s, c) ∈ codec -> c = ""%string) ->
  exists avg, Workbook2.avg_code_length codec counter = Ok avg /\ avg == 0.
Proof.
  intros Hempty. unfold Workbook2.avg_code_length.
  destruct (sum_Z (dict_values counter) =? 0)%Z eqn:Hz; [by exists 0%Q|].
  apply Z.eqb_neq in Hz.
  destruct (avg_sum_spec counter (sum_Z (dict_values counter)) codec 0 Hz)
    as (avg & -> & Havg).
  exists avg. split; [done|]. rewrite Havg, Qplus_0_l. apply sumQ_zero.
  intros [s c] Hin. rewrite (Hempty s c Hin). unfold code_len. simpl.
  change (inject_Z 0) with 0%Q. ring.
Qed.

(** The same calls on a sequence of fewer than two distinct symbols: all
    of them return, and the average length is zero. *)
Lemma shannon_fano_degenerate limit (items : list string) :
  (length (Counter items) <= 1)%nat -> (1 <= limit)%nat ->
  exists codec bits out avg,
    Workbook2.calculate_shannon_fano limit (Counter items) = Ok codec /\
    Workbook2.encode items codec = Ok bits /\
    Workbook2.decode bits codec = Ok out /\
    Workbook2.avg_code_length codec (Counter items) = Ok avg /\ avg == 0.
Proof.
  intros Hlen Hlimit. rewrite calculate_shannon_fano_small by done.
  set (codec := (fun '(char, _) => (char, ""%string)) <$> Counter items).
  assert (dict_keys codec = dict_keys (Counter items)) as Hkeys.
  { unfold dict_keys, codec. rewrite <- list_fmap_compose.
    apply list_fmap_ext. by intros _ [??] _. }
  destruct (avg_code_length_empty_codes codec (Counter items)) as (avg & Havg & Hz).
  { intros s c Hin. unfold codec in Hin.
    apply list_elem_of_fmap in Hin as ([s' n] & Heq & _). by simplify_eq. }
  exists codec. eexists _, _, avg. split_and!; [done| |done|done|done].
  rewrite encode_covered, lookup_join_covered; [done|..]; by apply Counter_covered.
Qed.

End MainFacts.

(** A quotient of a value between 0 and a divisor that is 1 at least. *)
Lemma ratio_in_unit (h : R) (q : Q) :
  (1 <= q)%Q -> (0 <= h <= Q2R q)%R -> (0 <= h / Q2R q <= 1)%R.
Proof.
  intros Hq [Hh0 Hh]. apply Qle_Rle in Hq.
  replace (Q2R 1) with 1%R in Hq by (unfold Q2R; simpl; lra).
  split.
  - apply Rmult_le_pos; [done|]. left. apply Rinv_0_lt_compat. lra.
  - apply (Rmult_le_reg_r (Q2R q)); [lra|].
    replace (h / Q2R q * Q2R q)%R with h by (field; lra). lra.
Qed.

(** One call of a sequence of calls returns. *)
Ltac returns H := rewrite H; cbn [bind].

(** X13 (Workbook2, [main]).  On a text with two distinct characters or
    more and two distinct bigrams or more, of fewer than [2 ^ 53]
    characters, as every text in memory is, so that half the total of its
    counts is a float, and a recursion limit that is not hit, [main] runs
    to its end: the text decoded from the
    Shannon–Fano encoding is the text that was read (it prints True for
    the comparison), the decoded bigram stream is the concatenation of the
    overlapping bigrams, and both average code lengths are 1 at least, so
    that neither efficiency divides by zero.  The efficiency it prints for
    the characters, entropy over average code length, lies between 0 and
    1. *)
Theorem main_shannon_fano_round_trip (limit : nat) (text : string) :
  (2 <= length (Counter (chars_of text)) <= limit)%nat ->
  (2 <= length (Counter (bigrams text)) <= limit)%nat ->
  (Z.of_nat (String.length text) < 2 ^ 53)%Z ->
  exists v, Workbook2.main limit text = Ok v /\
    Workbook2.main_decoded v = text /\
    Workbook2.main_bigrams_decoded v = join (bigrams text) /\
    (1 <= Workbook2.main_avg_length v)%Q /\
    (1 <= Workbook2.main_bigrams_avg_length v)%Q /\
    (0 <= Workbook2.main_efficiency v <= 1)%R.
Proof.
  intros Hu Hb Hexact. unfold Workbook2.main. cbv zeta.
  destruct (calculate_entropy_spec (Counter (chars_of text)) (Counter_positive _))
    as (h & Hh & _).
  change (Workbook2.calculate_entropy (Counter (chars_of text)))
    with (Workbook1.calculate_entropy (Counter (chars_of text))).
  rewrite Hh. cbn [bind].
  destruct (calculate_code_length_and_redundancy_Ok (Counter (chars_of text)) h)
    as (lr & Hlr).
  unfold Workbook2.calculate_code_length_and_redundancy. rewrite Hlr. cbn [bind].
  destruct (shannon_fano_pipeline limit (chars_of text) Hu)
    as (codec & avg & Hsf & _ & _ & Henc & Hdec & Havg & Hge & h' & Hh' & Heff).
  { by rewrite chars_of_length. }
  rewrite Hh in Hh'. injection Hh' as <-.
  returns Hsf. returns Henc. returns Hdec. returns Havg.
  rewrite fdiv_R_pos by (eapply Qlt_le_trans; [|exact Hge]; done).
  cbn [bind].
  destruct (calculate_entropy_spec (Counter (bigrams text)) (Counter_positive _))
    as (hb & Hhb & _).
  change (Workbook2.calculate_entropy (Counter (bigrams text)))
    with (Workbook1.calculate_entropy (Counter (bigrams text))).
  rewrite Hhb. cbn [bind].
  destruct (shannon_fano_pipeline limit (bigrams text) Hb)
    as (bcodec & bavg & Hbsf & _ & _ & Hbenc & Hbdec & Hbavg & Hbge & _).
  { rewrite bigrams_length. lia. }
  returns Hbsf. returns Hbavg.
  rewrite fdiv_R_pos by (eapply Qlt_le_trans; [|exact Hbge]; done).
  cbn [bind]. returns Hbenc. returns Hbdec.
  eexists. split; [done|].
  cbn [Workbook2.main_decoded Workbook2.main_bigrams_decoded
       Workbook2.main_avg_length Workbook2.main_bigrams_avg_length
       Workbook2.main_efficiency].
  split_and!; [by rewrite join_chars_of|done|done|done|..];
    by apply ratio_in_unit.
Qed.

Lemma main_shannon_fano_round_trip_witness :
  exists v, Workbook2.main 3 "abca" = Ok v /\
    Workbook2.main_decoded v = "abca"%string /\
    Workbook2.main_bigrams_decoded v = join (bigrams "abca") /\
    (1 <= Workbook2.main_avg_length v)%Q /\
    (1 <= Workbook2.main_bigrams_avg_length v)%Q /\
    (0 <= Workbook2.main_efficiency v <= 1)%R.
Proof.
  apply (main_shannon_fano_round_trip 3 "abca"); [vm_compute; lia..|by vm_compute].
Defined.

(** X14 (Workbook2, [main]).  On a text with fewer than two distinct
    characters, the empty text included, or with one bigram only, every
    codeword of the Shannon–Fano table is empty, the average code length
    is 0, and [main] stops with ZeroDivisionError where it divides the
    entropy by it. *)
Theorem main_shannon_fano_zero_division (limit : nat) (text : string) :
  (1 <= limit)%nat -> (length (Counter (chars_of text)) <= limit)%nat ->
  (length (Counter (chars_of text)) <= 1)%nat
  \/ (length (Counter (bigrams text)) <= 1)%nat ->
  Workbook2.main limit text = Raise ZeroDivisionError.
Proof.
  intros Hlimit Hu Hsmall. unfold Workbook2.main. cbv zeta.
  destruct (calculate_entropy_spec (Counter (chars_of text)) (Counter_positive _))
    as (h & Hh & _).
  change (Workbook2.calculate_entropy (Counter (chars_of text)))
    with (Workbook1.calculate_entropy (Counter (chars_of text))).
  rewrite Hh. cbn [bind].
  destruct (calculate_code_length_and_redundancy_Ok (Counter (chars_of text)) h)
    as (lr & Hlr).
  unfold Workbook2.calculate_code_length_and_redundancy. rewrite Hlr. cbn [bind].
  destruct (decide (length (Counter (chars_of text)) <= 1)%nat) as [Hone|Htwo].
  - destruct (shannon_fano_degenerate limit (chars_of text) Hone Hlimit)
      as (codec & bits & out & avg & Hsf & Henc & Hdec & Havg & Hzero).
    returns Hsf. returns Henc. returns Hdec. returns Havg.
    by rewrite fdiv_R_zero.
  - destruct Hsmall as [Hone|Hone]; [lia|].
    destruct (shannon_fano_pipeline limit (chars_of text))
      as (codec & avg & Hsf & _ & _ & Henc & Hdec & Havg & Hge & _); [lia| |].
    { rewrite chars_of_length.
      destruct (decide (3 <= String.length text)%nat) as [Hlong|Hshort]; [|lia].
      pose proof (two_bigrams text ltac:(lia) Hlong). lia. }
    returns Hsf. returns Henc. returns Hdec. returns Havg.
    rewrite fdiv_R_pos by (eapply Qlt_le_trans; [|exact Hge]; done).
    cbn [bind].
    destruct (calculate_entropy_spec (Counter (bigrams text)) (Counter_positive _))
      as (hb & Hhb & _).
    change (Workbook2.calculate_entropy (Counter (bigrams text)))
      with (Workbook1.calculate_entropy (Counter (bigrams text))).
    rewrite Hhb. cbn [bind].
    destruct (shannon_fano_degenerate limit (bigrams text) Hone Hlimit)
      as (bcodec & bbits & bout & bavg & Hbsf & _ & _ & Hbavg & Hbzero).
    returns Hbsf. returns Hbavg. by rewrite fdiv_R_zero.
Qed.

Lemma main_shannon_fano_zero_division_witness :
  Workbook2.main 1000 "aaaa" = Raise ZeroDivisionError
  /\ Workbook2.main 1000 "" = Raise ZeroDivisionError
  /\ Workbook2.main 1000 "ab" = Raise ZeroDivisionError.
Proof.
  split_and!.
  - apply (main_shannon_fano_zero_division 1000 "aaaa"); vm_compute; [lia|lia|left; lia].
  - apply (main_shannon_fano_zero_division 1000 ""); vm_compute; [lia|lia|left; lia].
  - apply (main_shannon_fano_zero_division 1000 "ab"); vm_compute; [lia|lia|right; lia].
Defined.

Section HuffmanMain.
Import Workbook3.

Lemma chars_of_nonempty (text : string) :
  Forall (fun s => s <> ""%string) (chars_of text).
Proof. induction text as [|c text IH]; constructor; done. Qed.

Lemma bigrams_nonempty (text : string) :
  Forall (fun s => s <> ""%string) (bigrams text).
Proof.
  induction text as [|a text IH]; [rewrite bigrams_short by (simpl; lia); constructor|].
  destruct text as [|b rest]; [rewrite bigrams_short by (simpl; lia); constructor|].
  rewrite bigrams_cons. by constructor.
Qed.

Lemma covered_of_keys (items : list string) (codec : list (string * string)) :
  (forall s, s ∈ items -> s ∈ dict_keys codec) -> covered items codec.
Proof.
  intros Hkeys. apply Forall_forall. intros s Hs. by apply dict_get_is_Some, Hkeys.
Qed.

(** The walk through a tree that is one leaf: the first bit leaves the
    tree, the second one finds no node to go on from. *)
Lemma decode_text_leaf (c : string) (f : Z) (bits : string) :
  decode_text bits (mkNode (Some c) f None None)
  = if (String.length bits <=? 1)%nat then Ok [] else Raise AttributeError.
Proof.
  unfold decode_text.
  destruct bits as [|b [|b' rest]]; [done|..]; cbn -[Ascii.eqb];
    by destruct (Ascii.eqb b "1").
Qed.

(** [build_huffman_codes] on a sequence and its own count. *)
Lemma huffman_build (items : list string) :
  items <> [] ->
  exists root,
    build_huffman_codes items (Counter items)
      = Ok (codes_of root "", join (codeword (codes_of root "") <$> items), root) /\
    huff_tree root /\ leaves root ≡ₚ dict_keys (Counter items) /\
    ((2 <= length (Counter items))%nat -> char root = None) /\
    Codec (codes_of root "") /\ covered items (codes_of root "").
Proof.
  intros Hne. destruct (Counter_spec items) as (Hnd & _ & _).
  destruct (build_huffman_codes_Ok items (Counter items))
    as (root & Htree & Hleaves & Hroot & Hbuild).
  { done. } { by rewrite Counter_nil. }
  { apply Forall_forall. intros s Hs. by apply Counter_keys_elem. }
  exists root. split_and!; [done..| |].
  - apply codes_of_Codec; [done|]. by rewrite Hleaves.
  - apply covered_of_keys. intros s Hs. unfold dict_keys.
    rewrite codes_of_keys, Hleaves by done. by apply Counter_keys_elem.
Qed.

Lemma huffman_decode_text (items : list string) root :
  (2 <= length (Counter items))%nat -> Forall (fun s => s <> ""%string) items ->
  huff_tree root -> leaves root ≡ₚ dict_keys (Counter items) ->
  char root = None -> covered items (codes_of root "") ->
  decode_text (join (codeword (codes_of root "") <$> items)) root = Ok items.
Proof.
  intros H2 Hne Htree Hleaves Hroot Hcov.
  destruct (Counter_spec items) as (Hnd & _ & _). unfold decode_text.
  rewrite (decode_text_loop_lookup_join root items _ []); [done|done|done| | |].
  - by rewrite Hleaves.
  - rewrite Hleaves. apply Forall_forall. intros s Hs.
    apply (proj1 (Counter_keys_elem _ _)) in Hs.
    by eapply Forall_forall in Hne.
  - by apply lookup_join_covered.
Qed.

(** One distinct symbol: the tree is its leaf, the only codeword is "0"
    and the encoding has one bit for each item. *)
Lemma huffman_build_single (items : list string) :
  (length (Counter items) <= 1)%nat -> items <> [] ->
  exists c f encoded,
    build_huffman_codes items (Counter items)
      = Ok ([(c, "0"%string)], encoded, mkNode (Some c) f None None) /\
    String.length encoded = length items /\
    covered items [(c, "0"%string)] /\ dict_keys (Counter items) = [c].
Proof.
  intros Hlen Hne.
  assert (forall s, s ∈ items -> s ∈ dict_keys (Counter items)) as Hin.
  { intros s. apply Counter_keys_elem. }
  destruct (Counter items) as [|[c f] [|? ?]] eqn:Hcounter.
  - by apply Counter_nil in Hcounter.
  - exists c, f. unfold build_huffman_codes. simpl.
    assert (covered items [(c, "0"%string)]) as Hcov.
    { apply covered_of_keys. intros s Hs. by apply Hin. }
    rewrite lookup_join_covered by done.
    cbn [bind]. eexists. split_and!; [done| |done|done].
    clear Hne Hcounter Hcov. induction items as [|s items IH]; [done|].
    rewrite fmap_cons, join_cons, str_app_length, IH.
    2:{ intros s' Hs'. apply Hin. by right. }
    assert (s = c) as ->.
    { specialize (Hin s ltac:(by left)). simpl in Hin.
      by apply list_elem_of_singleton in Hin. }
    unfold codeword. simpl. rewrite decide_True by done. done.
  - simpl in Hlen. lia.
Qed.

Lemma single_code_nonempty (c s code : string) :
  dict_get [(c, "0"%string)] s = Some code -> code <> ""%string.
Proof. simpl. case_decide; [|done]. by intros [= <-]. Qed.

Lemma calculate_avg_length_Ok (text : string) (codes : list (string * string))
  (counter : list (string * Z)) :
  text <> ""%string ->
  exists avg, calculate_avg_length text codes counter = Ok avg /\
    avg == sumQ (fun '(s, code) =>
              inject_Z (counter_get counter s)
              / inject_Z (Z.of_nat (String.length text)) * code_len code)%Q codes.
Proof.
  intros Hne. unfold calculate_avg_length.
  destruct (avg_loop_spec counter (Z.of_nat (String.length text)) codes 0)
    as (avg & -> & Havg).
  { destruct text; [done|simpl; lia]. }
  exists avg. split; [done|]. by rewrite Havg, Qplus_0_l.
Qed.

(** The average over the characters of a text and a table of non-empty
    codewords for them is one bit at least. *)
Lemma calculate_avg_length_ge_1 (text : string) (codes : list (string * string)) :
  text <> ""%string -> NoDup (dict_keys codes) ->
  (forall s c, dict_get codes s = Some c -> c <> ""%string) ->
  covered (chars_of text) codes ->
  exists avg, calculate_avg_length text codes (Counter (chars_of text)) = Ok avg /\
    (1 <= avg)%Q /\
    avg == weighted_length (sum_Z (dict_values (Counter (chars_of text))))
             codes (Counter (chars_of text)).
Proof.
  intros Hne Hnd Hcodes Hcov.
  destruct (calculate_avg_length_Ok text codes (Counter (chars_of text)) Hne)
    as (avg & -> & Havg).
  destruct (Counter_spec (chars_of text)) as (Hndc & _ & _).
  exists avg. split; [done|]. rewrite Havg, <- chars_of_length. split.
  - apply weighted_sum_ge_1; [done..|]. by destruct text.
  - rewrite Counter_total. by apply sum_over_codec_weighted_length.
Qed.

Lemma codes_of_kraft_le root :
  huff_tree root -> (kraft_sum (codes_of root "") <= 1)%Q.
Proof.
  intros Htree. destruct (char root) as [c|] eqn:Hchar.
  - destruct Htree as [c' f|f l r Hl Hr]; [|done]. by vm_compute.
  - rewrite codes_of_kraft by auto. apply Qle_refl.
Qed.

(** The entropy of the count of a sequence against the average length of
    the Huffman table for it. *)
Lemma huffman_entropy_le (items : list string) root (avg : Q) :
  items <> [] -> huff_tree root -> leaves root ≡ₚ dict_keys (Counter items) ->
  avg == weighted_length (sum_Z (dict_values (Counter items)))
           (codes_of root "") (Counter items) ->
  exists h, Workbook1.calculate_entropy (Counter items) = Ok h /\
    (0 <= h <= Q2R avg)%R.
Proof.
  intros Hne Htree Hleaves Havg.
  destruct (Counter_spec items) as (Hnd & _ & _).
  apply (entropy_le_average (Counter items) (codes_of root "") avg);
    [apply Counter_positive|by rewrite Counter_nil| | |by apply codes_of_kraft_le|done].
  - unfold dict_keys at 1. by rewrite codes_of_keys, Hleaves.
  - unfold dict_keys at 1. by rewrite codes_of_keys.
Qed.

Lemma code_bits_spec (codes : list (string * string)) (counter : list (string * Z))
  (acc : Z) :
  (forall s, s ∈ dict_keys counter -> s ∈ dict_keys codes) ->
  (forall s c, dict_get codes s = Some c -> c <> ""%string) ->
  Forall (fun x => 0 <= x.2)%Z counter ->
  exists n, code_bits codes counter acc = Ok n /\
    (acc + sum_Z (dict_values counter) <= n)%Z.
Proof.
  intros Hkeys Hcodes Hpos. revert acc.
  induction counter as [|[s f] counter IH]; intros acc.
  - exists acc. split; [done|]. unfold sum_Z. simpl. lia.
  - apply Forall_cons in Hpos as [Hf Hpos]. simpl in Hf.
    assert (is_Some (dict_get codes s)) as [c Hc].
    { apply dict_get_is_Some, Hkeys. simpl. by left. }
    simpl code_bits. rewrite Hc.
    destruct (IH) with (acc := (acc + f * Z.of_nat (String.length c))%Z)
      as (n & -> & Hn).
    { intros s' Hs'. apply Hkeys. simpl. by right. } { done. }
    exists n. split; [done|]. unfold dict_values in *.
    rewrite fmap_cons, sum_Z_cons. cbn [snd].
    specialize (Hcodes s c Hc). destruct c; [done|]. simpl String.length in Hn.
    nia.
Qed.

Lemma code_bits_exact (codes : list (string * string)) (counter : list (string * Z))
  (acc : Z) :
  (forall s, s ∈ dict_keys counter -> s ∈ dict_keys codes) ->
  exists n, code_bits codes counter acc = Ok n /\
    inject_Z n == inject_Z acc
      + sumQ (fun '(s, f) => inject_Z f * code_len (codeword codes s))%Q counter.
Proof.
  intros Hkeys. revert acc.
  induction counter as [|[s f] counter IH]; intros acc.
  - exists acc. split; [done|]. unfold sumQ. cbn [foldr]. ring.
  - assert (is_Some (dict_get codes s)) as [c Hc].
    { apply dict_get_is_Some, Hkeys. simpl. by left. }
    simpl code_bits. rewrite Hc.
    destruct (IH) with (acc := (acc + f * Z.of_nat (String.length c))%Z)
      as (n & -> & Hn).
    { intros s' Hs'. apply Hkeys. simpl. by right. }
    exists n. split; [done|]. rewrite Hn, sumQ_cons.
    assert (codeword codes s = c) as -> by (unfold codeword; by rewrite Hc).
    unfold code_len. rewrite inject_Z_plus, inject_Z_mult. ring.
Qed.

(** The bits per item that [main] divides the entropy of the bigrams by. *)
Lemma code_bits_per_item (codes : list (string * string))
  (counter : list (string * Z)) :
  (forall s, s ∈ dict_keys counter -> s ∈ dict_keys codes) ->
  (forall s c, dict_get codes s = Some c -> c <> ""%string) ->
  Forall (fun x => 0 <= x.2)%Z counter -> (0 < sum_Z (dict_values counter))%Z ->
  exists bits q,
    code_bits codes counter 0 = Ok bits /\
    truediv_Q bits (sum_Z (dict_values counter)) = Ok q /\
    (1 <= q)%Q /\
    q == weighted_length (sum_Z (dict_values counter)) codes counter.
Proof.
  intros Hkeys Hcodes Hpos Htotal.
  destruct (code_bits_spec codes counter 0 Hkeys Hcodes Hpos) as (bits & Hbits & Hge).
  destruct (code_bits_exact codes counter 0 Hkeys) as (bits' & Hbits' & Hexact).
  rewrite Hbits in Hbits'. injection Hbits' as <-.
  set (N := sum_Z (dict_values counter)) in *.
  assert (0 < inject_Z N)%Q as HN.
  { change 0%Q with (inject_Z 0). by rewrite <- Zlt_Qlt. }
  exists bits, (inject_Z bits / inject_Z N)%Q. split_and!; [done| | |].
  - unfold truediv_Q. by rewrite (proj2 (Z.eqb_neq N 0)) by lia.
  - apply Qle_shift_div_l; [done|]. rewrite Qmult_1_l, <- Zle_Qle. lia.
  - rewrite Hexact, <- (weighted_length_scaled N codes counter) by lia.
    change (inject_Z 0) with 0%Q. rewrite Qplus_0_l.
    apply Qdiv_mult_l. intros Hz. rewrite Hz in HN. by apply Qlt_irrefl in HN.
Qed.

Lemma truediv_Q_pos (a b : Z) :
  (0 < b <= a)%Z -> exists q, truediv_Q a b = Ok q /\ (0 < q)%Q.
Proof.
  intros [Hb Ha]. unfold truediv_Q. rewrite (proj2 (Z.eqb_neq b 0)) by lia.
  eexists. split; [done|]. apply Qlt_shift_div_l.
  - change 0%Q with (inject_Z 0). by rewrite <- Zlt_Qlt.
  - rewrite Qmult_0_l. change 0%Q with (inject_Z 0). rewrite <- Zlt_Qlt. lia.
Qed.

End HuffmanMain.

(** X9 (Workbook3, the sum [sum(freq * len(bigrams_codes[bg]) ...)] of
    [main]; Workbook2, [encode]).  For a sequence whose items all have a
    codeword, the counts of the sequence times the lengths of the
    codewords add up, in ints, to the length of the encoding of the
    sequence. *)
Theorem code_bits_is_encoded_length (items : list string)
  (codes : list (string * string)) :
  covered items codes ->
  exists encoded,
    Workbook2.encode items codes = Ok encoded /\
    lookup_join codes items = Ok encoded /\
    Workbook3.code_bits codes (Counter items) 0
      = Ok (Z.of_nat (String.length encoded)).
Proof.
  intros Hcov. rewrite encode_covered, lookup_join_covered by done.
  eexists. split_and!; [done..|].
  destruct (code_bits_exact codes (Counter items) 0) as (n & -> & Hn).
  { intros s Hs. apply (proj1 (Counter_keys_elem _ _)) in Hs.
    apply dict_get_is_Some.
    unfold covered in Hcov. rewrite Forall_forall in Hcov. by apply Hcov. }
  f_equal. apply inject_Z_injective.
  rewrite Hn, join_codewords_length, <- Counter_sumQ.
  change (inject_Z 0) with 0%Q. rewrite Qplus_0_l.
  apply sumQ_ext. intros [s f] _. reflexivity.
Qed.

Lemma code_bits_is_encoded_length_witness :
  exists encoded,
    Workbook2.encode ["a"; "b"; "c"; "a"] abc_codec = Ok encoded /\
    lookup_join abc_codec ["a"; "b"; "c"; "a"] = Ok encoded /\
    Workbook3.code_bits abc_codec (Counter ["a"; "b"; "c"; "a"]) 0
      = Ok (Z.of_nat (String.length encoded)).
Proof.
  apply (code_bits_is_encoded_length ["a"; "b"; "c"; "a"] abc_codec).
  repeat constructor; vm_compute; eauto.
Defined.

(** X15 (Workbook3, [main]).  On a text of three characters or more, two
    of them distinct, [main] runs to its end: the walk through the Huffman
    tree gives back the text that was read, and so does [join_bigrams] on
    the walk through the tree of the bigrams (it prints True for both
    comparisons); the average code length is 1 at least.  Both
    efficiencies it prints, entropy over average code length, lie between
    0 and 1. *)
Theorem main_huffman_round_trip (text : string) :
  (2 <= length (Counter (chars_of text)))%nat -> (3 <= String.length text)%nat ->
  exists v, Workbook3.main text = Ok v /\
    Workbook3.main_decoded v = text /\
    Workbook3.main_bigrams_decoded v = text /\
    (1 <= Workbook3.main_avg_length v)%Q /\
    (0 <= Workbook3.main_efficiency v <= 1)%R /\
    (0 <= Workbook3.main_bigrams_efficiency v <= 1)%R.
Proof.
  intros Hu Hlen.
  assert (text <> ""%string) as Htext by (intros ->; simpl in Hlen; lia).
  pose proof (two_bigrams text Hu Hlen) as Hb.
  pose proof (bigrams_length text) as Hbl.
  unfold Workbook3.main. cbv zeta.
  destruct (calculate_entropy_spec (Counter (chars_of text)) (Counter_positive _))
    as (h & Hh & _).
  unfold Workbook3.calculate_entropy. returns Hh.
  destruct (calculate_code_length_and_redundancy_Ok (Counter (chars_of text)) h)
    as (lr & Hlr).
  unfold Workbook3.calculate_code_length_and_redundancy. returns Hlr.
  destruct (huffman_build (chars_of text))
    as (root & Hbuild & Htree & Hleaves & Hroot & Hcodec & Hcov).
  { by destruct text. }
  returns Hbuild.
  rewrite (huffman_decode_text (chars_of text) root)
    by first [done|apply chars_of_nonempty|auto].
  cbn [bind].
  destruct (calculate_avg_length_ge_1 text (codes_of root ""))
    as (avg & Havg & Hge & Hw); [done|apply Hcodec|apply Hcodec|done|].
  returns Havg.
  destruct (huffman_entropy_le (chars_of text) root avg) as (h' & Hh' & Heff);
    [by destruct text|done|done|done|].
  rewrite Hh in Hh'. injection Hh' as <-.
  rewrite fdiv_R_pos by (eapply Qlt_le_trans; [|exact Hge]; done).
  cbn [bind].
  destruct (huffman_build (bigrams text))
    as (broot & Hbbuild & Hbtree & Hbleaves & Hbroot & Hbcodec & Hbcov).
  { intros Hnil. rewrite Hnil in Hbl. simpl in Hbl. lia. }
  returns Hbbuild.
  rewrite (huffman_decode_text (bigrams text) broot)
    by first [done|apply bigrams_nonempty|auto].
  cbn [bind].
  assert (Workbook3.join_bigrams (bigrams text) = Ok text) as Hjoin.
  { destruct text as [|a [|b rest]]; [simpl in Hlen; lia..|].
    rewrite bigrams_cons. unfold Workbook3.join_bigrams.
    rewrite join_bigrams_tail_bigrams. simpl. f_equal.
    rewrite join_cons, join_chars_of. done. }
  returns Hjoin.
  destruct (calculate_avg_length_Ok text (codes_of broot "")
              (Counter (bigrams text)) Htext) as (bavg & Hbavg & Hbavg_eq).
  returns Hbavg.
  destruct (code_bits_per_item (codes_of broot "") (Counter (bigrams text)))
    as (bits & q & Hbits & Hq & Hq1 & Hqw).
  { intros s Hs. unfold dict_keys at 1. by rewrite codes_of_keys, Hbleaves. }
  { apply Hbcodec. } { apply Counter_nonneg. }
  { rewrite Counter_total. lia. }
  destruct (huffman_entropy_le (bigrams text) broot q) as (hb & Hhb & Hbeff);
    [|done|done|done|].
  { intros Hnil. rewrite Hnil in Hbl. simpl in Hbl. lia. }
  returns Hhb. returns Hbits. returns Hq.
  rewrite fdiv_R_pos by (eapply Qlt_le_trans; [|exact Hq1]; done).
  cbn [bind].
  eexists. split; [done|].
  cbn [Workbook3.main_decoded Workbook3.main_bigrams_decoded
       Workbook3.main_avg_length Workbook3.main_efficiency
       Workbook3.main_bigrams_efficiency].
  split_and!; [by rewrite join_chars_of|done|done|..];
    by apply ratio_in_unit.
Qed.

Lemma main_huffman_round_trip_witness :
  exists v, Workbook3.main "abca" = Ok v /\
    Workbook3.main_decoded v = "abca"%string /\
    Workbook3.main_bigrams_decoded v = "abca"%string /\
    (1 <= Workbook3.main_avg_length v)%Q /\
    (0 <= Workbook3.main_efficiency v <= 1)%R /\
    (0 <= Workbook3.main_bigrams_efficiency v <= 1)%R.
Proof.
  apply (main_huffman_round_trip "abca"); vm_compute; lia.
Defined.

(** X16 (Workbook3, [main]).  On the texts the round trip leaves out,
    [main] does not print what it was written for.  On a text of one
    character or none it stops with IndexError: [build_huffman_codes] is
    given an empty count, of the characters or of the bigrams.  On a longer
    text of one repeated character the tree is a single leaf, the
    encoding a row of "0", and the walk stops with AttributeError at the
    second bit.  On a text of two distinct characters [main] runs to its
    end, the characters are decoded, but the one bigram is not: the text
    it prints for the bigrams is empty. *)
Theorem main_huffman_degenerate (text : string) :
  ((String.length text <= 1)%nat -> Workbook3.main text = Raise IndexError) /\
  ((length (Counter (chars_of text)) <= 1)%nat -> (2 <= String.length text)%nat ->
   Workbook3.main text = Raise AttributeError) /\
  ((2 <= length (Counter (chars_of text)))%nat -> String.length text = 2%nat ->
   exists v, Workbook3.main text = Ok v /\
     Workbook3.main_decoded v = text /\
     Workbook3.main_bigrams_decoded v = ""%string).
Proof.
  pose proof (bigrams_length text) as Hbl.
  destruct (calculate_entropy_spec (Counter (chars_of text)) (Counter_positive _))
    as (h & Hh & _).
  destruct (calculate_code_length_and_redundancy_Ok (Counter (chars_of text)) h)
    as (lr & Hlr).
  split_and!.
  - intros Hlen. unfold Workbook3.main. cbv zeta.
    unfold Workbook3.calculate_entropy. returns Hh.
    unfold Workbook3.calculate_code_length_and_redundancy. returns Hlr.
    destruct (decide (text = ""%string)) as [->|Htext]; [done|].
    destruct (huffman_build_single (chars_of text))
      as (c & f & enc & Hbuild & Henc & Hcov & Hkeys).
    { destruct text as [|a [|b rest]]; simpl; [lia|lia|simpl in Hlen; lia]. }
    { by destruct text. }
    returns Hbuild. rewrite decode_text_leaf, Henc, chars_of_length.
    rewrite (proj2 (Nat.leb_le _ _)) by done. cbn [bind].
    destruct (calculate_avg_length_ge_1 text [(c, "0"%string)])
      as (avg & Havg & Hge & _);
      [done|apply NoDup_singleton|apply single_code_nonempty|done|].
    returns Havg.
    rewrite fdiv_R_pos by (eapply Qlt_le_trans; [|exact Hge]; done).
    cbn [bind]. by rewrite bigrams_short.
  - intros Hone Hlen. unfold Workbook3.main. cbv zeta.
    unfold Workbook3.calculate_entropy. returns Hh.
    unfold Workbook3.calculate_code_length_and_redundancy. returns Hlr.
    destruct (huffman_build_single (chars_of text))
      as (c & f & enc & Hbuild & Henc & Hcov & Hkeys); [done| |].
    { destruct text; [simpl in Hlen; lia|done]. }
    returns Hbuild. rewrite decode_text_leaf, Henc, chars_of_length.
    by rewrite (proj2 (Nat.leb_gt _ _)) by lia.
  - intros Hu Hlen.
    assert (text <> ""%string) as Htext by (intros ->; simpl in Hlen; lia).
    unfold Workbook3.main. cbv zeta.
    unfold Workbook3.calculate_entropy. returns Hh.
    unfold Workbook3.calculate_code_length_and_redundancy. returns Hlr.
    destruct (huffman_build (chars_of text))
      as (root & Hbuild & Htree & Hleaves & Hroot & Hcodec & Hcov).
    { by destruct text. }
    returns Hbuild.
    rewrite (huffman_decode_text (chars_of text) root)
      by first [done|apply chars_of_nonempty|auto].
    cbn [bind].
    destruct (calculate_avg_length_ge_1 text (codes_of root ""))
      as (avg & Havg & Hge & _); [done|apply Hcodec|apply Hcodec|done|].
    returns Havg.
    rewrite fdiv_R_pos by (eapply Qlt_le_trans; [|exact Hge]; done).
    cbn [bind].
    destruct (huffman_build_single (bigrams text))
      as (c & f & enc & Hbbuild & Henc & Hbcov & Hbkeys).
    { destruct (bigrams text) as [|x [|y l]]; simpl in Hbl |- *; lia. }
    { intros Hnil. rewrite Hnil in Hbl. simpl in Hbl. lia. }
    returns Hbbuild. rewrite decode_text_leaf, Henc.
    rewrite (proj2 (Nat.leb_le _ _)) by lia. cbn [bind Workbook3.join_bigrams].
    destruct (calculate_avg_length_Ok text [(c, "0"%string)]
                (Counter (bigrams text)) Htext) as (bavg & Hbavg & _).
    returns Hbavg.
    destruct (calculate_entropy_spec (Counter (bigrams text)) (Counter_positive _))
      as (hb & Hhb & _).
    returns Hhb.
    destruct (code_bits_spec [(c, "0"%string)] (Counter (bigrams text)) 0)
      as (bits & Hbits & Hbits_ge).
    { intros s Hs. by rewrite Hbkeys in Hs. }
    { apply single_code_nonempty. } { apply Counter_nonneg. }
    returns Hbits.
    destruct (truediv_Q_pos bits (sum_Z (dict_values (Counter (bigrams text)))))
      as (q & Hq & Hqpos).
    { rewrite Counter_total in *. lia. }
    returns Hq. rewrite fdiv_R_pos by done. cbn [bind].
    eexists. split; [done|]. cbn. by rewrite join_chars_of.
Qed.

Lemma main_huffman_degenerate_witness :
  Workbook3.main "" = Raise IndexError
  /\ Workbook3.main "a" = Raise IndexError
  /\ Workbook3.main "aaa" = Raise AttributeError
  /\ exists v, Workbook3.main "ab" = Ok v /\
       Workbook3.main_decoded v = "ab"%string /\
       Workbook3.main_bigrams_decoded v = ""%string.
Proof.
  split_and!.
  - apply (proj1 (main_huffman_degenerate "")). vm_compute. lia.
  - apply (proj1 (main_huffman_degenerate "a")). vm_compute. lia.
  - apply (proj1 (proj2 (main_huffman_degenerate "aaa"))); vm_compute; lia.
  - apply (proj2 (proj2 (main_huffman_degenerate "ab"))); vm_compute; [lia|done].
Defined.



(** X18 (Workbook2, [calculate_shannon_fano] and [avg_code_length];
    Workbook3, [build_huffman_codes]; [calculate_entropy]).  For positive
    counts that add up to less than [2 ^ 53], the average code length of the Shannon–Fano table and that of
    the Huffman table are not below the entropy of the counts: the
    efficiency the workbooks print cannot exceed 100 %. *)
Theorem entropy_at_most_average_code_length (limit : nat) (chars : list string)
  (counter : list (string * Z)) :
  NoDup (dict_keys counter) -> Forall (fun x => 0 < x.2)%Z counter ->
  (sum_Z (dict_values counter) < 2 ^ 53)%Z ->
  counter <> [] -> (length counter <= limit)%nat ->
  Forall (fun c => c ∈ dict_keys counter) chars ->
  exists h, Workbook1.calculate_entropy counter = Ok h /\
    (exists codes avg,
       Workbook2.calculate_shannon_fano limit counter = Ok codes /\
       Workbook2.avg_code_length codes counter = Ok avg /\
       (h <= Q2R avg)%R) /\
    (exists codes encoded root avg,
       Workbook3.build_huffman_codes chars counter = Ok (codes, encoded, root) /\
       Workbook2.avg_code_length codes counter = Ok avg /\
       (h <= Q2R avg)%R).
Proof.
  intros Hnd Hpos Hexact Hne Hlimit Hchars.
  assert (Forall (fun x => 0 <= x.2)%Z counter) as Hnonneg.
  { eapply Forall_impl; [exact Hpos|]. simpl. lia. }
  assert (0 < sum_Z (dict_values counter))%Z as Htotal.
  { apply sum_Z_pos; [by apply Forall_fmap|by destruct counter]. }
  assert (forall codes, NoDup (dict_keys codes) ->
    exists avg, Workbook2.avg_code_length codes counter = Ok avg /\
      avg == weighted_length (sum_Z (dict_values counter)) codes counter) as Havg.
  { intros codes Hcodes. unfold Workbook2.avg_code_length.
    rewrite (proj2 (Z.eqb_neq _ 0)) by lia.
    destruct (avg_sum_spec counter (sum_Z (dict_values counter)) codes 0)
      as (avg & -> & Havg); [lia|].
    exists avg. split; [done|].
    by rewrite Havg, Qplus_0_l, sum_over_codec_weighted_length. }
  destruct (calculate_entropy_spec counter Hpos) as (h & Hh & _).
  exists h. split; [done|]. split.
  - destruct (calculate_shannon_fano_kraft limit counter Hnd Hnonneg Hexact Hlimit Hne)
      as (codes & Hsf & Hkraft).
    destruct (calculate_shannon_fano_spec limit counter Hnd Hnonneg Hexact Hlimit)
      as (codes' & sfx & Hsf' & Hkeys & _).
    { destruct counter; [done|simpl in Hlimit; lia]. }
    rewrite Hsf in Hsf'. injection Hsf' as <-.
    assert (NoDup (dict_keys codes)) as Hcodes by (by rewrite Hkeys).
    destruct (Havg codes Hcodes) as (avg & Havg' & Hw).
    destruct (entropy_le_average counter codes avg) as (h' & Hh' & _ & Hle);
      [done|done|done|by rewrite Hkeys|rewrite Hkraft; apply Qle_refl|done|].
    rewrite Hh in Hh'. injection Hh' as <-. by exists codes, avg.
  - destruct (build_huffman_codes_Ok chars counter Hnd Hne Hchars)
      as (root & Htree & Hleaves & _ & Hbuild).
    assert (dict_keys (codes_of root "") ≡ₚ dict_keys counter) as Hkeys.
    { unfold dict_keys at 1. by rewrite codes_of_keys. }
    assert (NoDup (dict_keys (codes_of root ""))) as Hcodes by (by rewrite Hkeys).
    destruct (Havg _ Hcodes) as (avg & Havg' & Hw).
    destruct (entropy_le_average counter (codes_of root "") avg)
      as (h' & Hh' & _ & Hle);
      [done|done|done|done|by apply codes_of_kraft_le|done|].
    rewrite Hh in Hh'. injection Hh' as <-. by eexists _, _, root, avg.
Qed.

Lemma entropy_at_most_average_code_length_witness :
  exists h, Workbook1.calculate_entropy abc_counter = Ok h /\
    (exists codes avg,
       Workbook2.calculate_shannon_fano 3 abc_counter = Ok codes /\
       Workbook2.avg_code_length codes abc_counter = Ok avg /\
       (h <= Q2R avg)%R) /\
    (exists codes encoded root avg,
       Workbook3.build_huffman_codes ["a"; "c"]%string abc_counter
         = Ok (codes, encoded, root) /\
       Workbook2.avg_code_length codes abc_counter = Ok avg /\
       (h <= Q2R avg)%R).
Proof.
  apply (entropy_at_most_average_code_length 3 ["a"; "c"]%string abc_counter).
  - apply (bool_decide_unpack _). vm_compute. exact I.
  - repeat constructor.
  - by vm_compute.
  - discriminate.
  - simpl. lia.
  - repeat constructor; apply (bool_decide_unpack _); vm_compute; exact I.
Defined.

(* ================================================================== *)
(** * Workbook 1 end to end *)
(* ================================================================== *)

Section RemovalFacts.
Import Workbook1.

(** Two dictionaries with the same keys in the same order and the same
    values are the same. *)
Lemma dict_ext {V} (d1 d2 : list (string * V)) :
  NoDup (dict_keys d1) -> dict_keys d1 = dict_keys d2 ->
  (forall k, k ∈ dict_keys d1 -> dict_get d1 k = dict_get d2 k) -> d1 = d2.
Proof.
  revert d2. induction d1 as [|[k v] d1 IH]; intros d2 Hnd Hkeys Hget.
  { by destruct d2. }
  destruct d2 as [|[k' v'] d2]; [done|]. unfold dict_keys in *.
  simpl in Hkeys. injection Hkeys as <- Hkeys.
  simpl in Hnd. apply NoDup_cons in Hnd as [Hk Hnd].
  pose proof (Hget k ltac:(simpl; by left)) as Hv. simpl in Hv.
  rewrite !decide_True in Hv by done. injection Hv as <-.
  f_equal. apply IH; [done|done|].
  intros k0 Hk0. specialize (Hget k0 ltac:(simpl; by right)). simpl in Hget.
  rewrite !decide_False in Hget by (intros ->; done). done.
Qed.

Lemma dict_keys_filter {V} (P : string -> Prop) `{forall s, Decision (P s)}
  (d : list (string * V)) :
  dict_keys (filter (fun x => P x.1) d) = filter P (dict_keys d).
Proof.
  unfold dict_keys. induction d as [|[k v] d IH]; [done|].
  rewrite fmap_cons. simpl fst. destruct (decide (P k)) as [HP|HP].
  - rewrite !filter_cons_True by done. rewrite fmap_cons. by rewrite IH.
  - rewrite !filter_cons_False by done. done.
Qed.

Lemma dict_get_filter {V} (P : string -> Prop) `{forall s, Decision (P s)}
  (d : list (string * V)) (k : string) :
  dict_get (filter (fun x => P x.1) d) k = if decide (P k) then dict_get d k else None.
Proof.
  induction d as [|[k' v] d IH]; [by case_decide|].
  destruct (decide (P k')) as [HP|HP].
  - rewrite filter_cons_True by done. simpl. rewrite IH.
    destruct (decide (k' = k)) as [->|Hne]; [by rewrite decide_True|done].
  - rewrite filter_cons_False by done. simpl. rewrite IH.
    destruct (decide (k' = k)) as [->|Hne]; [by rewrite !decide_False|done].
Qed.

Lemma first_seen_filter (P : string -> Prop) `{forall s, Decision (P s)}
  (items : list string) :
  first_seen (filter P items) = filter P (first_seen items).
Proof.
  induction items as [|x items IH]; [done|].
  destruct (decide (P x)) as [HP|HP].
  - rewrite filter_cons_True by done. simpl.
    rewrite filter_cons_True by done. f_equal.
    rewrite IH, !list_filter_filter. apply list_filter_iff. tauto.
  - rewrite filter_cons_False by done. simpl.
    rewrite filter_cons_False by done.
    rewrite IH, list_filter_filter. apply list_filter_iff.
    intros y. split; [|tauto]. intros Hy. split; [done|]. by intros ->.
Qed.

Lemma occurrences_filter (P : string -> Prop) `{forall s, Decision (P s)}
  (items : list string) (s : string) :
  P s -> occurrences s (filter P items) = occurrences s items.
Proof.
  intros HP. unfold occurrences. do 2 f_equal.
  rewrite list_filter_filter. apply list_filter_iff.
  intros x. split; [tauto|]. intros ->. done.
Qed.

Lemma dict_get_counter (items : list string) (s : string) :
  s ∈ items -> dict_get (Counter items) s = Some (occurrences s items).
Proof.
  intros Hs. destruct (Counter_spec items) as (_ & Hget & _).
  apply (proj2 (Counter_keys_elem _ _)), dict_get_is_Some in Hs as [n Hn].
  rewrite Hn. f_equal. rewrite <- Hget. unfold counter_get. by rewrite Hn.
Qed.

(** Counting what a filter keeps is filtering the count. *)
Lemma Counter_filter (P : string -> Prop) `{forall s, Decision (P s)}
  (items : list string) :
  Counter (filter P items) = filter (fun x => P x.1) (Counter items).
Proof.
  destruct (Counter_spec items) as (_ & _ & Hkeys).
  destruct (Counter_spec (filter P items)) as (Hnd' & _ & Hkeys').
  apply dict_ext; [done|..].
  - by rewrite dict_keys_filter, Hkeys, Hkeys', first_seen_filter.
  - intros k Hk. apply (proj1 (Counter_keys_elem _ _)) in Hk.
    pose proof Hk as Hk'. apply list_elem_of_filter in Hk' as [HP Hin].
    rewrite dict_get_filter, decide_True by done.
    rewrite !dict_get_counter by done. by rewrite occurrences_filter.
Qed.

Lemma chars_of_join (l : list string) :
  Forall (fun s => String.length s = 1%nat) l -> chars_of (join l) = l.
Proof.
  induction 1 as [|s l Hs _ IH]; [done|]. rewrite join_cons.
  destruct s as [|c [|? ?]]; [done| |done].
  change (String c "" +:+ join l) with (String c (join l)). simpl. by rewrite IH.
Qed.

Lemma chars_of_single (text : string) :
  Forall (fun s => String.length s = 1%nat) (chars_of text).
Proof. induction text; constructor; done. Qed.

Lemma slice_to_subseteq {A} (l : list A) (n : Z) : slice_to l n ⊆ l.
Proof. unfold slice_to. case_match; apply subseteq_take. Qed.

Lemma slice_from_subseteq {A} (l : list A) (n : Z) : slice_from l n ⊆ l.
Proof. unfold slice_from. case_match; apply subseteq_drop. Qed.

(** What [remove_by_frequency] leaves: the characters outside the
    removed set, and this set holds characters of the text only. *)
Lemma remove_by_frequency_filter (text mode : string) (frac : Q)
  (filtered : string) (removed : gset string) :
  remove_by_frequency text mode frac = Ok (filtered, removed) ->
  chars_of filtered = filter (fun c => c ∉ removed) (chars_of text)
  /\ forall s, s ∈ removed -> s ∈ chars_of text.
Proof.
  unfold remove_by_frequency.
  destruct (Counter (chars_of text)) as [|e counter] eqn:Hc.
  - apply Counter_nil in Hc. intros [= <- <-]. rewrite Hc. split; [done|].
    intros s Hs. by apply elem_of_empty in Hs.
  - cbv zeta. destruct (round_product _ _) as [rounded|err]; [|done].
    cbn [bind]. intros [= <- <-]. split.
    + rewrite chars_of_join; [done|]. apply Forall_forall.
      intros s [_ Hs]%list_elem_of_filter.
      pose proof (chars_of_single text) as Hall.
      by eapply Forall_forall in Hall.
    + intros s Hs. apply Counter_keys_elem. rewrite Hc.
      assert (exists n, (s, n) ∈ most_common (e :: counter)) as [n Hin].
      { destruct (String.eqb mode "top");
          apply elem_of_list_to_set, list_elem_of_fmap in Hs as ([s' n] & -> & Hin);
          exists n; [by apply slice_to_subseteq in Hin|by apply slice_from_subseteq in Hin]. }
      unfold most_common in Hin. rewrite sorted_desc_perm in Hin.
      unfold dict_keys. apply list_elem_of_fmap. by exists (s, n).
Qed.

(** At the fraction [0.2] of [main] the removal returns on every text. *)
Lemma remove_by_frequency_main (text mode : string) :
  exists filtered removed,
    remove_by_frequency text mode (float_of_decimal (2 # 10)) = Ok (filtered, removed).
Proof.
  unfold remove_by_frequency. pose proof (Counter_alphabet text) as Hlen.
  destruct (Counter (chars_of text)) as [|e counter]; [by eexists _, _|].
  cbv zeta. destruct (round_product_alphabet _ Hlen) as [rounded ->].
  cbn [bind]. by eexists _, _.
Qed.

End RemovalFacts.

(** X19 (Workbook1, [remove_by_frequency]).  The count of the text that is
    returned is the count of the text that was given, without the entries
    of the removed symbols and otherwise unchanged, in the same order:
    this is what [print_removal_diff] takes the new entropy of.  A removed
    symbol occurs in the text that was given and not in the one returned,
    and a mode other than 'top' is taken for 'bottom'. *)
Theorem remove_by_frequency_counts (text mode : string) (frac : Q) :
  (forall filtered removed,
     Workbook1.remove_by_frequency text mode frac = Ok (filtered, removed) ->
     Counter (chars_of filtered)
       = filter (fun x => x.1 ∉ removed) (Counter (chars_of text)) /\
     (forall s, s ∈ removed -> s ∈ chars_of text /\ s ∉ chars_of filtered) /\
     (forall s, s ∉ removed ->
        occurrences s (chars_of filtered) = occurrences s (chars_of text))) /\
  (mode <> "top"%string ->
   Workbook1.remove_by_frequency text mode frac
   = Workbook1.remove_by_frequency text "bottom" frac).
Proof.
  split.
  - intros filtered removed Heq.
    destruct (remove_by_frequency_filter text mode frac _ _ Heq) as [Hf Hsub].
    split_and!.
    + rewrite Hf. apply Counter_filter.
    + intros s Hs. split; [by apply Hsub|]. rewrite Hf, list_elem_of_filter. tauto.
    + intros s Hs. rewrite Hf. by apply occurrences_filter.
  - intros Hmode. unfold Workbook1.remove_by_frequency.
    by rewrite (proj2 (String.eqb_neq mode "top")).
Qed.

(** X20 (Workbook1, [main]).  Whatever the text, [main] runs to its end:
    no entropy, code length or redundancy it asks for raises, nor does the
    rounding of [0.2 * symbols_count], also when cleaning leaves nothing of
    the text or when a removal leaves nothing.  The entropies it prints are
    not negative, and those after a removal are the entropies of the counts
    of the symbols that were kept. *)
Theorem main_entropy_never_raises (text : string) :
  exists v, Workbook1.main text = Ok v /\
    Workbook1.main_text v = Workbook1.clear_text text /\
    (0 <= Workbook1.main_entropy_unigrams v)%R /\
    (0 <= Workbook1.main_entropy_bigrams v)%R /\
    (0 <= (Workbook1.main_top_diff v).1)%R /\
    (0 <= (Workbook1.main_bottom_diff v).1)%R /\
    Workbook1.calculate_entropy
      (filter (fun x => x.1 ∉ (Workbook1.main_top_removed v).2)
         (Counter (chars_of (Workbook1.clear_text text))))
      = Ok (Workbook1.main_top_diff v).1 /\
    Workbook1.calculate_entropy
      (filter (fun x => x.1 ∉ (Workbook1.main_bottom_removed v).2)
         (Counter (chars_of (Workbook1.clear_text text))))
      = Ok (Workbook1.main_bottom_diff v).1.
Proof.
  unfold Workbook1.main. cbv zeta.
  set (cleaned := Workbook1.clear_text text).
  destruct (calculate_entropy_spec (Counter (chars_of cleaned)) (Counter_positive _))
    as (h & Hh & Hh0 & _).
  returns Hh.
  destruct (calculate_entropy_spec (Counter (bigrams cleaned)) (Counter_positive _))
    as (hb & Hhb & Hhb0 & _).
  returns Hhb.
  destruct (calculate_code_length_and_redundancy_Ok (Counter (chars_of cleaned)) h)
    as ([code_length redundancy] & Hlr).
  returns Hlr.
  destruct (remove_by_frequency_main cleaned "top")
    as (text_top & removed_top & Hrt).
  destruct (remove_by_frequency_main cleaned "bottom")
    as (text_bottom & removed_bottom & Hrb).
  destruct (remove_by_frequency_filter _ _ _ _ _ Hrt) as [Htop _].
  destruct (remove_by_frequency_filter _ _ _ _ _ Hrb) as [Hbottom _].
  returns Hrt. unfold Workbook1.print_removal_diff.
  destruct (calculate_entropy_spec (Counter (chars_of text_top)) (Counter_positive _))
    as (ht & Hht & Hht0 & _).
  returns Hht. returns Hrb.
  destruct (calculate_entropy_spec (Counter (chars_of text_bottom)) (Counter_positive _))
    as (hm & Hhm & Hhm0 & _).
  returns Hhm.
  eexists. split; [done|].
  cbn [Workbook1.main_text Workbook1.main_entropy_unigrams
       Workbook1.main_entropy_bigrams Workbook1.main_top_diff
       Workbook1.main_bottom_diff Workbook1.main_top_removed
       Workbook1.main_bottom_removed fst snd].
  split_and!; [done..| |].
  - rewrite <- Hht, Htop. f_equal. symmetry. apply Counter_filter.
  - rewrite <- Hhm, Hbottom. f_equal. symmetry. apply Counter_filter.
Qed.
